(** * A shallow embedding of the webcomic reader script (assets/js/app.js)

    The script sorts the entries of a manifest by a number extracted from
    their ids, keeps a cursor into the sorted collection, renders a grid and
    a modal reader, mirrors the open entry in the location fragment and
    gates the page behind a one-time disclaimer.

    JavaScript values are modelled as follows.
    - A string is the list of its UTF-16 code units, each an integer in
      [0, 65535].
    - A Number that the script computes with is always integer valued (a
      parsed digit run, a difference of two of them, a collation result); it
      is modelled by its exact integer value, or as NaN or an infinity, and
      conversion of a mathematical integer to a Number rounds to 53
      significant bits, ties to even, and overflows to infinity from 2^1024.
    - The document is a finite map from element ids to elements. *)

From Stdlib Require Import ZArith Lia Ascii String Decimal DecimalZ.
From stdpp Require Import base decidable option numbers list sorting strings gmap.

Local Open Scope Z_scope.

(** ** Strings *)

Module JsString.

(** A JavaScript string: its UTF-16 code units. *)
Definition jsstring := list Z.

Definition unit_ok (c : Z) : Prop := 0 <= c < 65536.

(** Code units of a literal written in the source. *)
Definition lit (s : string) : jsstring :=
  (fun c => Z.of_N (N_of_ascii c)) <$> list_ascii_of_string s.

(** [/\d/]: without the unicode flag, the ASCII digits only. *)
Definition isDigit (c : Z) : bool := (48 <=? c) && (c <=? 57).

(** Decimal digits of a non-negative integer literal. *)
Fixpoint uint_units (u : Decimal.uint) : jsstring :=
  match u with
  | Decimal.Nil => []
  | Decimal.D0 u => 48 :: uint_units u
  | Decimal.D1 u => 49 :: uint_units u
  | Decimal.D2 u => 50 :: uint_units u
  | Decimal.D3 u => 51 :: uint_units u
  | Decimal.D4 u => 52 :: uint_units u
  | Decimal.D5 u => 53 :: uint_units u
  | Decimal.D6 u => 54 :: uint_units u
  | Decimal.D7 u => 55 :: uint_units u
  | Decimal.D8 u => 56 :: uint_units u
  | Decimal.D9 u => 57 :: uint_units u
  end.

(** The mathematical value of a run of decimal digits. *)
Definition digitsValue (ds : jsstring) : Z :=
  fold_left (fun acc d => acc * 10 + (d - 48)) ds 0.

(** The longest prefix of digits. *)
Fixpoint takeDigits (s : jsstring) : jsstring :=
  match s with
  | c :: rest => if isDigit c then c :: takeDigits rest else []
  | [] => []
  end.

(** [s.match(/\d+/)]: the first maximal run of digits, if any. *)
Fixpoint firstDigitRun (s : jsstring) : option jsstring :=
  match s with
  | [] => None
  | c :: rest =>
      if isDigit c then Some (c :: takeDigits rest)
      else firstDigitRun rest
  end.

End JsString.
Export JsString.

(** ** Numbers *)

Module Num.

Inductive number : Type :=
| NaN
| Fin (z : Z)
| PInf
| NInf.

(** Round a non-negative integer to 53 significant bits, ties to even. *)
Definition round53 (n : Z) : Z :=
  let bits := Z.log2 n + 1 in
  if bits <=? 53 then n
  else
    let sh := bits - 53 in
    let q := Z.shiftr n sh in
    let r := n mod 2 ^ sh in
    let half := 2 ^ (sh - 1) in
    let q' := if (half <? r) || ((r =? half) && Z.odd q) then q + 1 else q in
    Z.shiftl q' sh.

(** The Number for a mathematical integer. *)
Definition toNumber (z : Z) : number :=
  let m := round53 (Z.abs z) in
  if 2 ^ 1024 <=? m then (if z <? 0 then NInf else PInf)
  else Fin (Z.sgn z * m).

(** [Number.isFinite]. *)
Definition isFinite (x : number) : bool :=
  match x with Fin _ => true | _ => false end.

(** [x !== y] on Numbers: NaN differs from everything, itself included. *)
Definition strictNe (x y : number) : bool :=
  match x, y with
  | Fin a, Fin b => negb (a =? b)
  | PInf, PInf | NInf, NInf => false
  | _, _ => true
  end.

(** [x - y]. *)
Definition sub (x y : number) : number :=
  match x, y with
  | NaN, _ | _, NaN => NaN
  | Fin a, Fin b => toNumber (a - b)
  | PInf, PInf | NInf, NInf => NaN
  | PInf, _ | _, NInf => PInf
  | NInf, _ | _, PInf => NInf
  end.

(** [x < 0] and [x > 0], as a sort inspects a comparator's result. *)
Definition isNeg (x : number) : bool :=
  match x with Fin z => z <? 0 | NInf => true | _ => false end.
Definition isPos (x : number) : bool :=
  match x with Fin z => 0 <? z | PInf => true | _ => false end.

(** The sign a sort reads off a comparator's result; NaN counts as 0. *)
Definition sgn (x : number) : Z :=
  match x with
  | NaN => 0
  | Fin z => Z.sgn z
  | PInf => 1
  | NInf => -1
  end.

(** [parseInt(s, 10)] on a string that starts with its digits: the longest
    digit prefix, read in base ten. *)
Definition parseInt10 (s : jsstring) : number :=
  match takeDigits s with
  | [] => NaN
  | ds => toNumber (digitsValue ds)
  end.

End Num.
Export Num.

(** ** Values and entries *)

Inductive JsVal : Type :=
| VUndefined
| VNull
| VBool (b : bool)
| VNumber (z : Z)
| VString (s : jsstring).

(** [String(v)]. A numeric value is an integer of the manifest; the
    language prints an integer below 10^21 in plain decimal notation. *)
Definition toStr (v : JsVal) : jsstring :=
  match v with
  | VUndefined => lit "undefined"
  | VNull => lit "null"
  | VBool true => lit "true"
  | VBool false => lit "false"
  | VNumber z =>
      match Z.to_int z with
      | Decimal.Pos u => uint_units u
      | Decimal.Neg u => 45 :: uint_units u
      end
  | VString s => s
  end.

(** [String(v ?? '')]. *)
Definition toStrOrEmpty (v : JsVal) : jsstring :=
  match v with
  | VUndefined | VNull => []
  | _ => toStr v
  end.

(** Truthiness. *)
Definition truthy (v : JsVal) : bool :=
  match v with
  | VUndefined | VNull => false
  | VBool b => b
  | VNumber z => negb (z =? 0)
  | VString s => negb (bool_decide (s = []))
  end.

(** An entry of the manifest: its id, of any primitive type, and its
    string fields, each [None] when the entry does not have it. *)
Record Entry : Type := mkEntry {
  id : JsVal;
  title : option jsstring;
  date : option jsstring;
  image : option jsstring;
  alt : option jsstring
}.

(** ** Sorting *)

(** [[...l].sort(cmp)]. The language specifies a stable sort whose result
    is determined once the comparator is consistent; insertion from the
    right end is such a sort: an element goes before the first element it
    does not compare greater than, hence before its equals that followed
    it in the input. *)
Fixpoint insertSorted {A} (cmp : A -> A -> number) (x : A) (l : list A)
  : list A :=
  match l with
  | [] => [x]
  | y :: l' =>
      if isPos (cmp x y) then y :: insertSorted cmp x l' else x :: l
  end.

Definition sort {A} (cmp : A -> A -> number) (l : list A) : list A :=
  fold_right (insertSorted cmp) [] l.

(** ** Identifier sorter *)

Definition idToNumber (v : JsVal) : number :=
  match firstDigitRun (toStrOrEmpty v) with
  | Some m => parseInt10 m
  | None => NaN
  end.

Section Sorter.

(** [s.localeCompare(t, undefined, { numeric: true })] of the platform. *)
Variable localeCompare : jsstring -> jsstring -> Z.

Definition byIdAscending (a b : Entry) : number :=
  let na := idToNumber (id a) in
  let nb := idToNumber (id b) in
  let aHas := isFinite na in
  let bHas := isFinite nb in
  if aHas && bHas && strictNe na nb then sub na nb
  else if aHas && negb bHas then Fin (-1)
  else if negb aHas && bHas then Fin 1
  else Fin (localeCompare (toStrOrEmpty (id a)) (toStrOrEmpty (id b))).

(** [[...(data.comics || [])].sort(byIdAscending)]. *)
Definition sortComics (l : list Entry) : list Entry := sort byIdAscending l.

End Sorter.

(** ** A numeric-aware collation

    The platform's comparison with [numeric: true] and default sensitivity
    reads a maximal run of decimal digits as one collation element, its
    numeric value, so that leading zeros do not count; the other code units
    are single elements. The order among non-digit elements depends on the
    locale; they are ordered by code unit here, and a digit run is placed
    where the digits are. *)

Module Collation.

Inductive token : Type :=
| TDigits (ds : jsstring)
| TUnit (c : Z).

Definition pushUnit (c : Z) (acc : list token) : list token :=
  if isDigit c then
    match acc with
    | TDigits ds :: tl => TDigits (c :: ds) :: tl
    | _ => TDigits [c] :: acc
    end
  else TUnit c :: acc.

Definition tokens (s : jsstring) : list token := fold_right pushUnit [] s.

Definition key (t : token) : Z * Z :=
  match t with
  | TDigits ds => (48, digitsValue ds)
  | TUnit c => (c, 0)
  end.

Definition keyCmp (k1 k2 : Z * Z) : comparison :=
  match fst k1 ?= fst k2 with
  | Eq => snd k1 ?= snd k2
  | c => c
  end.

Fixpoint lexCmp (l1 l2 : list (Z * Z)) : comparison :=
  match l1, l2 with
  | [], [] => Eq
  | [], _ :: _ => Lt
  | _ :: _, [] => Gt
  | k1 :: r1, k2 :: r2 =>
      match keyCmp k1 k2 with
      | Eq => lexCmp r1 r2
      | c => c
      end
  end.

Definition collate (s t : jsstring) : Z :=
  match lexCmp (key <$> tokens s) (key <$> tokens t) with
  | Lt => -1
  | Eq => 0
  | Gt => 1
  end.

End Collation.

(** ** Exceptions *)

Inductive exn : Type :=
| TypeError
| URIError
| SyntaxError
| CouldNotLoad.

Inductive result (A : Type) : Type :=
| Ok (a : A)
| Throw (e : exn).
Arguments Ok {A} a.
Arguments Throw {A} e.

(** ** HTML escaping *)

Definition escapeUnit (ch : Z) : jsstring :=
  if ch =? 38 then lit "&amp;"
  else if ch =? 60 then lit "&lt;"
  else if ch =? 62 then lit "&gt;"
  else if ch =? 34 then lit "&quot;"
  else if ch =? 39 then lit "&#39;"
  else [ch].

(** [s.replace(re, ch => table[ch])] on a string, where [re] matches every
    ampersand, angle bracket, double quote and apostrophe. *)
Definition escapeStr (s : jsstring) : jsstring := flat_map escapeUnit s.

(** [escapeHtml(s)]: [(s || '')] keeps a truthy value as it is, and only a
    string has a [replace] method to call. *)
Definition escapeHtml (v : JsVal) : result jsstring :=
  match (if truthy v then v else VString []) with
  | VString s => Ok (escapeStr s)
  | _ => Throw TypeError
  end.

(** ** URI component encoding, and decoding of a query string *)

Module Uri.

Inductive codePoint : Type :=
| Scalar (c : Z)
| Lone (u : Z).

Definition isHigh (u : Z) : bool := (0xD800 <=? u) && (u <=? 0xDBFF).
Definition isLow (u : Z) : bool := (0xDC00 <=? u) && (u <=? 0xDFFF).

(** The code points of a string: a high surrogate followed by a low one
    is one supplementary code point, any other surrogate stands alone. *)
Fixpoint codePoints (s : jsstring) : list codePoint :=
  match s with
  | [] => []
  | u :: rest =>
      if isHigh u then
        match rest with
        | d :: rest' =>
            if isLow d
            then Scalar (0x10000 + (u - 0xD800) * 0x400 + (d - 0xDC00))
                   :: codePoints rest'
            else Lone u :: codePoints rest
        | [] => [Lone u]
        end
      else if isLow u then Lone u :: codePoints rest
      else Scalar u :: codePoints rest
  end.

(** The code units of a code point. *)
Definition unitsOf (c : Z) : jsstring :=
  if c <? 0x10000 then [c]
  else [0xD800 + (c - 0x10000) / 0x400; 0xDC00 + (c - 0x10000) mod 0x400].

(** UTF-8 bytes of a scalar value. *)
Definition utf8 (c : Z) : list Z :=
  if c <? 0x80 then [c]
  else if c <? 0x800 then [0xC0 + c / 64; 0x80 + c mod 64]
  else if c <? 0x10000 then
    [0xE0 + c / 4096; 0x80 + (c / 64) mod 64; 0x80 + c mod 64]
  else
    [0xF0 + c / 262144; 0x80 + (c / 4096) mod 64;
     0x80 + (c / 64) mod 64; 0x80 + c mod 64].

Definition hexDigit (d : Z) : Z := if d <? 10 then 48 + d else 55 + d.

Definition percent (b : Z) : jsstring :=
  [37; hexDigit (b / 16); hexDigit (b mod 16)].

Definition isAlnum (c : Z) : bool :=
  ((48 <=? c) && (c <=? 57)) || ((65 <=? c) && (c <=? 90))
  || ((97 <=? c) && (c <=? 122)).

(** The characters encodeURIComponent leaves alone: letters, digits and
    [- _ . ! ~ * ' ( )]. *)
Definition unreserved (c : Z) : bool :=
  isAlnum c
  || bool_decide (c ∈ [45; 95; 46; 33; 126; 42; 39; 40; 41]).

Fixpoint encodePoints (cps : list codePoint) : result jsstring :=
  match cps with
  | [] => Ok []
  | Lone _ :: _ => Throw URIError
  | Scalar c :: rest =>
      match encodePoints rest with
      | Ok r =>
          Ok ((if unreserved c then [c] else flat_map percent (utf8 c)) ++ r)
      | Throw e => Throw e
      end
  end.

(** [encodeURIComponent(s)]. *)
Definition encodeURIComponent (s : jsstring) : result jsstring :=
  encodePoints (codePoints s).

(** Conversion to a string of scalar values, as the URL interfaces take
    their arguments: a lone surrogate becomes U+FFFD. *)
Definition scalarOf (p : codePoint) : Z :=
  match p with Scalar c => c | Lone _ => 0xFFFD end.

Definition utf8Encode (s : jsstring) : list Z :=
  flat_map (fun p => utf8 (scalarOf p)) (codePoints s).

Definition unhex (h : Z) : option Z :=
  if (48 <=? h) && (h <=? 57) then Some (h - 48)
  else if (65 <=? h) && (h <=? 70) then Some (h - 55)
  else if (97 <=? h) && (h <=? 102) then Some (h - 87)
  else None.

(** Percent-decoding of a byte sequence. *)
Fixpoint percentDecode (bs : list Z) : list Z :=
  match bs with
  | [] => []
  | b :: rest =>
      if b =? 37 then
        match rest with
        | h1 :: h2 :: rest' =>
            match unhex h1, unhex h2 with
            | Some x, Some y => (x * 16 + y) :: percentDecode rest'
            | _, _ => 37 :: percentDecode rest
            end
        | _ => 37 :: percentDecode rest
        end
      else b :: percentDecode rest
  end.

(** The UTF-8 decoder: the code point under construction, the
    continuation bytes still needed, and the bounds on the next byte. *)
Record decoder : Type := mkDecoder {
  acc : Z;
  needed : Z;
  lower : Z;
  upper : Z
}.

Definition idle : decoder := mkDecoder 0 0 0x80 0xBF.

Definition decodeLead (b : Z) : decoder * list Z :=
  if b <=? 0x7F then (idle, [b])
  else if (0xC2 <=? b) && (b <=? 0xDF) then
    (mkDecoder (b - 0xC0) 1 0x80 0xBF, [])
  else if (0xE0 <=? b) && (b <=? 0xEF) then
    (mkDecoder (b - 0xE0) 2 (if b =? 0xE0 then 0xA0 else 0x80)
       (if b =? 0xED then 0x9F else 0xBF), [])
  else if (0xF0 <=? b) && (b <=? 0xF4) then
    (mkDecoder (b - 0xF0) 3 (if b =? 0xF0 then 0x90 else 0x80)
       (if b =? 0xF4 then 0x8F else 0xBF), [])
  else (idle, [0xFFFD]).

Definition decodeByte (st : decoder) (b : Z) : decoder * list Z :=
  if needed st =? 0 then decodeLead b
  else if (lower st <=? b) && (b <=? upper st) then
    let c := acc st * 64 + (b - 0x80) in
    if needed st =? 1 then (idle, [c])
    else (mkDecoder c (needed st - 1) 0x80 0xBF, [])
  else
    let '(st', out) := decodeLead b in (st', 0xFFFD :: out).

Fixpoint decodeFrom (st : decoder) (bs : list Z) : list Z :=
  match bs with
  | [] => if needed st =? 0 then [] else [0xFFFD]
  | b :: rest =>
      let '(st', out) := decodeByte st b in out ++ decodeFrom st' rest
  end.

(** UTF-8 decode without BOM, to a string. *)
Definition utf8Decode (bs : list Z) : jsstring :=
  flat_map unitsOf (decodeFrom idle bs).

(** A string without its first code unit when that is [u]. *)
Definition dropLeading (u : Z) (s : jsstring) : jsstring :=
  match s with
  | c :: rest => if c =? u then rest else s
  | [] => s
  end.

(** Split a byte sequence on a separator. *)
Fixpoint splitOn (sep : Z) (bs : list Z) : list (list Z) :=
  match bs with
  | [] => [[]]
  | b :: rest =>
      match splitOn sep rest with
      | cur :: more => if b =? sep then [] :: cur :: more else (b :: cur) :: more
      | [] => [[b]]
      end
  end.

(** Name and value of one [name=value] sequence: split at the first [=]. *)
Fixpoint splitPair (bs : list Z) : list Z * list Z :=
  match bs with
  | [] => ([], [])
  | b :: rest =>
      if b =? 61 then ([], rest)
      else let '(n, v) := splitPair rest in (b :: n, v)
  end.

Definition plusToSpace (bs : list Z) : list Z :=
  (fun b => if b =? 43 then 32 else b) <$> bs.

Definition decodeField (bs : list Z) : jsstring :=
  utf8Decode (percentDecode (plusToSpace bs)).

(** The list of pairs of [new URLSearchParams(init)]: one leading [?] is
    dropped, empty sequences are skipped. *)
Definition parseQuery (init : jsstring) : list (jsstring * jsstring) :=
  let input := dropLeading 63 init in
  omap (fun bs =>
          match bs with
          | [] => None
          | _ => let '(n, v) := splitPair bs in
                 Some (decodeField n, decodeField v)
          end)
       (splitOn 38 (utf8Encode input)).

(** [sp.get(name)]: the value of the first pair with that name. *)
Fixpoint queryGet (name : jsstring) (ps : list (jsstring * jsstring))
  : option jsstring :=
  match ps with
  | [] => None
  | (n, v) :: rest =>
      if bool_decide (n = name) then Some v else queryGet name rest
  end.

(** The fragment percent-encode set: controls, everything above [~], and
    space, double quote, [<], [>] and backquote. *)
Definition inFragmentSet (c : Z) : bool :=
  (c <=? 0x1F) || (0x7E <? c)
  || bool_decide (c ∈ [0x20; 0x22; 0x3C; 0x3E; 0x60]).

Definition isTabOrNewline (u : Z) : bool :=
  bool_decide (u ∈ [9; 10; 13]).

(** The fragment a URL takes when its [hash] is set to a non-empty
    value: one leading [#] is dropped, tabs and newlines are removed, and
    code points of the fragment set are percent-encoded. *)
Definition fragmentOf (value : jsstring) : jsstring :=
  let input := dropLeading 35 value in
  flat_map (fun p =>
              let c := scalarOf p in
              if inFragmentSet c then flat_map percent (utf8 c)
              else unitsOf c)
           (codePoints (filter (fun u => isTabOrNewline u = false) input)).

End Uri.

(** ** The manifest *)

Record Manifest : Type := mkManifest {
  siteTitle : option jsstring;
  siteAuthor : option jsstring;
  siteComics : option (list Entry)
}.

(** What the body of the response parses to: the document [null], or an
    object read as a manifest. *)
Inductive Json : Type :=
| JNull
| JManifest (m : Manifest).

(** ** The page *)

(** The closures the script assigns to [onclick], with what each captures:
    the neighbouring or last entry as [renderReader] read it from the
    array (undefined past either end), or the entry [renderLatest] shows. *)
Inductive Handler : Type :=
| OnPrev (prev : option Entry)
| OnNext (next : option Entry)
| OnLatest (latest : option Entry)
| OnOpen (comic : Entry).

Record Element : Type := mkElement {
  textContent : jsstring;
  attributes : gmap string jsstring;
  onclick : option Handler;
  styleDisplay : jsstring;
  innerHTML : jsstring
}.

Definition set_textContent (v : jsstring) (e : Element) : Element :=
  mkElement v (attributes e) (onclick e) (styleDisplay e) (innerHTML e).
Definition set_attributes (v : gmap string jsstring) (e : Element) : Element :=
  mkElement (textContent e) v (onclick e) (styleDisplay e) (innerHTML e).
Definition set_onclick (v : option Handler) (e : Element) : Element :=
  mkElement (textContent e) (attributes e) v (styleDisplay e) (innerHTML e).
Definition set_styleDisplay (v : jsstring) (e : Element) : Element :=
  mkElement (textContent e) (attributes e) (onclick e) v (innerHTML e).
Definition set_innerHTML (v : jsstring) (e : Element) : Element :=
  mkElement (textContent e) (attributes e) (onclick e) (styleDisplay e) v.

(** The listeners [init] adds with [addEventListener]. *)
Inductive Listener : Type :=
| LTab              (* click on a [data-tab] button *)
| LDiscAccept       (* click on #discAccept *)
| LOpenDisc         (* click on #openDisclaimer *)
| LDiscOverlay      (* click on #disclaimer *)
| LBtnStart         (* click on #btnStart *)
| LBtnOpenLatest    (* click on #btnOpenLatest *)
| LBtnClose         (* click on #btnClose *)
| LReaderBg         (* click on #reader *)
| LKeydown          (* keydown on the window *)
| LTouchStart       (* touchstart on the swipe target *)
| LTouchEnd.        (* touchend on the swipe target *)

Global Instance Listener_eq_dec : EqDecision Listener.
Proof. solve_decision. Defined.

Inductive Report : Type :=
| Logged (e : exn)      (* [console.error(e)] *)
| Uncaught (e : exn).   (* an exception that escaped a listener *)

(** [let STATE = { data: null, comics: [], currentIndex: 0 }]. *)
Record State : Type := mkState {
  data : option Json;
  comics : list Entry;
  currentIndex : Z
}.

Record World : Type := mkWorld {
  (* the script's [STATE] object *)
  state : State;
  (* the elements of the page, by id *)
  document : gmap string Element;
  (* the [data-open] values of the grid's buttons, in order *)
  tiles : list jsstring;
  (* the tab last selected by [setCurrentTab] *)
  currentTab : option jsstring;
  (* [document.body.style.overflow] *)
  bodyOverflow : jsstring;
  (* [document.documentElement.style.overflow] *)
  rootOverflow : jsstring;
  (* the fragment of the document's URL *)
  fragment : option jsstring;
  (* [localStorage], or [None] when access to it throws *)
  storage : option (gmap string jsstring);
  (* listeners added so far, in order *)
  listeners : list Listener;
  (* [touchStartX], [touchStartY], [touchActive] *)
  touch : Z * Z * bool;
  (* errors written to the console, oldest first *)
  reports : list Report;
  (* sources of the images requested ahead *)
  preloaded : list jsstring
}.

Definition set_state (v : State) (w : World) : World :=
  mkWorld v (document w) (tiles w) (currentTab w) (bodyOverflow w)
    (rootOverflow w) (fragment w) (storage w) (listeners w) (touch w)
    (reports w) (preloaded w).

Definition set_document (v : gmap string Element) (w : World) : World :=
  mkWorld (state w) v (tiles w) (currentTab w) (bodyOverflow w)
    (rootOverflow w) (fragment w) (storage w) (listeners w) (touch w)
    (reports w) (preloaded w).

Definition set_tiles (v : list jsstring) (w : World) : World :=
  mkWorld (state w) (document w) v (currentTab w) (bodyOverflow w)
    (rootOverflow w) (fragment w) (storage w) (listeners w) (touch w)
    (reports w) (preloaded w).

Definition set_currentTab (v : option jsstring) (w : World) : World :=
  mkWorld (state w) (document w) (tiles w) v (bodyOverflow w)
    (rootOverflow w) (fragment w) (storage w) (listeners w) (touch w)
    (reports w) (preloaded w).

Definition set_bodyOverflow (v : jsstring) (w : World) : World :=
  mkWorld (state w) (document w) (tiles w) (currentTab w) v (rootOverflow w)
    (fragment w) (storage w) (listeners w) (touch w) (reports w)
    (preloaded w).

Definition set_rootOverflow (v : jsstring) (w : World) : World :=
  mkWorld (state w) (document w) (tiles w) (currentTab w) (bodyOverflow w) v
    (fragment w) (storage w) (listeners w) (touch w) (reports w)
    (preloaded w).

Definition set_fragment (v : option jsstring) (w : World) : World :=
  mkWorld (state w) (document w) (tiles w) (currentTab w) (bodyOverflow w)
    (rootOverflow w) v (storage w) (listeners w) (touch w) (reports w)
    (preloaded w).

Definition set_storage (v : option (gmap string jsstring)) (w : World) : World :=
  mkWorld (state w) (document w) (tiles w) (currentTab w) (bodyOverflow w)
    (rootOverflow w) (fragment w) v (listeners w) (touch w) (reports w)
    (preloaded w).

Definition set_listeners (v : list Listener) (w : World) : World :=
  mkWorld (state w) (document w) (tiles w) (currentTab w) (bodyOverflow w)
    (rootOverflow w) (fragment w) (storage w) v (touch w) (reports w)
    (preloaded w).

Definition set_touch (v : Z * Z * bool) (w : World) : World :=
  mkWorld (state w) (document w) (tiles w) (currentTab w) (bodyOverflow w)
    (rootOverflow w) (fragment w) (storage w) (listeners w) v (reports w)
    (preloaded w).

Definition set_reports (v : list Report) (w : World) : World :=
  mkWorld (state w) (document w) (tiles w) (currentTab w) (bodyOverflow w)
    (rootOverflow w) (fragment w) (storage w) (listeners w) (touch w) v
    (preloaded w).

Definition set_preloaded (v : list jsstring) (w : World) : World :=
  mkWorld (state w) (document w) (tiles w) (currentTab w) (bodyOverflow w)
    (rootOverflow w) (fragment w) (storage w) (listeners w) (touch w)
    (reports w) v.

Definition set_data (v : option Json) (w : World) : World :=
  set_state (mkState v (comics (state w)) (currentIndex (state w))) w.
Definition set_comics (v : list Entry) (w : World) : World :=
  set_state (mkState (data (state w)) v (currentIndex (state w))) w.
Definition set_currentIndex (v : Z) (w : World) : World :=
  set_state (mkState (data (state w)) (comics (state w)) v) w.

(** ** Computations: a state threaded through, and exceptions *)

Definition M (A : Type) : Type := World -> World * result A.

Definition ret {A} (a : A) : M A := fun w => (w, Ok a).
Definition throw {A} (e : exn) : M A := fun w => (w, Throw e).
Definition bind {A B} (m : M A) (k : A -> M B) : M B :=
  fun w =>
    match m w with
    | (w', Ok a) => k a w'
    | (w', Throw e) => (w', Throw e)
    end.
Definition modify (f : World -> World) : M unit := fun w => (f w, Ok tt).
Definition liftResult {A} (r : result A) : M A := fun w => (w, r).

(** [try { m } catch (e) { h(e) }]. *)
Definition tryCatch (m : M unit) (h : exn -> M unit) : M unit :=
  fun w =>
    match m w with
    | (w', Ok tt) => (w', Ok tt)
    | (w', Throw e) => h e w'
    end.

(** The world a computation leaves behind, whether it returns or throws. *)
Definition exec {A} (m : M A) (w : World) : World := fst (m w).

Notation "x <- m ;; k" := (bind m (fun x => k))
  (at level 20, m at level 99, k at level 200, only parsing).
Notation "m ;; k" := (bind m (fun _ => k))
  (at level 100, k at level 200, right associativity, only parsing).

(** ** Access to the document *)

Definition getElementById (i : string) (w : World) : option Element :=
  document w !! i.

Definition updateElement (i : string) (f : Element -> Element) (w : World)
  : World :=
  set_document (alter f i (document w)) w.

Definition setAttribute (a : string) (v : jsstring) (e : Element) : Element :=
  set_attributes (<[a := v]> (attributes e)) e.
Definition removeAttribute (a : string) (e : Element) : Element :=
  set_attributes (delete a (attributes e)) e.
Definition hasAttribute (a : string) (e : Element) : bool :=
  bool_decide (is_Some (attributes e !! a)).

(** [setText(id, text)]: nothing happens when the element is missing. *)
Definition setText (i : string) (text : jsstring) : M unit :=
  modify (updateElement i (set_textContent text)).

(** [setAttr(id, attr, value)], likewise. *)
Definition setAttr (i : string) (a : string) (v : jsstring) : M unit :=
  modify (updateElement i (setAttribute a v)).

(** [setCurrentTab(tab)] marks every [data-tab] button and shows or hides
    every [data-panel] element according to [tab]; these elements are found
    by attribute, and what they show is determined by the tab recorded. *)
Definition setCurrentTab (tab : jsstring) : M unit :=
  modify (set_currentTab (Some tab)).

(** [openReader] and [closeReader] use the element without a check. *)
Definition openReader : M unit :=
  fun w =>
    match getElementById "reader" w with
    | None => (w, Throw TypeError)
    | Some _ =>
        (set_bodyOverflow (lit "hidden")
           (updateElement "reader" (setAttribute "open" []) w), Ok tt)
    end.

Definition closeReader : M unit :=
  fun w =>
    match getElementById "reader" w with
    | None => (w, Throw TypeError)
    | Some _ =>
        (set_bodyOverflow []
           (updateElement "reader" (removeAttribute "open") w), Ok tt)
    end.

Definition readerIsOpen (w : World) : bool :=
  match getElementById "reader" w with
  | Some r => hasAttribute "open" r
  | None => false
  end.

(** ** Disclaimer gate *)

Definition DISCLAIMER_KEY : string := "eowebcomic_disclaimer_accepted_v1".

Definition openDisclaimer : M unit :=
  fun w =>
    match getElementById "disclaimer" w with
    | None => (w, Ok tt)
    | Some _ =>
        (set_rootOverflow (lit "hidden")
           (updateElement "disclaimer" (setAttribute "open" []) w), Ok tt)
    end.

Definition closeDisclaimer : M unit :=
  fun w =>
    match getElementById "disclaimer" w with
    | None => (w, Ok tt)
    | Some _ =>
        (set_rootOverflow []
           (updateElement "disclaimer" (removeAttribute "open") w), Ok tt)
    end.

Definition disclaimerIsOpen (w : World) : bool :=
  match getElementById "disclaimer" w with
  | Some d => hasAttribute "open" d
  | None => false
  end.

(** A storage that throws is read as not accepted. *)
Definition hasAcceptedDisclaimer (w : World) : bool :=
  match storage w with
  | Some items => bool_decide (items !! DISCLAIMER_KEY = Some (lit "true"))
  | None => false
  end.

(** The flag is stored unless the storage throws; the disclaimer is closed
    either way. *)
Definition acceptDisclaimer : M unit :=
  modify (fun w =>
            match storage w with
            | Some items =>
                set_storage (Some (<[DISCLAIMER_KEY := lit "true"]> items)) w
            | None => w
            end) ;;
  closeDisclaimer.

(** ** Buttons *)

(** [setBtn(id, enabled, onClick)]. *)
Definition setBtn (i : string) (enabled : bool) (onClick : Handler) : M unit :=
  modify (updateElement i
            (fun el =>
               if enabled
               then set_onclick (Some onClick) (removeAttribute "aria-disabled" el)
               else set_onclick None (setAttribute "aria-disabled" (lit "true") el))).

(** ** Hash sync *)

(** [setHash(idOrKey)]: the fragment of the document's URL becomes [c=]
    followed by the encoded id; [replaceState] adds no history entry. *)
Definition setHash (idOrKey : JsVal) : M unit :=
  enc <- liftResult (Uri.encodeURIComponent (toStr idOrKey)) ;;
  modify (set_fragment (Some (Uri.fragmentOf (lit "c=" ++ enc)))).

(** [window.location.hash]: empty when there is no fragment or an empty
    one, else the fragment after a [#]. *)
Definition locationHash (w : World) : jsstring :=
  match fragment w with
  | None | Some [] => []
  | Some f => 35 :: f
  end.

(** [getHashComic()]: the value of [c] in the hash read as a query string,
    or [None] for null. *)
Definition getHashComic (w : World) : option jsstring :=
  let h := Uri.dropLeading 35 (locationHash w) in
  Uri.queryGet (lit "c") (Uri.parseQuery h).

(** ** Display strings *)

(** White space and line terminators, as [trim] removes them. *)
Definition isSpace (c : Z) : bool :=
  bool_decide (c ∈ [9; 10; 11; 12; 13; 32; 160; 5760; 8232; 8233; 8239;
                    8287; 12288; 65279])
  || ((8192 <=? c) && (c <=? 8202)).

Fixpoint trimStart (s : jsstring) : jsstring :=
  match s with
  | c :: rest => if isSpace c then trimStart rest else s
  | [] => []
  end.

Definition trim (s : jsstring) : jsstring :=
  reverse (trimStart (reverse (trimStart s))).

(** A field as a value: a missing one is [undefined]. *)
Definition fieldVal (o : option jsstring) : JsVal :=
  match o with
  | Some s => VString s
  | None => VUndefined
  end.

(** [o || d] for a string field: the field when present and not empty. *)
Definition orElse (o : option jsstring) (d : jsstring) : jsstring :=
  match o with
  | Some (c :: s) => c :: s
  | _ => d
  end.

(** [displayTitle(c)]: the title unless it is missing or blank. *)
Definition displayTitle (c : Entry) : jsstring :=
  match title c with
  | Some t =>
      match trim t with
      | _ :: _ => t
      | [] => lit "Page #" ++ trim (toStrOrEmpty (id c))
      end
  | None => lit "Page #" ++ trim (toStrOrEmpty (id c))
  end.

(** [bits.join(sep)]. *)
Fixpoint joinWith (sep : jsstring) (bits : list jsstring) : jsstring :=
  match bits with
  | [] => []
  | [b] => b
  | b :: rest => b ++ sep ++ joinWith sep rest
  end.

(** [displayMeta(c)]: the date when there is one and the id when there is
    one, joined by a bullet. *)
Definition displayMeta (c : Entry) : jsstring :=
  let bits1 := match date c with
               | Some (d :: ds) => [d :: ds]
               | _ => []
               end in
  let bits2 := match id c with
               | VUndefined | VNull => []
               | v => [35 :: toStr v]
               end in
  joinWith [32; 8226; 32] (bits1 ++ bits2).

(** ** Grid *)

Global Instance result_ret : MRet result := fun A a => Ok a.
Global Instance result_bind : MBind result := fun A B k r =>
  match r with
  | Ok a => k a
  | Throw e => Throw e
  end.

Definition dq : jsstring := [34].
Definition indent (n : nat) : jsstring := 10 :: replicate n 32.

(** The markup of one tile: the template literal of [renderGrid], piece by
    piece. *)
Definition tileMarkup (c : Entry) : result jsstring :=
  let title := displayTitle c in
  let meta := displayMeta c in
  eId ← escapeHtml (id c);
  eLabel ← escapeHtml (VString title);
  eSrc ← escapeHtml (fieldVal (image c));
  eAlt ← escapeHtml (VString (orElse (alt c) title));
  eTitle ← escapeHtml (VString title);
  eMeta ← match meta with
          | [] => Ok []
          | _ => m ← escapeHtml (VString meta);
                 Ok (lit "<div class=" ++ dq ++ lit "muted small" ++ dq
                       ++ lit ">" ++ m ++ lit "</div>")
          end;
  Ok (indent 6 ++ lit "<button class=" ++ dq ++ lit "tile" ++ dq
        ++ lit " type=" ++ dq ++ lit "button" ++ dq
        ++ lit " data-open=" ++ dq ++ eId ++ dq
        ++ lit " aria-label=" ++ dq ++ lit "Open " ++ eLabel ++ dq ++ lit ">"
      ++ indent 8 ++ lit "<img class=" ++ dq ++ lit "thumb" ++ dq
        ++ lit " src=" ++ dq ++ eSrc ++ dq
        ++ lit " alt=" ++ dq ++ eAlt ++ dq
        ++ lit " loading=" ++ dq ++ lit "lazy" ++ dq ++ lit ">"
      ++ indent 8 ++ lit "<h3>" ++ eTitle ++ lit "</h3>"
      ++ indent 8 ++ eMeta
      ++ indent 6 ++ lit "</button>"
      ++ indent 4).

(** [comics.map(tile)]: the first exception ends the traversal. *)
Fixpoint tilesMarkup (cs : list Entry) : result (list jsstring) :=
  match cs with
  | [] => Ok []
  | c :: rest =>
      m ← tileMarkup c;
      ms ← tilesMarkup rest;
      Ok (m :: ms)
  end.

(** The [data-open] attribute a tile's button carries once the markup is
    parsed: the text that was escaped. *)
Definition dataOpen (c : Entry) : jsstring :=
  match (if truthy (id c) then id c else VString []) with
  | VString s => s
  | _ => []
  end.

(** [renderGrid(comics)]: the markup of all tiles becomes the content of
    the grid, and each button it holds gets a click listener that opens the
    entry named by its [data-open]. *)
Definition renderGrid (cs : list Entry) : M unit :=
  fun w =>
    match getElementById "archiveGrid" w with
    | None => (w, Ok tt)
    | Some _ =>
        match tilesMarkup cs with
        | Throw e => (w, Throw e)
        | Ok ms =>
            (set_tiles (dataOpen <$> cs)
               (updateElement "archiveGrid" (set_innerHTML (concat ms)) w),
             Ok tt)
        end
    end.

(** ** Latest view and reader *)

(** [renderLatest(comic)]. *)
Definition renderLatest (comic : Entry) : M unit :=
  setText "latestTitle" (displayTitle comic) ;;
  setText "latestDate" (orElse (date comic) []) ;;
  setAttr "latestImg" "src" (toStr (fieldVal (image comic))) ;;
  setAttr "latestImg" "alt" (orElse (alt comic) (displayTitle comic)) ;;
  modify (updateElement "latestOpen" (set_onclick (Some (OnOpen comic)))).

(** [STATE.comics[i]]: undefined outside the array. *)
Definition comicAt (w : World) (i : Z) : option Entry :=
  if i <? 0 then None else comics (state w) !! Z.to_nat i.

(** The preloading hint: an image is requested for each entry given. *)
Definition preload (cs : list Entry) : M unit :=
  modify (fun w =>
            set_preloaded
              (preloaded w ++ ((fun c => toStr (fieldVal (image c))) <$> cs)) w).

(** [renderReader()]. Reading the title of the entry at the cursor throws
    when the cursor is outside the collection. *)
Definition renderReader : M unit :=
  fun w =>
    match comicAt w (currentIndex (state w)) with
    | None => (w, Throw TypeError)
    | Some comic =>
        let title := displayTitle comic in
        let prev := comicAt w (currentIndex (state w) - 1) in
        let next := comicAt w (currentIndex (state w) + 1) in
        let latest := comicAt w (Z.of_nat (length (comics (state w))) - 1) in
        (setText "readerTitle" title ;;
         setText "readerMeta" (displayMeta comic) ;;
         setAttr "readerImg" "src" (toStr (fieldVal (image comic))) ;;
         setAttr "readerImg" "alt" (orElse (alt comic) title) ;;
         setBtn "btnPrev" (bool_decide (is_Some prev)) (OnPrev prev) ;;
         setBtn "btnNext" (bool_decide (is_Some next)) (OnNext next) ;;
         setBtn "btnLatest" (bool_decide (is_Some latest)) (OnLatest latest) ;;
         preload (omap (fun o => o) [prev; next])) w
    end.

(** [STATE.comics.findIndex(c => String(c.id) === String(id))]. *)
Definition findIndex (v : JsVal) (cs : list Entry) : option nat :=
  fst <$> list_find (fun c => toStr (id c) = toStr v) cs.

(** [openComicById(id)]. *)
Definition openComicById (v : JsVal) : M unit :=
  fun w =>
    match findIndex v (comics (state w)) with
    | None => (w, Ok tt)
    | Some idx =>
        (modify (set_currentIndex (Z.of_nat idx)) ;;
         renderReader ;;
         setHash v ;;
         openReader) w
    end.

(** Reading [.id] of what a closure captured: a TypeError on undefined. *)
Definition idOfCaptured (o : option Entry) : M JsVal :=
  match o with
  | Some c => ret (id c)
  | None => throw TypeError
  end.

(** Running a click handler. *)
Definition runHandler (h : Handler) : M unit :=
  match h with
  | OnPrev prev =>
      modify (fun w => set_currentIndex (currentIndex (state w) - 1) w) ;;
      renderReader ;;
      v <- idOfCaptured prev ;;
      setHash v
  | OnNext next =>
      modify (fun w => set_currentIndex (currentIndex (state w) + 1) w) ;;
      renderReader ;;
      v <- idOfCaptured next ;;
      setHash v
  | OnLatest latest =>
      modify (fun w =>
                set_currentIndex (Z.of_nat (length (comics (state w))) - 1) w) ;;
      renderReader ;;
      v <- idOfCaptured latest ;;
      setHash v
  | OnOpen comic => openComicById (id comic)
  end.

(** ** Data loader *)

(** What [fetch] and the reading of the body come to: no response at all,
    or a response with its [ok] flag and, when the body is JSON, what it
    parses to. *)
Inductive FetchOutcome : Type :=
| NoResponse
| Response (ok : bool) (body : option Json).

(** [loadData()]: [fetch] rejects when there is no response, the script
    throws its own error when the response is not ok, and [res.json()]
    rejects when the body is not JSON. *)
Definition loadData (f : FetchOutcome) : result Json :=
  match f with
  | NoResponse => Throw TypeError
  | Response false _ => Throw CouldNotLoad
  | Response true None => Throw SyntaxError
  | Response true (Some d) => Ok d
  end.

(** ** Events *)

Inductive Event : Type :=
| Click (target : string)       (* a click on the element with that id *)
| ClickTile (n : nat)           (* a click on the n-th button of the grid *)
| ClickTab (tab : jsstring)     (* a click on a button with that [data-tab] *)
| KeyDown (key : jsstring)
| TouchStart (x y : Z)
| TouchEnd (x y : Z).

(** An exception that leaves a listener is reported; the world stays as the
    listener left it. *)
Definition reported (m : M unit) (w : World) : World :=
  match m w with
  | (w', Ok _) => w'
  | (w', Throw e) => set_reports (reports w' ++ [Uncaught e]) w'
  end.

(** [openComicById(STATE.comics[i].id)]. *)
Definition openAt (i : Z) : M unit :=
  fun w =>
    match comicAt w i with
    | Some c => openComicById (id c) w
    | None => (w, Throw TypeError)
    end.

(** What a click listener does for a click on [target]. The listener on
    the overlay of the disclaimer does nothing; the one on the reader acts
    on a click on the reader itself only. *)
Definition clickListener (l : Listener) (target : string) : M unit :=
  match l with
  | LDiscAccept =>
      if bool_decide (target = "discAccept") then acceptDisclaimer else ret tt
  | LOpenDisc =>
      if bool_decide (target = "openDisclaimer") then openDisclaimer else ret tt
  | LDiscOverlay => ret tt
  | LBtnStart =>
      if bool_decide (target = "btnStart") then openAt 0 else ret tt
  | LBtnOpenLatest =>
      if bool_decide (target = "btnOpenLatest")
      then fun w => openAt (Z.of_nat (length (comics (state w))) - 1) w
      else ret tt
  | LBtnClose =>
      if bool_decide (target = "btnClose") then closeReader else ret tt
  | LReaderBg =>
      if bool_decide (target = "reader") then closeReader else ret tt
  | _ => ret tt
  end.

(** A click on an element: its [onclick], then the click listeners. *)
Definition fireClick (target : string) (w : World) : World :=
  let w1 :=
    match getElementById target w with
    | Some el =>
        match onclick el with
        | Some h => reported (runHandler h) w
        | None => w
        end
    | None => w
    end in
  foldl (fun w' l => reported (clickListener l target) w') w1 (listeners w1).

(** [document.getElementById(i)?.click()]. *)
Definition clickById (i : string) : M unit := modify (fireClick i).

(** The keydown listener. *)
Definition onKeydown (key : jsstring) : M unit :=
  fun w =>
    if bool_decide (key = lit "Escape") && disclaimerIsOpen w then (w, Ok tt)
    else
      ((if bool_decide (key = lit "Escape") then closeReader else ret tt) ;;
       fun w' =>
         if negb (readerIsOpen w') then (w', Ok tt)
         else
           ((if bool_decide (key = lit "ArrowLeft")
             then clickById "btnPrev" else ret tt) ;;
            (if bool_decide (key = lit "ArrowRight")
             then clickById "btnNext" else ret tt)) w') w.

(** The touch listeners; coordinates are in whole pixels. *)
Definition onTouchStart (x y : Z) : M unit :=
  fun w =>
    if negb (readerIsOpen w) then (w, Ok tt)
    else (set_touch (x, y, true) w, Ok tt).

Definition onTouchEnd (x y : Z) : M unit :=
  fun w =>
    let '(x0, y0, active) := touch w in
    if negb active then (w, Ok tt)
    else
      let dx := x - x0 in
      let dy := y - y0 in
      (modify (set_touch (x0, y0, false)) ;;
       if (Z.abs dx <? 60) || (Z.abs dx <? Z.abs dy) then ret tt
       else
         (if dx <? 0 then clickById "btnNext" else ret tt) ;;
         (if 0 <? dx then clickById "btnPrev" else ret tt)) w.

Definition otherListener (l : Listener) (ev : Event) : M unit :=
  match l, ev with
  | LTab, ClickTab tab => setCurrentTab tab
  | LKeydown, KeyDown key => onKeydown key
  | LTouchStart, TouchStart x y => onTouchStart x y
  | LTouchEnd, TouchEnd x y => onTouchEnd x y
  | _, _ => ret tt
  end.

(** One event, delivered to everything that listens for it. *)
Definition dispatch (ev : Event) (w : World) : World :=
  match ev with
  | Click target => fireClick target w
  | ClickTile n =>
      match tiles w !! n with
      | Some open => reported (openComicById (VString open)) w
      | None => w
      end
  | _ => foldl (fun w' l => reported (otherListener l ev) w') w (listeners w)
  end.

(** ** Initialisation *)

Definition addListener (l : Listener) : M unit :=
  modify (fun w => set_listeners (listeners w ++ [l]) w).

(** A listener on an element is added when the page has the element. *)
Definition addListenerOn (i : string) (l : Listener) : M unit :=
  fun w =>
    match getElementById i w with
    | Some _ => addListener l w
    | None => (w, Ok tt)
    end.

(** The same function added twice to the same element is kept once. *)
Definition addListenerOnceOn (i : string) (l : Listener) : M unit :=
  fun w =>
    if bool_decide (l ∈ listeners w) then (w, Ok tt) else addListenerOn i l w.

(** The block of disclaimer listeners, which [init] runs twice when it
    opens an entry from the fragment. *)
Definition disclaimerInteractions : M unit :=
  addListenerOnceOn "discAccept" LDiscAccept ;;
  addListenerOn "openDisclaimer" LOpenDisc ;;
  addListenerOn "disclaimer" LDiscOverlay.

(** The last step of initialisation: open the entry the fragment names,
    when it names one by a non-empty id. *)
Definition openFromHash : M unit :=
  fun w =>
    match getHashComic w with
    | Some (c :: s) =>
        (setCurrentTab (lit "archive") ;;
         disclaimerInteractions ;;
         openComicById (VString (c :: s))) w
    | _ => (w, Ok tt)
    end.

Definition pageErrorText : jsstring :=
  lit "Could not load site data. Check comics.json and image paths.".

(** [if (!hasAcceptedDisclaimer()) openDisclaimer()]. *)
Definition gateUnlessAccepted : M unit :=
  fun w => if hasAcceptedDisclaimer w then (w, Ok tt) else openDisclaimer w.

(** The touch listeners go on the parent of the image, or on the reader
    when there is no image: on some element when either is there. *)
Definition addSwipeListeners : M unit :=
  fun w =>
    match getElementById "readerImg" w, getElementById "reader" w with
    | None, None => (w, Ok tt)
    | _, _ => (addListener LTouchStart ;; addListener LTouchEnd) w
    end.

(** What initialisation does once the collection is sorted: the empty
    note for an empty collection, else the views, the listeners and the
    entry of the fragment. *)
Definition renderAndWire : M unit :=
  fun w =>
    match last (comics (state w)) with
    | None =>
        (updateElement "emptyNote" (set_styleDisplay (lit "block")) w, Ok tt)
    | Some latest =>
        (renderLatest latest ;;
         renderGrid (comics (state w)) ;;
         addListener LTab ;;
         setCurrentTab (lit "archive") ;;
         disclaimerInteractions ;;
         addListenerOn "btnStart" LBtnStart ;;
         addListenerOn "btnOpenLatest" LBtnOpenLatest ;;
         addListenerOn "btnClose" LBtnClose ;;
         addListenerOn "reader" LReaderBg ;;
         addListener LKeydown ;;
         addSwipeListeners ;;
         openFromHash) w
    end.

Section Init.

Variable localeCompare : jsstring -> jsstring -> Z.

Definition loadAndRender (f : FetchOutcome) : M unit :=
  d <- liftResult (loadData f) ;;
  modify (set_data (Some d)) ;;
  m <- match d with
       | JNull => throw TypeError
       | JManifest m => ret m
       end ;;
  modify (set_comics (sortComics localeCompare (default [] (siteComics m)))) ;;
  setText "siteTitle" (orElse (siteTitle m) (lit "Webcomic")) ;;
  setText "siteTitleFooter" (orElse (siteTitle m) (lit "Webcomic")) ;;
  setText "siteTagline"
    (match siteAuthor m with
     | Some (c :: s) => lit "by " ++ c :: s
     | _ => []
     end) ;;
  renderAndWire.

(** The body of the [try] block of [init]. *)
Definition initBody (f : FetchOutcome) : M unit :=
  gateUnlessAccepted ;;
  loadAndRender f.

(** [init()], given what the fetch comes to. *)
Definition init (f : FetchOutcome) : M unit :=
  tryCatch (initBody f)
    (fun e =>
       modify (fun w => set_reports (reports w ++ [Logged e]) w) ;;
       setText "pageError" pageErrorText).

End Init.

(** The world before the script runs: the page as written, nothing
    listening yet. *)
Definition initialWorld (page : gmap string Element)
    (frag : option jsstring) (store : option (gmap string jsstring)) : World :=
  mkWorld (mkState None [] 0) page [] None [] [] frag store [] (0, 0, false)
    [] [].

(** ** Vocabulary of the statements below *)


(** The five entities escaping produces. *)
Definition entities : list jsstring :=
  [lit "&amp;"; lit "&lt;"; lit "&gt;"; lit "&quot;"; lit "&#39;"].



(** A button as [setBtn] leaves it when disabled: marked [aria-disabled]
    and without a click handler; and when enabled: not marked, with one. *)
Definition btnDisabled (i : string) (w : World) : bool :=
  match getElementById i w with
  | Some el =>
      bool_decide (attributes el !! "aria-disabled" = Some (lit "true"))
      && match onclick el with None => true | Some _ => false end
  | None => false
  end.

Definition btnEnabled (i : string) (w : World) : bool :=
  match getElementById i w with
  | Some el =>
      bool_decide (attributes el !! "aria-disabled" = None)
      && match onclick el with None => false | Some _ => true end
  | None => false
  end.

(** A computation is stable for a relation between worlds when every world
    is related to the one the computation leaves, whether it returns or
    throws. *)
Definition stable (R : World -> World -> Prop) {A} (m : M A) : Prop :=
  forall w, R w (exec m w).

(** Same collection, same cursor and same click handlers. *)
Definition sameNav (w w' : World) : Prop :=
  comics (state w') = comics (state w)
  /\ currentIndex (state w') = currentIndex (state w)
  /\ forall i, onclick <$> getElementById i w' = onclick <$> getElementById i w.

(** Same storage. *)
Definition sameStorage (w w' : World) : Prop := storage w' = storage w.

(** What a click handler needs of the world it is installed in: each sits
    on the element the script assigns it to, previous with an entry before
    the cursor, next with an entry after it, latest in a collection that
    has entries. *)
Definition handlerOk (w : World) (i : string) (h : Handler) : Prop :=
  let n := Z.of_nat (length (comics (state w))) in
  match h with
  | OnPrev _ => i = "btnPrev" /\ 1 <= currentIndex (state w) < n
  | OnNext _ => i = "btnNext" /\ 0 <= currentIndex (state w) /\ currentIndex (state w) + 1 < n
  | OnLatest _ => i = "btnLatest" /\ 0 < n
  | OnOpen _ => i = "latestOpen"
  end.

Definition handlersOk (w : World) : Prop :=
  forall i el h,
    getElementById i w = Some el -> onclick el = Some h -> handlerOk w i h.

Definition cursorInRange (w : World) : Prop :=
  comics (state w) <> [] ->
  0 <= currentIndex (state w) < Z.of_nat (length (comics (state w))).

(** The invariant of navigation. *)
Definition navInv (w : World) : Prop := handlersOk w /\ cursorInRange w.

(** A page as written: no element has a click handler yet. *)
Definition noHandlers (page : gmap string Element) : Prop :=
  forall i el, page !! i = Some el -> onclick el = None.

(** Every handler sits on the element the script assigns it to. *)
Definition placedOk (w : World) : Prop :=
  forall i el h,
    getElementById i w = Some el -> onclick el = Some h ->
    match h with
    | OnPrev _ => i = "btnPrev"
    | OnNext _ => i = "btnNext"
    | OnLatest _ => i = "btnLatest"
    | OnOpen _ => i = "latestOpen"
    end.

(** A world in which navigation has not begun: the cursor is at 0 and no
    element has a click handler. *)
Definition pristine (w : World) : Prop :=
  currentIndex (state w) = 0
  /\ forall i el, getElementById i w = Some el -> onclick el = None.

(** A computation keeps a property of worlds when the world it leaves,
    returning or throwing, has the property whenever the one it starts in
    has. *)
Definition keeps (P : World -> Prop) {A} (m : M A) : Prop :=
  forall w, P w -> P (exec m w).

(** The gate is kept: the storage is the same, and a disclaimer that was
    open still is. *)
Definition gateKept (w w' : World) : Prop :=
  storage w' = storage w
  /\ (disclaimerIsOpen w = true -> disclaimerIsOpen w' = true).

(** A Unicode scalar value: a code point that is not a surrogate. *)
Definition isScalarValue (c : Z) : Prop :=
  0 <= c < 0x110000 /\ ~ (0xD800 <= c <= 0xDFFF).

(** A string is well formed when its code units are in range and none is a
    surrogate on its own. *)
Definition wellFormed (s : jsstring) : Prop :=
  Forall unit_ok s /\ forall u, Uri.Lone u ∉ Uri.codePoints s.

(** The sort key of an entry: its parsed number when that is finite. *)
Definition finiteKey (e : Entry) : option Z :=
  match idToNumber (id e) with
  | Fin x => Some x
  | _ => None
  end.

(** Not after, for a comparator. *)
Definition cmpLe {A} (cmp : A -> A -> number) (x y : A) : Prop :=
  sgn (cmp x y) <= 0.

(** The strict order of collation keys. *)
Definition klt (k1 k2 : Z * Z) : Prop :=
  fst k1 < fst k2 \/ (fst k1 = fst k2 /\ snd k1 < snd k2).

(** An entry that has an id and nothing else. *)
Definition entryOfId (s : string) : Entry :=
  mkEntry (VString (lit s)) None None None None.

(** A digit run too long for a finite Number: 1 followed by 309 zeros. *)
Definition overflowingId : jsstring := 49 :: replicate 309 48.

(** What encoding a scalar value produces. *)
Definition encodeScalar (c : Z) : jsstring :=
  if Uri.unreserved c then [c] else flat_map Uri.percent (Uri.utf8 c).

(** The code units an encoded component is made of. *)
Definition inertUnit (u : Z) : Prop := Uri.unreserved u = true \/ u = 37.

(** Printable ASCII outside the fragment percent-encode set. *)
Definition plainUnit (u : Z) : Prop :=
  0x21 <= u <= 0x7E /\ u <> 0x22 /\ u <> 0x3C /\ u <> 0x3E /\ u <> 0x60.

(** ** A sample page and manifest *)

Definition blankElement : Element := mkElement [] ∅ None [] [].

(** A page with every element the script looks up. *)
Definition samplePage : gmap string Element :=
  list_to_map
    ((fun i => (i, blankElement)) <$>
       ["siteTitle"; "siteTitleFooter"; "siteTagline"; "emptyNote";
        "latestTitle"; "latestDate"; "latestImg"; "latestOpen";
        "archiveGrid"; "reader"; "readerTitle"; "readerMeta"; "readerImg";
        "btnPrev"; "btnNext"; "btnLatest"; "btnStart"; "btnOpenLatest";
        "btnClose"; "disclaimer"; "discAccept"; "openDisclaimer";
        "pageError"]).

Definition entryB : Entry :=
  mkEntry (VString (lit "002")) (Some (lit "B")) None (Some (lit "b.png")) None.
Definition entryA : Entry :=
  mkEntry (VString (lit "001")) (Some (lit "A")) None (Some (lit "a.png")) None.

Definition sampleManifest : Manifest :=
  mkManifest None None (Some [entryB; entryA]).

(** The sample page once the script has run on the sample manifest, with
    no fragment and an empty storage. *)
Definition sampleWorld : World :=
  exec (init Collation.collate (Response true (Some (JManifest sampleManifest))))
    (initialWorld samplePage None (Some ∅)).

(** ** Vocabulary of the further properties *)

(** The code units escaping replaces. *)
Definition specialUnit (c : Z) : Prop := c ∈ [38; 60; 62; 34; 39].

(** The element [x] and a view [view] of the rest of the world are what
    they were. *)
Definition keptAt {V : Type} (x : string) (view : World -> V) (w w' : World)
  : Prop :=
  getElementById x w' = getElementById x w /\ view w' = view w.

(** What the disclaimer gate consists of besides its element. *)
Definition gateView (w : World) : option (gmap string jsstring) * jsstring :=
  (storage w, rootOverflow w).


(** The ids of the elements the reader writes to. *)
Definition readerIds : list string :=
  ["readerTitle"; "readerMeta"; "readerImg"; "btnPrev"; "btnNext"; "btnLatest";
   "reader"].


(** The ids of the elements of the latest view. *)
Definition latestIds : list string :=
  ["latestTitle"; "latestDate"; "latestImg"; "latestOpen"].

(** A page on which the script reacts to nothing: no listener was added,
    the grid has no tile, and no element has a click handler. *)
Definition inert (w : World) : Prop :=
  listeners w = [] /\ tiles w = []
  /\ forall i el, getElementById i w = Some el -> onclick el = None.

(** The ids of the elements that have a click listener of their own. *)
Definition listenedIds : list string :=
  ["discAccept"; "openDisclaimer"; "btnStart"; "btnOpenLatest"; "btnClose";
   "reader"].

(** The cursor after a handler of the reader ran on a world. *)
Definition movedTo (h : Handler) (w : World) : Z :=
  match h with
  | OnPrev _ => currentIndex (state w) - 1
  | OnNext _ => currentIndex (state w) + 1
  | OnLatest _ => Z.of_nat (length (comics (state w))) - 1
  | OnOpen _ => currentIndex (state w)
  end.

(** What the reader consists of besides its element: the fragment, the
    scroll lock of the body and the cursor. *)
Definition readerView (w : World) : option jsstring * jsstring * Z :=
  (fragment w, bodyOverflow w, currentIndex (state w)).

(** The fragment asks for no entry: it has no [c], or an empty one. *)
Definition noEntryAsked (w : World) : Prop :=
  getHashComic w = None \/ getHashComic w = Some [].

(** The reader is left alone when no entry is asked for. *)
Definition readerKeptUnasked (w w' : World) : Prop :=
  noEntryAsked w -> keptAt "reader" readerView w w'.

(** A text the parser of the grid's markup gives back as it was escaped:
    it has no NUL, which the parser replaces, and no carriage return, which
    it turns into a line feed. *)
Definition parsedVerbatim (s : jsstring) : Prop :=
  Forall (fun u => u <> 0 /\ u <> 13) s.

(** An id the grid can render: a string, or a falsy value. *)
Definition renderableId (v : JsVal) : Prop :=
  truthy v = false \/ exists s, v = VString s.

(** The elements initialisation adds listeners to, and the grid. *)
Definition wiringTargets : list string :=
  ["archiveGrid"; "discAccept"; "openDisclaimer"; "disclaimer"; "btnStart";
   "btnOpenLatest"; "btnClose"; "reader"].

Definition targetsPresent (w : World) : Prop :=
  forall i, i ∈ wiringTargets -> is_Some (getElementById i w).

(** What the wiring is followed through: the listeners, and with them the
    tiles, the fragment, the script state and the reports. *)
Definition tracked (w : World)
  : list Listener * (list jsstring * option jsstring * State * list Report) :=
  (listeners w, (tiles w, fragment w, state w, reports w)).

(** A step of the wiring returns, and takes what is followed from [a] to
    [b], on a page that has the elements. *)
Definition wires
    (a b : list Listener * (list jsstring * option jsstring * State * list Report))
    (m : M unit) : Prop :=
  forall w, targetsPresent w -> tracked w = a ->
    m w = (exec m w, Ok tt)
    /\ targetsPresent (exec m w)
    /\ tracked (exec m w) = b.

(** The listeners of a page that is fully wired, in the order they are
    added. *)
Definition allListeners : list Listener :=
  [LTab; LDiscAccept; LOpenDisc; LDiscOverlay; LBtnStart; LBtnOpenLatest;
   LBtnClose; LReaderBg; LKeydown; LTouchStart; LTouchEnd].
(** * Properties *)

(** ** Worked values *)

Example idToNumber_001 : idToNumber (VString (lit "001")) = Fin 1.
Proof. reflexivity. Qed.

Example idToNumber_mixed : idToNumber (VString (lit "ep-12b7")) = Fin 12.
Proof. reflexivity. Qed.

Example idToNumber_num : idToNumber (VNumber 42) = Fin 42.
Proof. reflexivity. Qed.

Example idToNumber_none : idToNumber (VString (lit "cover")) = NaN.
Proof. reflexivity. Qed.

Example toNumber_2p53p1 : toNumber (2 ^ 53 + 1) = Fin (2 ^ 53).
Proof. vm_compute. reflexivity. Qed.

Example toNumber_2p53p3 : toNumber (2 ^ 53 + 3) = Fin (2 ^ 53 + 4).
Proof. vm_compute. reflexivity. Qed.

Example toNumber_big : toNumber (10 ^ 309) = PInf.
Proof. vm_compute. reflexivity. Qed.

Example toNumber_max : toNumber (10 ^ 308) <> PInf.
Proof. vm_compute. discriminate. Qed.

Example encode_plus_space_amp :
  Uri.encodeURIComponent (lit "a+b c&d") = Ok (lit "a%2Bb%20c%26d").
Proof. reflexivity. Qed.

Example query_get_c :
  Uri.queryGet (lit "c") (Uri.parseQuery (lit "c=a%2Bb%20c%26d"))
  = Some (lit "a+b c&d").
Proof. vm_compute. reflexivity. Qed.


Example toStr_numbers :
  toStr (VNumber 0) = lit "0" /\ toStr (VNumber 42) = lit "42"
  /\ toStr (VNumber (-5)) = lit "-5".
Proof. by repeat split. Qed.

Example displayTitle_blank :
  displayTitle (mkEntry (VString (lit " 007 ")) (Some (lit "  ")) None None None)
  = lit "Page #007".
Proof. reflexivity. Qed.

Example displayMeta_both :
  displayMeta (mkEntry (VNumber 7) None (Some (lit "2024-01-02")) None None)
  = lit "2024-01-02" ++ [32; 8226; 32] ++ lit "#7".
Proof. reflexivity. Qed.
(** ** Facts about Numbers *)

Lemma round53_pos n : 0 < n -> 0 < round53 n.
Proof.
  intros Hn. unfold round53.
  destruct (Z.log2 n + 1 <=? 53) eqn:Hb; [lia|].
  apply Z.leb_gt in Hb.
  set (sh := Z.log2 n + 1 - 53) in *.
  assert (Hsh : 0 < sh) by lia.
  assert (Hq : 2 ^ 52 <= Z.shiftr n sh).
  { rewrite Z.shiftr_div_pow2 by lia.
    apply Z.div_le_lower_bound; [apply Z.pow_pos_nonneg; lia|].
    rewrite <- Z.pow_add_r by lia.
    replace (sh + 52) with (Z.log2 n) by lia.
    apply Z.log2_spec; lia. }
  rewrite Z.shiftl_mul_pow2 by lia.
  assert (0 < 2 ^ sh) by (apply Z.pow_pos_nonneg; lia).
  assert (0 < 2 ^ 52) by (apply Z.pow_pos_nonneg; lia).
  destruct (_ || _); nia.
Qed.

Lemma round53_0 : round53 0 = 0.
Proof. reflexivity. Qed.

Lemma toNumber_isNeg z : isNeg (toNumber z) = (z <? 0).
Proof.
  unfold toNumber.
  destruct (Z.ltb_spec z 0) as [Hz|Hz].
  - pose proof (round53_pos (Z.abs z) ltac:(lia)).
    destruct (2 ^ 1024 <=? _); simpl; [done|].
    apply Z.ltb_lt. rewrite Z.sgn_neg by lia. lia.
  - destruct (Z.eq_dec z 0) as [->|Hne].
    + reflexivity.
    + pose proof (round53_pos (Z.abs z) ltac:(lia)).
      destruct (2 ^ 1024 <=? _); simpl; [done|].
      apply Z.ltb_ge. rewrite Z.sgn_pos by lia. lia.
Qed.

Lemma toNumber_isPos z : isPos (toNumber z) = (0 <? z).
Proof.
  unfold toNumber.
  destruct (Z.ltb_spec 0 z) as [Hz|Hz].
  - pose proof (round53_pos (Z.abs z) ltac:(lia)).
    destruct (Z.ltb_spec z 0); [lia|].
    destruct (2 ^ 1024 <=? _); simpl; [done|].
    apply Z.ltb_lt. rewrite Z.sgn_pos by lia. lia.
  - destruct (Z.eq_dec z 0) as [->|Hne].
    + reflexivity.
    + pose proof (round53_pos (Z.abs z) ltac:(lia)).
      destruct (Z.ltb_spec z 0); [|lia].
      destruct (2 ^ 1024 <=? _); simpl; [done|].
      apply Z.ltb_ge. rewrite Z.sgn_neg by lia. lia.
Qed.

Example collate_02_2 : Collation.collate (lit "02") (lit "2") = 0.
Proof. reflexivity. Qed.

Example collate_a10_a9 : Collation.collate (lit "a10") (lit "a9") = 1.
Proof. reflexivity. Qed.

Example sort_demo :
  (fun e => toStr (id e)) <$>
    sortComics Collation.collate
      [ mkEntry (VString (lit "002")) None None None None;
        mkEntry (VString (lit "cover")) None None None None;
        mkEntry (VString (lit "001")) None None None None ]
  = [lit "001"; lit "002"; lit "cover"].
Proof. reflexivity. Qed.

(** ** The comparator is consistent whenever the collation is *)

Section SorterFacts.

Variable lc : jsstring -> jsstring -> Z.

(** What the language requires of [localeCompare]: a consistent
    comparator, that is a total preorder on strings. *)
Hypothesis lc_antisym : forall s t, Z.sgn (lc t s) = - Z.sgn (lc s t).
Hypothesis lc_trans : forall s t u, lc s t <= 0 -> lc t u <= 0 -> lc s u <= 0.

Let cmp := byIdAscending lc.
Let str (e : Entry) := toStrOrEmpty (id e).

Lemma byIdAscending_sgn a b :
  sgn (cmp a b) =
    match finiteKey a, finiteKey b with
    | Some x, Some y => if x =? y then Z.sgn (lc (str a) (str b)) else Z.sgn (x - y)
    | Some _, None => -1
    | None, Some _ => 1
    | None, None => Z.sgn (lc (str a) (str b))
    end.
Proof.
  unfold cmp, byIdAscending, finiteKey, str.
  destruct (idToNumber (id a)) as [|x| |], (idToNumber (id b)) as [|y| |];
    simpl; try reflexivity.
  destruct (Z.eqb_spec x y) as [->|Hne]; simpl; [reflexivity|].
  assert (Hs : forall z, sgn (toNumber z) = Z.sgn z).
  { intros z. pose proof (toNumber_isNeg z) as Hn.
    pose proof (toNumber_isPos z) as Hp.
    destruct (toNumber z) as [|w| |]; simpl in *.
    - destruct (Z.ltb_spec z 0), (Z.ltb_spec 0 z); try discriminate; lia.
    - destruct (Z.ltb_spec z 0), (Z.ltb_spec 0 z), (Z.ltb_spec w 0),
        (Z.ltb_spec 0 w); try discriminate; lia.
    - destruct (Z.ltb_spec 0 z); try discriminate; lia.
    - destruct (Z.ltb_spec z 0); try discriminate; lia. }
  apply Hs.
Qed.

Lemma byIdAscending_antisym a b : sgn (cmp b a) = - sgn (cmp a b).
Proof.
  rewrite !byIdAscending_sgn.
  destruct (finiteKey a) as [x|], (finiteKey b) as [y|]; try reflexivity.
  - rewrite (Z.eqb_sym y x). destruct (Z.eqb_spec x y); [apply lc_antisym|lia].
  - apply lc_antisym.
Qed.

Lemma lc_sgn_le s t : Z.sgn (lc s t) <= 0 <-> lc s t <= 0.
Proof. lia. Qed.

Lemma byIdAscending_trans a b c :
  sgn (cmp a b) <= 0 -> sgn (cmp b c) <= 0 -> sgn (cmp a c) <= 0.
Proof.
  rewrite !byIdAscending_sgn.
  destruct (finiteKey a) as [x|], (finiteKey b) as [y|], (finiteKey c) as [z|];
    try lia;
    repeat match goal with
           | |- context [?u =? ?v] => destruct (Z.eqb_spec u v)
           end; subst; rewrite ?lc_sgn_le; try lia; apply lc_trans.
Qed.

Lemma byIdAscending_total a b : sgn (cmp a b) <= 0 \/ sgn (cmp b a) <= 0.
Proof. rewrite (byIdAscending_antisym a b). lia. Qed.

Lemma byIdAscending_trans_lt a b c :
  sgn (cmp a b) < 0 -> sgn (cmp b c) < 0 -> sgn (cmp a c) < 0.
Proof.
  intros Hab Hbc.
  destruct (Z.lt_ge_cases (sgn (cmp a c)) 0) as [|Hac]; [done|].
  assert (Hca : sgn (cmp c a) <= 0) by (rewrite byIdAscending_antisym; lia).
  pose proof (byIdAscending_trans c a b Hca ltac:(lia)) as Hcb.
  rewrite byIdAscending_antisym in Hcb. lia.
Qed.

End SorterFacts.

(** ** The collation model is a consistent comparator *)

Module CollationFacts.
Import Collation.

Lemma keyCmp_spec k1 k2 :
  CompareSpec (k1 = k2) (klt k1 k2) (klt k2 k1) (keyCmp k1 k2).
Proof.
  destruct k1 as [a1 b1], k2 as [a2 b2]. unfold keyCmp, klt. simpl.
  destruct (Z.compare_spec a1 a2) as [->| |]; try (constructor; lia).
  destruct (Z.compare_spec b1 b2) as [->| |]; constructor; auto; lia.
Qed.

Lemma klt_irrefl k : ~ klt k k.
Proof. unfold klt. lia. Qed.

Lemma klt_trans k1 k2 k3 : klt k1 k2 -> klt k2 k3 -> klt k1 k3.
Proof. unfold klt. lia. Qed.

Lemma klt_asym k1 k2 : klt k1 k2 -> klt k2 k1 -> False.
Proof. unfold klt. lia. Qed.

Lemma lexCmp_antisym l1 : forall l2, lexCmp l2 l1 = CompOpp (lexCmp l1 l2).
Proof.
  induction l1 as [|k1 r1 IH]; intros [|k2 r2]; simpl; try reflexivity.
  destruct (keyCmp_spec k1 k2) as [->|H|H].
  - destruct (keyCmp_spec k2 k2) as [_|H|H];
      [apply IH | destruct (klt_irrefl _ H) ..].
  - destruct (keyCmp_spec k2 k1) as [->|H'|H']; simpl; try reflexivity.
    + destruct (klt_irrefl _ H).
    + destruct (klt_asym _ _ H H').
  - destruct (keyCmp_spec k2 k1) as [->|H'|H']; simpl; try reflexivity.
    + destruct (klt_irrefl _ H).
    + destruct (klt_asym _ _ H H').
Qed.

Lemma lexCmp_trans l1 : forall l2 l3,
  lexCmp l1 l2 <> Gt -> lexCmp l2 l3 <> Gt -> lexCmp l1 l3 <> Gt.
Proof.
  induction l1 as [|k1 r1 IH]; intros [|k2 r2] [|k3 r3]; simpl;
    try congruence.
  destruct (keyCmp_spec k1 k2) as [->|H12|H12]; try congruence.
  - destruct (keyCmp_spec k2 k3) as [->|H23|H23]; try congruence.
    apply IH.
  - destruct (keyCmp_spec k2 k3) as [->|H23|H23]; try congruence; intros _ _.
    + destruct (keyCmp_spec k1 k3) as [->|H|H]; try congruence.
      * destruct (klt_irrefl _ H12).
      * destruct (klt_asym _ _ H H12).
    + pose proof (klt_trans _ _ _ H12 H23) as H13.
      destruct (keyCmp_spec k1 k3) as [->|H|H]; try congruence.
      * destruct (klt_irrefl _ H13).
      * destruct (klt_asym _ _ H H13).
Qed.

Lemma collate_antisym s t : Z.sgn (collate t s) = - Z.sgn (collate s t).
Proof.
  unfold collate. rewrite (lexCmp_antisym (key <$> tokens s)).
  destruct (lexCmp _ _); reflexivity.
Qed.

Lemma collate_trans s t u :
  collate s t <= 0 -> collate t u <= 0 -> collate s u <= 0.
Proof.
  unfold collate. intros Hst Htu.
  pose proof (lexCmp_trans (key <$> tokens s) (key <$> tokens t)
                (key <$> tokens u)) as H.
  destruct (lexCmp (key <$> tokens s) (key <$> tokens t)),
    (lexCmp (key <$> tokens t) (key <$> tokens u)),
    (lexCmp (key <$> tokens s) (key <$> tokens u)); try lia;
    exfalso; apply H; congruence.
Qed.

End CollationFacts.

(** ** The sort orders its input *)

Lemma isPos_sgn x : isPos x = true <-> 0 < sgn x.
Proof.
  destruct x as [|z| |]; simpl; try (split; [discriminate|lia]); try done.
  rewrite Z.ltb_lt. lia.
Qed.

Lemma isNeg_sgn x : isNeg x = true <-> sgn x < 0.
Proof.
  destruct x as [|z| |]; simpl; try (split; [discriminate|lia]); try done.
  rewrite Z.ltb_lt. lia.
Qed.

Section SortFacts.

Context {A : Type} (cmp : A -> A -> number).

Lemma insertSorted_perm x l : insertSorted cmp x l ≡ₚ x :: l.
Proof.
  induction l as [|y l IH]; simpl; [done|].
  destruct (isPos (cmp x y)); [|done].
  rewrite IH. apply perm_swap.
Qed.

Lemma sort_perm l : sort cmp l ≡ₚ l.
Proof.
  induction l as [|x l IH]; simpl; [done|].
  fold (sort cmp l). rewrite insertSorted_perm. by rewrite IH.
Qed.

Lemma sort_length l : length (sort cmp l) = length l.
Proof. apply Permutation_length, sort_perm. Qed.

Hypothesis cmp_total : forall x y, cmpLe cmp x y \/ cmpLe cmp y x.
Hypothesis cmp_trans : forall x y z, cmpLe cmp x y -> cmpLe cmp y z -> cmpLe cmp x z.

Lemma insertSorted_sorted x l :
  StronglySorted (cmpLe cmp) l -> StronglySorted (cmpLe cmp) (insertSorted cmp x l).
Proof.
  induction l as [|y l IH]; simpl; intros Hs.
  - repeat constructor.
  - apply StronglySorted_inv in Hs as [Hl Hy].
    destruct (isPos (cmp x y)) eqn:Hp.
    + apply isPos_sgn in Hp.
      assert (Hyx : cmpLe cmp y x).
      { destruct (cmp_total x y) as [H|H]; [unfold cmpLe in H; lia|done]. }
      constructor; [by apply IH|].
      rewrite insertSorted_perm. by constructor.
    + assert (Hxy : cmpLe cmp x y).
      { unfold cmpLe. destruct (Z.lt_ge_cases 0 (sgn (cmp x y))) as [H|H]; [|lia].
        apply isPos_sgn in H. congruence. }
      constructor; [by constructor|].
      constructor; [done|].
      eapply Forall_impl; [exact Hy|]. intros z Hz. by eapply cmp_trans.
Qed.

Lemma sort_sorted l : StronglySorted (cmpLe cmp) (sort cmp l).
Proof.
  induction l as [|x l IH]; simpl; [constructor|].
  by apply insertSorted_sorted.
Qed.

Lemma StronglySorted_lookup_le (l : list A) i j a b :
  StronglySorted (cmpLe cmp) l ->
  l !! i = Some a -> l !! j = Some b -> (i < j)%nat -> cmpLe cmp a b.
Proof.
  intros Hs. revert i j. induction Hs as [|x l Hs IH Hx]; intros i j Hi Hj Hij.
  - by rewrite lookup_nil in Hi.
  - destruct j as [|j]; [lia|]. simpl in Hj.
    destruct i as [|i]; simpl in Hi.
    + injection Hi as <-. rewrite Forall_forall in Hx.
      apply Hx. by eapply list_elem_of_lookup_2.
    + apply (IH i j); [done|done|lia].
Qed.

End SortFacts.

(** ** The identifier sorter *)

Lemma takeDigits_idem s : takeDigits (takeDigits s) = takeDigits s.
Proof.
  induction s as [|c s IH]; [done|]. simpl.
  destruct (isDigit c) eqn:Hc; [|done]. simpl. by rewrite Hc, IH.
Qed.

Lemma takeDigits_digits s : Forall (fun c => isDigit c = true) (takeDigits s).
Proof.
  induction s as [|c s IH]; [constructor|]. simpl.
  destruct (isDigit c) eqn:Hc; by constructor.
Qed.

Lemma firstDigitRun_Some s run :
  firstDigitRun s = Some run ->
  takeDigits run = run /\ run <> [] /\ Forall (fun c => isDigit c = true) run.
Proof.
  induction s as [|c s IH]; [discriminate|]. simpl.
  destruct (isDigit c) eqn:Hc; [|done].
  intros [= <-]. repeat split.
  - simpl. by rewrite Hc, takeDigits_idem.
  - done.
  - constructor; [done|apply takeDigits_digits].
Qed.

Lemma digitsValue_nonneg ds :
  Forall (fun c => isDigit c = true) ds -> 0 <= digitsValue ds.
Proof.
  unfold digitsValue. intros Hds.
  assert (H : forall acc, 0 <= acc ->
                0 <= fold_left (fun a d => a * 10 + (d - 48)) ds acc).
  { induction Hds as [|d ds Hd _ IH]; intros acc Hacc; simpl; [done|].
    apply IH. unfold isDigit in Hd. apply andb_true_iff in Hd as [H1 H2].
    apply Z.leb_le in H1, H2. lia. }
  by apply H.
Qed.

Lemma round53_small n : 0 <= n < 2 ^ 53 -> round53 n = n.
Proof.
  intros Hn. unfold round53.
  assert (Hlog : Z.log2 n + 1 <= 53).
  { destruct (Z.eq_dec n 0) as [->|Hne]; [done|].
    assert (Z.log2 n < 53) by (apply Z.log2_lt_pow2; lia). lia. }
  by rewrite (proj2 (Z.leb_le _ _) Hlog).
Qed.

Lemma toNumber_small z : 0 <= z < 2 ^ 53 -> toNumber z = Fin z.
Proof.
  intros Hz. unfold toNumber.
  rewrite Z.abs_eq, round53_small by lia.
  assert (Hlt : 2 ^ 53 < 2 ^ 1024) by (apply Z.pow_lt_mono_r; lia).
  rewrite (proj2 (Z.leb_gt _ _)) by lia.
  f_equal. destruct (Z.eq_dec z 0) as [->|]; [done|].
  rewrite Z.sgn_pos by lia. lia.
Qed.

(** Below 2^53 the parsed number is the value of the first digit run. *)
Lemma idToNumber_exact v run :
  firstDigitRun (toStrOrEmpty v) = Some run ->
  digitsValue run < 2 ^ 53 ->
  idToNumber v = Fin (digitsValue run).
Proof.
  intros Hrun Hsmall. unfold idToNumber, parseInt10. rewrite Hrun.
  destruct (firstDigitRun_Some _ _ Hrun) as (Htake & Hne & Hds).
  rewrite Htake. destruct run as [|d ds]; [done|].
  apply toNumber_small. split; [by apply digitsValue_nonneg|done].
Qed.

Lemma idToNumber_no_digits v :
  firstDigitRun (toStrOrEmpty v) = None -> idToNumber v = NaN.
Proof. unfold idToNumber. by intros ->. Qed.

(** C1 (as amended). The number of an id is the value of its first digit
    run whenever that is below 2^53, and the nearest Number otherwise. Two
    entries whose ids parse to finite Numbers are ordered by those Numbers;
    an entry whose id parses to no finite Number (no digit at all, or a
    digit run that overflows to infinity) compares after every entry whose
    id does; and in the sorted collection the entries with a finite number
    come first, in ascending order of it. *)
Theorem byIdAscending_orders_by_number
    (lc : jsstring -> jsstring -> Z)
    (lc_antisym : forall s t, Z.sgn (lc t s) = - Z.sgn (lc s t))
    (lc_trans : forall s t u, lc s t <= 0 -> lc t u <= 0 -> lc s u <= 0) :
  (forall v run,
      firstDigitRun (toStrOrEmpty v) = Some run -> digitsValue run < 2 ^ 53 ->
      idToNumber v = Fin (digitsValue run))
  /\ (forall a b x y,
      idToNumber (id a) = Fin x -> idToNumber (id b) = Fin y -> x < y ->
      sgn (byIdAscending lc a b) < 0 /\ 0 < sgn (byIdAscending lc b a))
  /\ (forall a b,
      isFinite (idToNumber (id a)) = true ->
      isFinite (idToNumber (id b)) = false ->
      byIdAscending lc a b = Fin (-1) /\ byIdAscending lc b a = Fin 1)
  /\ (forall b,
      firstDigitRun (toStrOrEmpty (id b)) = None ->
      isFinite (idToNumber (id b)) = false)
  /\ (forall l i j a b,
      sortComics lc l !! i = Some a -> sortComics lc l !! j = Some b ->
      (i < j)%nat ->
      match idToNumber (id a), idToNumber (id b) with
      | Fin x, Fin y => x <= y
      | Fin _, _ => True
      | _, Fin _ => False
      | _, _ => True
      end).
Proof.
  split; [|split; [|split; [|split]]].
  - apply idToNumber_exact.
  - intros a b x y Ha Hb Hxy.
    rewrite !(byIdAscending_sgn lc). unfold finiteKey. rewrite Ha, Hb.
    rewrite (Z.eqb_sym y x). destruct (Z.eqb_spec x y); lia.
  - intros a b Ha Hb. unfold byIdAscending. rewrite Ha, Hb. done.
  - intros b Hb. by rewrite (idToNumber_no_digits _ Hb).
  - intros l i j a b Hi Hj Hij.
    assert (Hle : cmpLe (byIdAscending lc) a b).
    { eapply StronglySorted_lookup_le; [|exact Hi|exact Hj|exact Hij].
      apply sort_sorted.
      - intros x y. by apply byIdAscending_total.
      - intros x y z. by apply byIdAscending_trans. }
    unfold cmpLe in Hle. rewrite (byIdAscending_sgn lc) in Hle.
    unfold finiteKey in Hle.
    destruct (idToNumber (id a)) as [|x| |], (idToNumber (id b)) as [|y| |];
      try done; try lia.
    destruct (Z.eqb_spec x y); lia.
Qed.

(** C1, as stated, fails. The id made of 1 followed by 309 zeros has a digit
    run, the empty id has none, and the first compares and sorts after the
    second. And of two ids whose digit runs are worth 2^53 + 1 and 2^53,
    which parse to the same Number, the one with the larger run comes
    first when its text collates first. *)
Lemma byIdAscending_digit_run_counterexamples :
  (let a := mkEntry (VString overflowingId) None None None None in
   let b := mkEntry (VString []) None None None None in
   firstDigitRun (toStrOrEmpty (id a)) = Some overflowingId
   /\ firstDigitRun (toStrOrEmpty (id b)) = None
   /\ byIdAscending Collation.collate a b = Fin 1
   /\ sortComics Collation.collate [a; b] = [b; a])
  /\ (let a := entryOfId "a9007199254740993" in
      let b := entryOfId "b9007199254740992" in
      firstDigitRun (toStrOrEmpty (id a)) = Some (lit "9007199254740993")
      /\ firstDigitRun (toStrOrEmpty (id b)) = Some (lit "9007199254740992")
      /\ byIdAscending Collation.collate a b = Fin (-1)
      /\ sortComics Collation.collate [b; a] = [a; b]).
Proof. vm_compute. repeat split. Qed.

(** C3 (as amended). With a collation that is a consistent comparator,
    byIdAscending is one too: swapping the arguments flips the sign, the
    order is transitive, and the result is zero exactly when both ids parse
    to the same finite number, or both to none, and the collation does not
    tell the two id strings apart; so two ids that the collation
    distinguishes never compare as equal. *)
Theorem byIdAscending_consistent
    (lc : jsstring -> jsstring -> Z)
    (lc_antisym : forall s t, Z.sgn (lc t s) = - Z.sgn (lc s t))
    (lc_trans : forall s t u, lc s t <= 0 -> lc t u <= 0 -> lc s u <= 0) :
  (forall a b, sgn (byIdAscending lc b a) = - sgn (byIdAscending lc a b))
  /\ (forall a b c,
      sgn (byIdAscending lc a b) <= 0 -> sgn (byIdAscending lc b c) <= 0 ->
      sgn (byIdAscending lc a c) <= 0)
  /\ (forall a b c,
      sgn (byIdAscending lc a b) < 0 -> sgn (byIdAscending lc b c) < 0 ->
      sgn (byIdAscending lc a c) < 0)
  /\ (forall a b,
      sgn (byIdAscending lc a b) = 0 <->
      finiteKey a = finiteKey b
      /\ lc (toStrOrEmpty (id a)) (toStrOrEmpty (id b)) = 0)
  /\ (forall a b,
      lc (toStrOrEmpty (id a)) (toStrOrEmpty (id b)) <> 0 ->
      sgn (byIdAscending lc a b) <> 0).
Proof.
  assert (Hz : forall a b,
      sgn (byIdAscending lc a b) = 0 <->
      finiteKey a = finiteKey b
      /\ lc (toStrOrEmpty (id a)) (toStrOrEmpty (id b)) = 0).
  { intros a b. rewrite (byIdAscending_sgn lc).
    destruct (finiteKey a) as [x|], (finiteKey b) as [y|].
    - destruct (Z.eqb_spec x y) as [->|Hne].
      + split; [intros H; split; [done|lia]|intros [_ H]; lia].
      + split; [lia|intros [[= H] _]; lia].
    - split; [lia|intros [[=] _]].
    - split; [lia|intros [[=] _]].
    - split; [intros H; split; [done|lia]|intros [_ H]; lia]. }
  split; [|split; [|split; [|split]]].
  - intros a b. by apply byIdAscending_antisym.
  - intros a b c. by apply byIdAscending_trans.
  - intros a b c. by apply byIdAscending_trans_lt.
  - exact Hz.
  - intros a b Hne H0. apply Hz in H0 as [_ H0]. done.
Qed.

(** C3, as stated, fails: the ids "02" and "2" differ as strings and
    compare as equal. *)
Lemma byIdAscending_02_2_equal :
  toStr (id (entryOfId "02")) <> toStr (id (entryOfId "2"))
  /\ byIdAscending Collation.collate (entryOfId "02") (entryOfId "2") = Fin 0.
Proof. split; [discriminate|reflexivity]. Qed.


(** The collation model meets the assumptions of C1, which therefore holds
    of the sorter run with it. *)
Lemma byIdAscending_orders_by_number_collate :
  (forall s t, Z.sgn (Collation.collate t s) = - Z.sgn (Collation.collate s t))
  /\ (forall s t u, Collation.collate s t <= 0 -> Collation.collate t u <= 0 ->
                    Collation.collate s u <= 0)
  /\ (sgn (byIdAscending Collation.collate (entryOfId "p9") (entryOfId "10")) < 0
      /\ 0 < sgn (byIdAscending Collation.collate (entryOfId "10") (entryOfId "p9")))
  /\ (byIdAscending Collation.collate (entryOfId "7") (entryOfId "cover") = Fin (-1)
      /\ byIdAscending Collation.collate (entryOfId "cover") (entryOfId "7") = Fin 1).
Proof.
  pose proof (byIdAscending_orders_by_number Collation.collate
                CollationFacts.collate_antisym CollationFacts.collate_trans)
    as (_ & Hnum & Hlast & _ & _).
  split; [exact CollationFacts.collate_antisym|].
  split; [exact CollationFacts.collate_trans|].
  split.
  - apply (Hnum (entryOfId "p9") (entryOfId "10") 9 10); [reflexivity..|lia].
  - apply (Hlast (entryOfId "7") (entryOfId "cover")); reflexivity.
Defined.

(** The collation model meets the assumptions of C3 as well. *)
Lemma byIdAscending_consistent_collate :
  (forall s t, Z.sgn (Collation.collate t s) = - Z.sgn (Collation.collate s t))
  /\ (forall s t u, Collation.collate s t <= 0 -> Collation.collate t u <= 0 ->
                    Collation.collate s u <= 0)
  /\ sgn (byIdAscending Collation.collate (entryOfId "b") (entryOfId "a"))
     = - sgn (byIdAscending Collation.collate (entryOfId "a") (entryOfId "b"))
  /\ sgn (byIdAscending Collation.collate (entryOfId "a") (entryOfId "b")) <> 0.
Proof.
  pose proof (byIdAscending_consistent Collation.collate
                CollationFacts.collate_antisym CollationFacts.collate_trans)
    as (Hanti & _ & _ & _ & Hsep).
  split; [exact CollationFacts.collate_antisym|].
  split; [exact CollationFacts.collate_trans|].
  split.
  - apply Hanti.
  - apply Hsep. discriminate.
Defined.

(** ** HTML escaping *)


Ltac elem_lia := rewrite ?elem_of_cons, ?elem_of_nil in *; lia.

Lemma escapeUnit_cases ch :
  (ch ∈ [38; 60; 62; 34; 39] /\ escapeUnit ch ∈ entities)
  \/ ((ch ∉ [38; 60; 62; 34; 39]) /\ escapeUnit ch = [ch]).
Proof.
  unfold escapeUnit, entities.
  destruct (Z.eqb_spec ch 38) as [->|]; [left; split; [elem_lia|repeat constructor]|].
  destruct (Z.eqb_spec ch 60) as [->|]; [left; split; [elem_lia|repeat constructor]|].
  destruct (Z.eqb_spec ch 62) as [->|]; [left; split; [elem_lia|repeat constructor]|].
  destruct (Z.eqb_spec ch 34) as [->|]; [left; split; [elem_lia|repeat constructor]|].
  destruct (Z.eqb_spec ch 39) as [->|]; [left; split; [elem_lia|repeat constructor]|].
  right. split; [elem_lia|done].
Qed.





Lemma escapeHtml_string s : escapeHtml (VString s) = Ok (escapeStr s).
Proof. unfold escapeHtml. simpl. by destruct s. Qed.



Lemma escapeHtml_field o : escapeHtml (fieldVal o) = Ok (escapeStr (default [] o)).
Proof. destruct o as [s|]; [apply escapeHtml_string|reflexivity]. Qed.





Example tileMarkup_script :
  tileMarkup (mkEntry (VString (lit "001")) (Some (lit "<script>")) None
                (Some (lit "a.png")) None)
  = Ok (indent 6
          ++ lit "<button class=" ++ dq ++ lit "tile" ++ dq ++ lit " type="
          ++ dq ++ lit "button" ++ dq ++ lit " data-open=" ++ dq ++ lit "001"
          ++ dq ++ lit " aria-label=" ++ dq ++ lit "Open &lt;script&gt;" ++ dq
          ++ lit ">" ++ indent 8
          ++ lit "<img class=" ++ dq ++ lit "thumb" ++ dq ++ lit " src=" ++ dq
          ++ lit "a.png" ++ dq ++ lit " alt=" ++ dq ++ lit "&lt;script&gt;"
          ++ dq ++ lit " loading=" ++ dq ++ lit "lazy" ++ dq ++ lit ">"
          ++ indent 8 ++ lit "<h3>&lt;script&gt;</h3>" ++ indent 8
          ++ lit "<div class=" ++ dq ++ lit "muted small" ++ dq
          ++ lit ">#001</div>" ++ indent 6 ++ lit "</button>" ++ indent 4).
Proof. vm_compute. reflexivity. Qed.

Lemma escapeHtml_Throw v e : escapeHtml v = Throw e -> e = TypeError.
Proof.
  unfold escapeHtml. destruct (if truthy v then v else VString []);
    by intros [= <-].
Qed.

Lemma tileMarkup_Throw c e : tileMarkup c = Throw e -> e = TypeError.
Proof.
  unfold tileMarkup.
  destruct (escapeHtml (id c)) as [eId|e0] eqn:Hid.
  - rewrite !escapeHtml_string, escapeHtml_field. cbn [mbind result_bind].
    destruct (displayMeta c); discriminate.
  - cbn [mbind result_bind]. intros [= <-]. by eapply escapeHtml_Throw.
Qed.

Lemma tilesMarkup_Throw cs e : tilesMarkup cs = Throw e -> e = TypeError.
Proof.
  induction cs as [|c cs IH]; simpl; [discriminate|].
  destruct (tileMarkup c) as [m|e0] eqn:Hc; cbn [mbind result_bind].
  - destruct (tilesMarkup cs) as [ms|e1]; cbn [mbind result_bind];
      [discriminate|]. intros [= <-]. by apply IH.
  - intros [= <-]. by eapply tileMarkup_Throw.
Qed.

Lemma tilesMarkup_numeric_id cs c z :
  c ∈ cs -> id c = VNumber z -> z <> 0 -> tilesMarkup cs = Throw TypeError.
Proof.
  intros Hin Hid Hz. induction cs as [|c0 cs IH]; [by apply elem_of_nil in Hin|].
  simpl. destruct (tileMarkup c0) as [m|e0] eqn:Hc0; cbn [mbind result_bind].
  - apply elem_of_cons in Hin as [->|Hin].
    + unfold tileMarkup, escapeHtml in Hc0. rewrite Hid in Hc0. simpl in Hc0.
      destruct (Z.eqb_spec z 0); [done|]. discriminate.
    + by rewrite IH.
  - f_equal. by eapply tileMarkup_Throw.
Qed.

(** C8. [escapeHtml] throws a TypeError exactly on the truthy values that
    are not strings, and returns on every string and every falsy value; in
    particular it throws on a numeric id other than zero, and then so does
    [renderGrid], leaving the grid as it was. *)
Theorem escapeHtml_partial_on_non_strings :
  (forall v, escapeHtml v = Throw TypeError <->
             truthy v = true /\ (forall s, v <> VString s))
  /\ (forall v, truthy v = false \/ (exists s, v = VString s) ->
                exists e, escapeHtml v = Ok e)
  /\ (forall z, z <> 0 -> escapeHtml (VNumber z) = Throw TypeError)
  /\ (forall cs c z w,
        c ∈ cs -> id c = VNumber z -> z <> 0 ->
        is_Some (getElementById "archiveGrid" w) ->
        renderGrid cs w = (w, Throw TypeError)).
Proof.
  split; [|split; [|split]].
  - intros v. unfold escapeHtml. destruct v as [| |[]|z|s]; simpl;
      try (split; [discriminate|intros [[=] _]]).
    + split; [by split|done].
    + destruct (Z.eqb_spec z 0); simpl;
        [split; [discriminate|intros [[=] _]]|split; [by split|done]].
    + split; [by destruct (bool_decide (s = []))|].
      intros [_ H]. by destruct (H s).
  - intros v [Hf|[s ->]].
    + unfold escapeHtml. rewrite Hf. eauto.
    + rewrite escapeHtml_string. eauto.
  - intros z Hz. unfold escapeHtml. simpl. by destruct (Z.eqb_spec z 0).
  - intros cs c z w Hin Hid Hz [g Hg]. unfold renderGrid. rewrite Hg.
    by rewrite (tilesMarkup_numeric_id cs c z).
Qed.


(** C8 on the id 7: escaping throws, and so does rendering a grid that
    holds an entry with that id. *)
Lemma escapeHtml_partial_sample :
  let c := mkEntry (VNumber 7) None None None None in
  let w := mkWorld (mkState None [c] 0) {["archiveGrid" := mkElement [] ∅ None [] []]}
             [] None [] [] None None [] (0, 0, false) [] [] in
  escapeHtml (VNumber 7) = Throw TypeError
  /\ renderGrid [c] w = (w, Throw TypeError).
Proof.
  intros c w.
  destruct escapeHtml_partial_on_non_strings as (_ & _ & Hnum & Hgrid).
  split.
  - apply Hnum. lia.
  - apply (Hgrid [c] c 7 w); [constructor|reflexivity|lia|].
    eexists. apply lookup_singleton_eq.
Defined.

(** ** The document under updates *)

Lemma getElementById_update i j f w :
  getElementById i (updateElement j f w)
  = if decide (i = j) then f <$> getElementById i w else getElementById i w.
Proof.
  unfold getElementById, updateElement. simpl.
  destruct (decide (i = j)) as [->|Hne].
  - by rewrite lookup_alter_eq.
  - by rewrite lookup_alter_ne.
Qed.

Lemma comicAt_Some w i c :
  comicAt w i = Some c <-> 0 <= i /\ comics (state w) !! Z.to_nat i = Some c.
Proof.
  unfold comicAt. destruct (Z.ltb_spec i 0) as [Hi|Hi].
  - split; [discriminate|]. intros [? _]. lia.
  - split; [by intros ?|by intros [_ ?]].
Qed.

Lemma comicAt_is_Some w i :
  is_Some (comicAt w i) <-> 0 <= i < Z.of_nat (length (comics (state w))).
Proof.
  unfold comicAt. destruct (Z.ltb_spec i 0).
  - split; [by intros [? [=]]|lia].
  - rewrite lookup_lt_is_Some. lia.
Qed.

Lemma openDisclaimer_Ok w : openDisclaimer w = (exec openDisclaimer w, Ok tt).
Proof. unfold exec, openDisclaimer. by destruct (getElementById "disclaimer" w). Qed.

(** ** Opening an entry by id *)

Lemma findIndex_Some v cs idx :
  findIndex v cs = Some idx <->
  exists c, cs !! idx = Some c /\ toStr (id c) = toStr v
            /\ forall j c', cs !! j = Some c' -> (j < idx)%nat ->
                            toStr (id c') <> toStr v.
Proof.
  unfold findIndex. split.
  - destruct (list_find _ cs) as [[i c]|] eqn:Hf; [|discriminate].
    intros [= <-]. apply list_find_Some in Hf as (? & ? & ?). eauto.
  - intros (c & Hc & Hv & Hmin).
    assert (Hf : list_find (fun c => toStr (id c) = toStr v) cs = Some (idx, c)).
    { apply list_find_Some. eauto. }
    by rewrite Hf.
Qed.

Lemma findIndex_None v cs :
  findIndex v cs = None <-> forall c, c ∈ cs -> toStr (id c) <> toStr v.
Proof.
  unfold findIndex. rewrite fmap_None, list_find_None, Forall_forall. done.
Qed.

Lemma renderReader_state w : state (exec renderReader w) = state w.
Proof.
  unfold exec, renderReader. by destruct (comicAt w (currentIndex (state w))).
Qed.

Lemma renderReader_Ok w :
  is_Some (comicAt w (currentIndex (state w))) ->
  renderReader w = (exec renderReader w, Ok tt).
Proof.
  intros [c Hc]. unfold exec, renderReader. by rewrite Hc.
Qed.

Lemma setHash_state v w : state (exec (setHash v) w) = state w.
Proof.
  unfold exec, setHash, bind, liftResult.
  by destruct (Uri.encodeURIComponent (toStr v)).
Qed.

Lemma openReader_state w : state (exec openReader w) = state w.
Proof. unfold exec, openReader. by destruct (getElementById "reader" w). Qed.

Lemma bind_modify {B} f (k : unit -> M B) w : bind (modify f) k w = k tt (f w).
Proof. reflexivity. Qed.

Lemma exec_bind_state {A B} (m : M A) (k : A -> M B) w :
  (forall w', state (exec m w') = state w') ->
  (forall a w', state (exec (k a) w') = state w') ->
  state (exec (bind m k) w) = state w.
Proof.
  intros Hm Hk. unfold exec, bind in *.
  specialize (Hm w). destruct (m w) as [w1 [a|e]]; simpl in *; [|done].
  by rewrite Hk.
Qed.

(** C4. When some entry's id has the string of the requested one,
    [openComicById] leaves the cursor on the first such entry; when none
    has, it returns without an exception and the world, hence the cursor,
    the fragment and the reader, is what it was. *)
Theorem openComicById_first_match_or_nothing :
  (forall v w idx c,
      comics (state w) !! idx = Some c ->
      toStr (id c) = toStr v ->
      (forall j c', comics (state w) !! j = Some c' -> (j < idx)%nat ->
                    toStr (id c') <> toStr v) ->
      currentIndex (state (exec (openComicById v) w)) = Z.of_nat idx
      /\ comics (state (exec (openComicById v) w)) = comics (state w))
  /\ (forall v w,
      (forall c, c ∈ comics (state w) -> toStr (id c) <> toStr v) ->
      openComicById v w = (w, Ok tt)).
Proof.
  split.
  - intros v w idx c Hc Hv Hmin.
    assert (Hf : findIndex v (comics (state w)) = Some idx).
    { apply findIndex_Some. eauto. }
    unfold exec, openComicById. rewrite Hf.
    set (w1 := set_currentIndex (Z.of_nat idx) w).
    assert (Hst : state (exec (renderReader ;; setHash v ;; openReader) w1)
                  = state w1).
    { apply exec_bind_state; [apply renderReader_state|]. intros _ w'.
      apply exec_bind_state; [apply setHash_state|]. intros _ w''.
      apply openReader_state. }
    unfold exec in Hst. rewrite !bind_modify. fold w1. by rewrite Hst.
  - intros v w Hnone. unfold openComicById.
    by rewrite (proj2 (findIndex_None v (comics (state w))) Hnone).
Qed.

(** An instance of C4: two entries share the id 7, and the first is opened. *)
Lemma openComicById_first_match_example :
  let cs := [entryOfId "3"; entryOfId "7"; entryOfId "7"] in
  let w := mkWorld (mkState None cs 0) ∅ [] None [] [] None None []
             (0, 0, false) [] [] in
  currentIndex (state (exec (openComicById (VNumber 7)) w)) = 1
  /\ comics (state (exec (openComicById (VNumber 7)) w)) = cs.
Proof.
  intros cs w.
  apply (proj1 openComicById_first_match_or_nothing (VNumber 7) w 1%nat
           (entryOfId "7")).
  - reflexivity.
  - reflexivity.
  - intros j c' Hj Hlt. destruct j as [|[|j]]; [|lia|lia].
    injection Hj as <-. discriminate.
Defined.

(** ** The buttons of the reader *)

Lemma getElementById_preloaded i l w :
  getElementById i (set_preloaded l w) = getElementById i w.
Proof. reflexivity. Qed.

Lemma setBtn_target i enabled h w :
  getElementById i (exec (setBtn i enabled h) w)
  = (fun el => if enabled
               then set_onclick (Some h) (removeAttribute "aria-disabled" el)
               else set_onclick None (setAttribute "aria-disabled" (lit "true") el))
      <$> getElementById i w.
Proof.
  unfold exec, setBtn, modify. simpl.
  rewrite getElementById_update. by rewrite decide_True.
Qed.

Lemma setBtn_other i j enabled h w :
  i <> j ->
  getElementById i (exec (setBtn j enabled h) w) = getElementById i w.
Proof.
  intros Hne. unfold exec, setBtn, modify. simpl.
  rewrite getElementById_update. by rewrite decide_False.
Qed.

Lemma btnDisabled_after_setBtn i enabled h w :
  is_Some (getElementById i w) ->
  btnDisabled i (exec (setBtn i enabled h) w) = negb enabled
  /\ btnEnabled i (exec (setBtn i enabled h) w) = enabled.
Proof.
  intros [el Hel]. unfold btnDisabled, btnEnabled.
  rewrite setBtn_target, Hel. simpl.
  destruct enabled; simpl.
  - rewrite lookup_delete_eq. split; [done|].
    by rewrite bool_decide_eq_true_2.
  - rewrite lookup_insert_eq. split; [|done].
    by rewrite bool_decide_eq_true_2.
Qed.

Ltac render_lookup Hc :=
  unfold exec, renderReader; rewrite Hc;
  unfold bind, setText, setAttr, setBtn, preload, modify; cbn [fst];
  rewrite getElementById_preloaded; repeat rewrite getElementById_update; simpl.

Lemma renderReader_btnPrev w c :
  comicAt w (currentIndex (state w)) = Some c ->
  getElementById "btnPrev" (exec renderReader w)
  = getElementById "btnPrev"
      (exec (setBtn "btnPrev"
               (bool_decide (is_Some (comicAt w (currentIndex (state w) - 1))))
               (OnPrev (comicAt w (currentIndex (state w) - 1)))) w).
Proof. intros Hc. rewrite setBtn_target. by render_lookup Hc. Qed.

Lemma renderReader_btnNext w c :
  comicAt w (currentIndex (state w)) = Some c ->
  getElementById "btnNext" (exec renderReader w)
  = getElementById "btnNext"
      (exec (setBtn "btnNext"
               (bool_decide (is_Some (comicAt w (currentIndex (state w) + 1))))
               (OnNext (comicAt w (currentIndex (state w) + 1)))) w).
Proof. intros Hc. rewrite setBtn_target. by render_lookup Hc. Qed.

Lemma renderReader_btnLatest w c :
  comicAt w (currentIndex (state w)) = Some c ->
  getElementById "btnLatest" (exec renderReader w)
  = getElementById "btnLatest"
      (exec (setBtn "btnLatest"
               (bool_decide
                  (is_Some (comicAt w (Z.of_nat (length (comics (state w))) - 1))))
               (OnLatest (comicAt w (Z.of_nat (length (comics (state w))) - 1))))
            w).
Proof. intros Hc. rewrite setBtn_target. by render_lookup Hc. Qed.

Lemma btn_status_ext i w1 w2 :
  getElementById i w1 = getElementById i w2 ->
  btnDisabled i w1 = btnDisabled i w2 /\ btnEnabled i w1 = btnEnabled i w2.
Proof. unfold btnDisabled, btnEnabled. by intros ->. Qed.

(** C5. With the cursor at a position of a non-empty collection, and on a
    page that has the three buttons, [renderReader] returns and leaves
    previous disabled exactly at position 0, next disabled exactly at the
    last position, each of them enabled otherwise, and latest enabled. *)
Theorem renderReader_button_states (w : World) :
  let i := currentIndex (state w) in
  let n := Z.of_nat (length (comics (state w))) in
  0 <= i < n ->
  is_Some (getElementById "btnPrev" w) ->
  is_Some (getElementById "btnNext" w) ->
  is_Some (getElementById "btnLatest" w) ->
  renderReader w = (exec renderReader w, Ok tt)
  /\ (btnDisabled "btnPrev" (exec renderReader w) = true <-> i = 0)
  /\ (btnEnabled "btnPrev" (exec renderReader w) = true <-> i <> 0)
  /\ (btnDisabled "btnNext" (exec renderReader w) = true <-> i = n - 1)
  /\ (btnEnabled "btnNext" (exec renderReader w) = true <-> i <> n - 1)
  /\ btnEnabled "btnLatest" (exec renderReader w) = true
  /\ btnDisabled "btnLatest" (exec renderReader w) = false.
Proof.
  intros i n Hi Hprev Hnext Hlatest.
  assert (Hsome : is_Some (comicAt w i)) by (by apply comicAt_is_Some).
  split; [by apply renderReader_Ok|].
  destruct Hsome as [c Hc].
  destruct (btn_status_ext _ _ _ (renderReader_btnPrev w c Hc)) as [-> ->].
  destruct (btn_status_ext _ _ _ (renderReader_btnNext w c Hc)) as [-> ->].
  destruct (btn_status_ext _ _ _ (renderReader_btnLatest w c Hc)) as [-> ->].
  fold i n.
  destruct (btnDisabled_after_setBtn "btnPrev"
              (bool_decide (is_Some (comicAt w (i - 1))))
              (OnPrev (comicAt w (i - 1))) w Hprev) as [-> ->].
  destruct (btnDisabled_after_setBtn "btnNext"
              (bool_decide (is_Some (comicAt w (i + 1))))
              (OnNext (comicAt w (i + 1))) w Hnext) as [-> ->].
  destruct (btnDisabled_after_setBtn "btnLatest"
              (bool_decide (is_Some (comicAt w (n - 1))))
              (OnLatest (comicAt w (n - 1))) w Hlatest) as [-> ->].
  rewrite !negb_true_iff, !negb_false_iff, !bool_decide_eq_false,
    !bool_decide_eq_true, !comicAt_is_Some.
  fold n. repeat split; lia.
Qed.

(** ** Stability of computations *)

Section Frames.

Variable R : World -> World -> Prop.
Hypothesis R_refl : forall w, R w w.
Hypothesis R_trans : forall w1 w2 w3, R w1 w2 -> R w2 w3 -> R w1 w3.

Lemma stable_ret {A} (a : A) : stable R (ret a).
Proof. intros w. apply R_refl. Qed.

Lemma stable_throw {A} e : stable R (@throw A e).
Proof. intros w. apply R_refl. Qed.

Lemma stable_liftResult {A} (r : result A) : stable R (liftResult r).
Proof. intros w. apply R_refl. Qed.

Lemma stable_modify f : (forall w, R w (f w)) -> stable R (modify f).
Proof. intros Hf w. apply Hf. Qed.

Lemma stable_bind {A B} (m : M A) (k : A -> M B) :
  stable R m -> (forall a, stable R (k a)) -> stable R (bind m k).
Proof.
  intros Hm Hk w. unfold exec, bind.
  specialize (Hm w). unfold exec in Hm.
  destruct (m w) as [w1 [a|e]]; simpl in *; [|done].
  eapply R_trans; [exact Hm|]. apply (Hk a w1).
Qed.

Lemma stable_tryCatch m h :
  stable R m -> (forall e, stable R (h e)) -> stable R (tryCatch m h).
Proof.
  intros Hm Hh w. unfold exec, tryCatch.
  specialize (Hm w). unfold exec in Hm.
  destruct (m w) as [w1 [[]|e]]; simpl in *; [done|].
  eapply R_trans; [exact Hm|]. apply (Hh e w1).
Qed.

Lemma stable_fun {A} (m : M A) : (forall w, R w (exec m w)) -> stable R m.
Proof. done. Qed.

Hypothesis R_reports : forall w l, R w (set_reports l w).

Lemma stable_reported m w : stable R m -> R w (reported m w).
Proof.
  intros Hm. unfold reported. specialize (Hm w). unfold exec in Hm.
  destruct (m w) as [w1 [a|e]]; simpl in *; [done|].
  eapply R_trans; [exact Hm|]. apply R_reports.
Qed.

Lemma stable_foldl {L} (f : L -> M unit) (ls : list L) w :
  (forall l, stable R (f l)) ->
  R w (foldl (fun w' l => reported (f l) w') w ls).
Proof.
  intros Hf. revert w. induction ls as [|l ls IH]; intros w; simpl.
  - apply R_refl.
  - eapply R_trans; [apply (stable_reported (f l) w (Hf l))|]. apply IH.
Qed.

End Frames.

(** ** Computations that leave navigation alone *)

Lemma sameNav_refl w : sameNav w w.
Proof. by repeat split. Qed.

Lemma sameNav_trans w1 w2 w3 : sameNav w1 w2 -> sameNav w2 w3 -> sameNav w1 w3.
Proof.
  intros (Hc1 & Hi1 & Hh1) (Hc2 & Hi2 & Hh2). repeat split.
  - by rewrite Hc2.
  - by rewrite Hi2.
  - intros i. by rewrite Hh2.
Qed.

Lemma sameNav_fields w w' :
  state w' = state w -> document w' = document w -> sameNav w w'.
Proof.
  intros Hs Hd. unfold sameNav, getElementById. rewrite Hs, Hd. by repeat split.
Qed.

Lemma sameNav_updateElement i f w :
  (forall el, onclick (f el) = onclick el) -> sameNav w (updateElement i f w).
Proof.
  intros Hf. repeat split. intros j. rewrite getElementById_update.
  destruct (decide (j = i)); [|done].
  destruct (getElementById j w); simpl; [|done]. by rewrite Hf.
Qed.

Lemma sameNav_reports w l : sameNav w (set_reports l w).
Proof. by apply sameNav_fields. Qed.

Create HintDb nav.

Lemma nav_ret {A} (a : A) : stable sameNav (ret a).
Proof. apply stable_ret, sameNav_refl. Qed.

Lemma nav_throw {A} e : stable sameNav (@throw A e).
Proof. apply stable_throw, sameNav_refl. Qed.

Lemma nav_liftResult {A} (r : result A) : stable sameNav (liftResult r).
Proof. apply stable_liftResult, sameNav_refl. Qed.

Lemma nav_bind {A B} (m : M A) (k : A -> M B) :
  stable sameNav m -> (forall a, stable sameNav (k a)) -> stable sameNav (bind m k).
Proof. apply stable_bind, sameNav_trans. Qed.

Lemma nav_setText i t : stable sameNav (setText i t).
Proof. intros w. by apply sameNav_updateElement. Qed.

Lemma nav_setAttr i a v : stable sameNav (setAttr i a v).
Proof. intros w. by apply sameNav_updateElement. Qed.

Lemma nav_setCurrentTab tab : stable sameNav (setCurrentTab tab).
Proof. intros w. by apply sameNav_fields. Qed.

Lemma nav_with_element {A} i (f : Element -> Element) (g : World -> World)
    (r1 r2 : result A) :
  (forall el, onclick (f el) = onclick el) ->
  (forall w, sameNav w (g w)) ->
  stable sameNav (fun w =>
    match getElementById i w with
    | None => (w, r1)
    | Some _ => (g (updateElement i f w), r2)
    end).
Proof.
  intros Hf Hg w. unfold exec. destruct (getElementById i w); simpl.
  - eapply sameNav_trans; [by apply sameNav_updateElement|apply Hg].
  - apply sameNav_refl.
Qed.

Lemma nav_openReader : stable sameNav openReader.
Proof. apply nav_with_element; [done|]. intros w. by apply sameNav_fields. Qed.

Lemma nav_closeReader : stable sameNav closeReader.
Proof. apply nav_with_element; [done|]. intros w. by apply sameNav_fields. Qed.

Lemma nav_openDisclaimer : stable sameNav openDisclaimer.
Proof. apply nav_with_element; [done|]. intros w. by apply sameNav_fields. Qed.

Lemma nav_closeDisclaimer : stable sameNav closeDisclaimer.
Proof. apply nav_with_element; [done|]. intros w. by apply sameNav_fields. Qed.

Lemma nav_acceptDisclaimer : stable sameNav acceptDisclaimer.
Proof.
  apply nav_bind; [|intros _; apply nav_closeDisclaimer].
  intros w. unfold exec, modify. simpl.
  destruct (storage w); [by apply sameNav_fields|apply sameNav_refl].
Qed.

Lemma nav_setHash v : stable sameNav (setHash v).
Proof.
  apply nav_bind; [apply nav_liftResult|]. intros enc w.
  by apply sameNav_fields.
Qed.

Lemma nav_preload cs : stable sameNav (preload cs).
Proof. intros w. by apply sameNav_fields. Qed.

Lemma nav_addListener l : stable sameNav (addListener l).
Proof. intros w. by apply sameNav_fields. Qed.

Lemma nav_addListenerOn i l : stable sameNav (addListenerOn i l).
Proof.
  intros w. unfold exec, addListenerOn.
  destruct (getElementById i w); [apply nav_addListener|apply sameNav_refl].
Qed.

Lemma nav_addListenerOnceOn i l : stable sameNav (addListenerOnceOn i l).
Proof.
  intros w. unfold exec, addListenerOnceOn.
  destruct (bool_decide _); [apply sameNav_refl|apply nav_addListenerOn].
Qed.

Lemma nav_disclaimerInteractions : stable sameNav disclaimerInteractions.
Proof.
  repeat (apply nav_bind; [|intros _]);
    first [apply nav_addListenerOnceOn | apply nav_addListenerOn].
Qed.

Lemma nav_renderGrid cs : stable sameNav (renderGrid cs).
Proof.
  intros w. unfold exec, renderGrid.
  destruct (getElementById "archiveGrid" w); [|apply sameNav_refl].
  destruct (tilesMarkup cs) as [ms|]; cbn [fst]; [|apply sameNav_refl].
  apply (sameNav_trans _
           (updateElement "archiveGrid" (set_innerHTML (concat ms)) w));
    [by apply sameNav_updateElement|by apply sameNav_fields].
Qed.

Lemma nav_onTouchStart x y : stable sameNav (onTouchStart x y).
Proof.
  intros w. unfold exec, onTouchStart.
  destruct (negb _); [apply sameNav_refl|by apply sameNav_fields].
Qed.

Global Hint Resolve nav_ret nav_throw nav_liftResult nav_setText nav_setAttr
  nav_setCurrentTab nav_openReader nav_closeReader nav_openDisclaimer
  nav_closeDisclaimer nav_acceptDisclaimer nav_setHash nav_preload
  nav_addListener nav_addListenerOn nav_addListenerOnceOn
  nav_disclaimerInteractions nav_renderGrid nav_onTouchStart : nav.

(** ** The invariant of navigation *)

Lemma handlers_transfer w w' i el h :
  (forall j, onclick <$> getElementById j w' = onclick <$> getElementById j w) ->
  getElementById i w' = Some el -> onclick el = Some h ->
  exists el0, getElementById i w = Some el0 /\ onclick el0 = Some h.
Proof.
  intros Hsame Hel Hh. specialize (Hsame i). rewrite Hel in Hsame. simpl in Hsame.
  destruct (getElementById i w) as [el0|]; [|discriminate].
  exists el0. split; [done|]. simpl in Hsame. congruence.
Qed.

Lemma navInv_sameNav w w' : sameNav w w' -> navInv w -> navInv w'.
Proof.
  intros (Hc & Hi & Hh) [Hok Hrange]. split.
  - intros i el h Hel Hon.
    destruct (handlers_transfer w w' i el h Hh Hel Hon) as (el0 & Hel0 & Hon0).
    specialize (Hok i el0 h Hel0 Hon0).
    unfold handlerOk in *. by rewrite Hc, Hi.
  - unfold cursorInRange in *. by rewrite Hc, Hi.
Qed.

Lemma navInv_stable {A} (m : M A) w :
  stable sameNav m -> navInv w -> navInv (exec m w).
Proof. intros Hm. apply navInv_sameNav, Hm. Qed.

Lemma placedOk_of_navInv w : navInv w -> placedOk w.
Proof.
  intros [Hok _] i el h Hel Hon. specialize (Hok i el h Hel Hon).
  destruct h; simpl in *; tauto.
Qed.

Lemma placedOk_set_currentIndex j w : placedOk w -> placedOk (set_currentIndex j w).
Proof. done. Qed.

Lemma exec_bind {A B} (m : M A) (k : A -> M B) w :
  exec (bind m k) w
  = match m w with
    | (w1, Ok a) => exec (k a) w1
    | (w1, Throw _) => w1
    end.
Proof. unfold exec, bind. by destruct (m w) as [w1 [a|e]]. Qed.

Lemma onclick_update_other i f j w :
  j <> i \/ (forall el, onclick (f el) = onclick el) ->
  onclick <$> getElementById j (updateElement i f w)
  = onclick <$> getElementById j w.
Proof.
  intros H. rewrite getElementById_update.
  destruct (decide (j = i)) as [->|]; [|done].
  destruct H as [|Hf]; [done|].
  destruct (getElementById i w); simpl; [|done]. by rewrite Hf.
Qed.

Lemma renderReader_onclick w c j :
  comicAt w (currentIndex (state w)) = Some c ->
  let prev := comicAt w (currentIndex (state w) - 1) in
  let next := comicAt w (currentIndex (state w) + 1) in
  let latest := comicAt w (Z.of_nat (length (comics (state w))) - 1) in
  let button (o : option Entry) (h : Handler) :=
    (fun _ : Element => if bool_decide (is_Some o) then Some h else None)
      <$> getElementById j w in
  onclick <$> getElementById j (exec renderReader w)
  = if decide (j = "btnPrev") then button prev (OnPrev prev)
    else if decide (j = "btnNext") then button next (OnNext next)
    else if decide (j = "btnLatest") then button latest (OnLatest latest)
    else onclick <$> getElementById j w.
Proof.
  intros Hc prev next latest button. subst prev next latest button.
  destruct (decide (j = "btnPrev")) as [->|N1];
    [render_lookup Hc; destruct (getElementById _ w); simpl; [|done];
     by destruct (bool_decide _)|].
  destruct (decide (j = "btnNext")) as [->|N2];
    [render_lookup Hc; destruct (getElementById _ w); simpl; [|done];
     by destruct (bool_decide _)|].
  destruct (decide (j = "btnLatest")) as [->|N3];
    [render_lookup Hc; destruct (getElementById _ w); simpl; [|done];
     by destruct (bool_decide _)|].
  unfold exec, renderReader. rewrite Hc.
  unfold bind, setText, setAttr, setBtn, preload, modify. cbn [fst].
  rewrite getElementById_preloaded.
  do 3 (rewrite onclick_update_other by (by left)).
  do 4 (rewrite onclick_update_other by (by right)).
  done.
Qed.

Lemma navInv_renderReader w :
  placedOk w ->
  0 <= currentIndex (state w) < Z.of_nat (length (comics (state w))) ->
  navInv (exec renderReader w).
Proof.
  intros Hplaced Hrange.
  assert (Hsome : is_Some (comicAt w (currentIndex (state w))))
    by (by apply comicAt_is_Some).
  destruct Hsome as [c Hc].
  pose proof (renderReader_state w) as Hst.
  split.
  - intros i el h Hel Hon.
    pose proof (renderReader_onclick w c i Hc) as Hrr. cbv zeta in Hrr.
    rewrite Hel in Hrr. simpl in Hrr. rewrite Hon in Hrr.
    unfold handlerOk. rewrite Hst.
    repeat case_decide; subst.
    + destruct (getElementById "btnPrev" w); [|discriminate]. simpl in Hrr.
      case_bool_decide as Hp; [|discriminate]. injection Hrr as Hh. subst h.
      apply comicAt_is_Some in Hp. split; [done|lia].
    + destruct (getElementById "btnNext" w); [|discriminate]. simpl in Hrr.
      case_bool_decide as Hp; [|discriminate]. injection Hrr as Hh. subst h.
      apply comicAt_is_Some in Hp. split; [done|lia].
    + destruct (getElementById "btnLatest" w); [|discriminate]. simpl in Hrr.
      case_bool_decide as Hp; [|discriminate]. injection Hrr as Hh. subst h.
      split; [done|lia].
    + destruct (getElementById i w) as [el0|] eqn:Hel0; [|discriminate].
      simpl in Hrr. injection Hrr as Hrr. symmetry in Hrr.
      specialize (Hplaced i el0 h Hel0 Hrr).
      destruct h; try done; lia.
  - intros _. by rewrite Hst.
Qed.

(** Moving the cursor to a position of the collection and rendering
    restores the invariant, whatever follows leaves navigation alone. *)
Lemma navInv_move (f : World -> World) (rest : M unit) w j :
  (forall w0, f w0 = set_currentIndex (j w0) w0) ->
  placedOk w ->
  0 <= j w < Z.of_nat (length (comics (state w))) ->
  stable sameNav rest ->
  navInv (exec (modify f ;; renderReader ;; rest) w).
Proof.
  intros Hf Hplaced Hj Hrest.
  rewrite exec_bind. unfold modify. rewrite Hf.
  set (w1 := set_currentIndex (j w) w).
  assert (Hinv : navInv (exec renderReader w1)).
  { apply navInv_renderReader; [by apply placedOk_set_currentIndex|done]. }
  rewrite exec_bind, renderReader_Ok.
  - by apply navInv_stable.
  - by apply comicAt_is_Some.
Qed.

Lemma navInv_openComicById v w : navInv w -> navInv (exec (openComicById v) w).
Proof.
  intros Hinv. unfold exec at 1. unfold openComicById.
  destruct (findIndex v (comics (state w))) as [idx|] eqn:Hf; [|done].
  apply findIndex_Some in Hf as (c & Hc & _).
  apply lookup_lt_Some in Hc.
  apply (navInv_move (set_currentIndex (Z.of_nat idx)) _ w
           (fun _ => Z.of_nat idx)).
  - done.
  - by apply placedOk_of_navInv.
  - lia.
  - apply nav_bind; [apply nav_setHash|intros _; apply nav_openReader].
Qed.

Lemma nav_setHash_captured o :
  stable sameNav (v <- idOfCaptured o ;; setHash v).
Proof.
  apply nav_bind; [destruct o; [apply nav_ret|apply nav_throw]|].
  intros v. apply nav_setHash.
Qed.

Lemma navInv_runHandler w i h :
  navInv w -> handlerOk w i h -> navInv (exec (runHandler h) w).
Proof.
  intros Hinv Hok. pose proof (placedOk_of_navInv w Hinv) as Hplaced.
  destruct h as [prev|next|latest|comic]; simpl in *.
  - apply (navInv_move _ _ w (fun w0 => currentIndex (state w0) - 1));
      [done|done|lia|apply nav_setHash_captured].
  - apply (navInv_move _ _ w (fun w0 => currentIndex (state w0) + 1));
      [done|done|lia|apply nav_setHash_captured].
  - apply (navInv_move _ _ w
             (fun w0 => Z.of_nat (length (comics (state w0))) - 1));
      [done|done|lia|apply nav_setHash_captured].
  - by apply navInv_openComicById.
Qed.

(** ** The invariant under events *)

Lemma navInv_bind {A B} (m : M A) (k : A -> M B) w :
  (forall w0, navInv w0 -> navInv (exec m w0)) ->
  (forall a w0, navInv w0 -> navInv (exec (k a) w0)) ->
  navInv w -> navInv (exec (bind m k) w).
Proof.
  intros Hm Hk Hinv. rewrite exec_bind. specialize (Hm w Hinv).
  unfold exec in Hm. destruct (m w) as [w1 [a|e]]; simpl in Hm; [|done].
  by apply Hk.
Qed.

Lemma navInv_reported m w : navInv (exec m w) -> navInv (reported m w).
Proof.
  intros Hm. unfold reported, exec in *.
  destruct (m w) as [w1 [a|e]]; simpl in Hm; [done|].
  eapply navInv_sameNav; [apply sameNav_reports|done].
Qed.

Lemma navInv_foldl {L} (f : L -> M unit) (ls : list L) w :
  (forall l w0, navInv w0 -> navInv (exec (f l) w0)) ->
  navInv w -> navInv (foldl (fun w' l => reported (f l) w') w ls).
Proof.
  intros Hf. revert w. induction ls as [|l ls IH]; intros w Hinv; simpl; [done|].
  apply IH. by apply navInv_reported, Hf.
Qed.

Lemma navInv_openAt i w : navInv w -> navInv (exec (openAt i) w).
Proof.
  intros Hinv. unfold exec at 1. unfold openAt.
  destruct (comicAt w i); [by apply navInv_openComicById|done].
Qed.

Lemma navInv_clickListener l target w :
  navInv w -> navInv (exec (clickListener l target) w).
Proof.
  intros Hinv.
  destruct l; simpl; try done; case_bool_decide; try done;
    try (apply navInv_stable; [solve [auto with nav]|done]).
  - by apply navInv_openAt.
  - by apply (navInv_openAt _ w).
Qed.

Lemma navInv_fireClick target w : navInv w -> navInv (fireClick target w).
Proof.
  intros Hinv. unfold fireClick.
  apply navInv_foldl; [intros l w0; apply navInv_clickListener|].
  destruct (getElementById target w) as [el|] eqn:Hel; [|done].
  destruct (onclick el) as [h|] eqn:Hon; [|done].
  apply navInv_reported. apply (navInv_runHandler w target); [done|].
  by apply (proj1 Hinv target el).
Qed.

Lemma navInv_clickById i w : navInv w -> navInv (exec (clickById i) w).
Proof. apply navInv_fireClick. Qed.

Lemma navInv_if {A} (b : bool) (m1 m2 : M A) w :
  (forall w0, navInv w0 -> navInv (exec m1 w0)) ->
  (forall w0, navInv w0 -> navInv (exec m2 w0)) ->
  navInv w -> navInv (exec (if b then m1 else m2) w).
Proof. destruct b; auto. Qed.

Lemma navInv_ret {A} (a : A) w : navInv w -> navInv (exec (ret a) w).
Proof. done. Qed.

Lemma navInv_onKeydown key w : navInv w -> navInv (exec (onKeydown key) w).
Proof.
  intros Hinv. unfold exec at 1. unfold onKeydown.
  destruct (_ && _); [done|].
  apply navInv_bind; [| |done].
  - intros w0. apply navInv_if; [|apply navInv_ret].
    intros w1. apply navInv_stable, nav_closeReader.
  - intros _ w0 Hinv0. unfold exec at 1.
    destruct (negb (readerIsOpen w0)); [done|].
    apply navInv_bind; [| |done].
    + intros w1. apply navInv_if; [apply navInv_clickById|apply navInv_ret].
    + intros _ w1. apply navInv_if; [apply navInv_clickById|apply navInv_ret].
Qed.

Lemma navInv_onTouchEnd x y w : navInv w -> navInv (exec (onTouchEnd x y) w).
Proof.
  intros Hinv. unfold exec at 1. unfold onTouchEnd.
  destruct (touch w) as [[x0 y0] active].
  destruct (negb active); [done|].
  apply navInv_bind; [| |done].
  - intros w0. apply navInv_stable. intros w1. by apply sameNav_fields.
  - intros _ w0 Hinv0. destruct (_ || _); [done|].
    apply navInv_bind; [| |done].
    + intros w1. apply navInv_if; [apply navInv_clickById|apply navInv_ret].
    + intros _ w1. apply navInv_if; [apply navInv_clickById|apply navInv_ret].
Qed.

Lemma navInv_otherListener l ev w :
  navInv w -> navInv (exec (otherListener l ev) w).
Proof.
  intros Hinv. destruct l, ev; simpl; try done;
    first [ by apply navInv_onKeydown
          | by apply navInv_onTouchEnd
          | revert Hinv; apply navInv_stable; solve [auto with nav] ].
Qed.

Lemma navInv_dispatch ev w : navInv w -> navInv (dispatch ev w).
Proof.
  intros Hinv. destruct ev; simpl;
    try (apply navInv_foldl; [intros l w0; apply navInv_otherListener|done]).
  - by apply navInv_fireClick.
  - destruct (tiles w !! n); [|done].
    by apply navInv_reported, navInv_openComicById.
Qed.

(** ** Initialisation establishes the invariant *)

Lemma pristine_navInv w : pristine w -> navInv w.
Proof.
  intros [Hidx Hnone]. split.
  - intros i el h Hel Hon. rewrite (Hnone i el Hel) in Hon. discriminate.
  - intros Hne. rewrite Hidx. destruct (comics (state w)); [done|]. simpl. lia.
Qed.

Lemma pristine_same w w' :
  currentIndex (state w') = currentIndex (state w) ->
  (forall i, onclick <$> getElementById i w' = onclick <$> getElementById i w) ->
  pristine w -> pristine w'.
Proof.
  intros Hi Hh [Hidx Hnone]. split; [by rewrite Hi|].
  intros i el Hel. specialize (Hh i). rewrite Hel in Hh. simpl in Hh.
  destruct (getElementById i w) as [el0|] eqn:Hel0; [|discriminate].
  simpl in Hh. rewrite (Hnone i el0 Hel0) in Hh. congruence.
Qed.

Lemma pristine_stable {A} (m : M A) w :
  stable sameNav m -> pristine w -> pristine (exec m w).
Proof.
  intros Hm. destruct (Hm w) as (_ & Hi & Hh). by apply pristine_same.
Qed.

Lemma exec_bind_keeps {A B} (P Q : World -> Prop) (m : M A) (k : A -> M B) w :
  (forall w0, P w0 -> Q w0) ->
  (forall w0, P w0 -> P (exec m w0)) ->
  (forall a w0, P w0 -> Q (exec (k a) w0)) ->
  P w -> Q (exec (bind m k) w).
Proof.
  intros HPQ Hm Hk HP. rewrite exec_bind. specialize (Hm w HP).
  unfold exec in Hm. destruct (m w) as [w1 [a|e]]; simpl in Hm; auto.
Qed.

Lemma navInv_set_onclick_open c w :
  navInv w ->
  navInv (updateElement "latestOpen" (set_onclick (Some (OnOpen c))) w).
Proof.
  intros [Hok Hrange]. split; [|done].
  intros j el h Hel Hon. rewrite getElementById_update in Hel.
  destruct (decide (j = "latestOpen")) as [->|Hne].
  - destruct (getElementById "latestOpen" w); [|discriminate].
    injection Hel as <-. simpl in Hon. injection Hon as <-. done.
  - by apply (Hok j el h).
Qed.

Lemma keeps_bind {A B} (P : World -> Prop) (m : M A) (k : A -> M B) :
  keeps P m -> (forall a, keeps P (k a)) -> keeps P (bind m k).
Proof.
  intros Hm Hk w HP. apply (exec_bind_keeps P P); auto.
Qed.

Lemma keeps_navInv_stable {A} (m : M A) : stable sameNav m -> keeps navInv m.
Proof. intros Hm w. by apply navInv_stable. Qed.

Lemma keeps_pristine_stable {A} (m : M A) : stable sameNav m -> keeps pristine m.
Proof. intros Hm w. by apply pristine_stable. Qed.

Ltac keeps_nav :=
  repeat (apply keeps_bind;
          [apply keeps_navInv_stable; solve [auto with nav]|intros _]).

Lemma keeps_renderLatest c : keeps navInv (renderLatest c).
Proof.
  unfold renderLatest. keeps_nav.
  intros w. apply navInv_set_onclick_open.
Qed.

Lemma nav_addSwipeListeners : stable sameNav addSwipeListeners.
Proof.
  assert (H : stable sameNav (addListener LTouchStart ;; addListener LTouchEnd)).
  { apply nav_bind; [apply nav_addListener|intros _; apply nav_addListener]. }
  intros w. unfold exec, addSwipeListeners.
  destruct (getElementById "readerImg" w), (getElementById "reader" w);
    first [apply sameNav_refl | apply H].
Qed.

Global Hint Resolve nav_addSwipeListeners : nav.

Lemma keeps_openFromHash : keeps navInv openFromHash.
Proof.
  intros w Hinv. unfold exec at 1. unfold openFromHash.
  destruct (getHashComic w) as [[|c s]|]; try done.
  revert w Hinv. keeps_nav. intros w. apply navInv_openComicById.
Qed.

Lemma keeps_renderAndWire : keeps navInv renderAndWire.
Proof.
  intros w Hinv. unfold exec at 1. unfold renderAndWire.
  destruct (last (comics (state w))) as [latest|].
  - generalize (comics (state w)). intros cs. revert w Hinv.
    apply keeps_bind; [apply keeps_renderLatest|intros _].
    keeps_nav. apply keeps_openFromHash.
  - cbn [fst]. eapply navInv_sameNav; [|done]. by apply sameNav_updateElement.
Qed.

Lemma keeps_pristine_modify f :
  (forall w, currentIndex (state (f w)) = currentIndex (state w)) ->
  (forall w, document (f w) = document w) ->
  keeps pristine (modify f).
Proof.
  intros Hi Hd w. apply pristine_same; [apply Hi|].
  intros i. unfold exec, modify, getElementById. simpl. by rewrite Hd.
Qed.

Lemma nav_gateUnlessAccepted : stable sameNav gateUnlessAccepted.
Proof.
  intros w. unfold exec, gateUnlessAccepted.
  destruct (hasAcceptedDisclaimer w);
    [apply sameNav_refl|apply nav_openDisclaimer].
Qed.

Lemma navInv_initBody lc f w : pristine w -> navInv (exec (initBody lc f) w).
Proof.
  unfold initBody, loadAndRender. revert w.
  assert (Hweak : forall w0, pristine w0 -> navInv w0)
    by apply pristine_navInv.
  intros w Hw.
  apply (exec_bind_keeps pristine navInv); [done| |intros _|done].
  { apply keeps_pristine_stable, nav_gateUnlessAccepted. }
  clear w Hw. intros w Hw.
  apply (exec_bind_keeps pristine navInv); [done| |intros d|done].
  { apply keeps_pristine_stable, nav_liftResult. }
  clear w Hw. intros w Hw.
  apply (exec_bind_keeps pristine navInv); [done| |intros _|done].
  { by apply keeps_pristine_modify. }
  clear w Hw. intros w Hw.
  apply (exec_bind_keeps pristine navInv); [done| |intros m|done].
  { apply keeps_pristine_stable. destruct d; [apply nav_throw|apply nav_ret]. }
  clear w Hw. intros w Hw.
  apply (exec_bind_keeps pristine navInv); [done| |intros _|done].
  { by apply keeps_pristine_modify. }
  clear w Hw. intros w Hw. apply Hweak in Hw. revert w Hw.
  keeps_nav. apply keeps_renderAndWire.
Qed.

Lemma navInv_init lc f w : pristine w -> navInv (exec (init lc f) w).
Proof.
  intros Hw. pose proof (navInv_initBody lc f w Hw) as Hbody.
  unfold init, exec, tryCatch in *.
  destruct (initBody lc f w) as [w1 [[]|e]]; cbn [fst] in *; [done|].
  revert Hbody. apply (navInv_stable _ w1).
  apply nav_bind; [|intros _; apply nav_setText].
  intros w0. by apply sameNav_fields.
Qed.

Lemma pristine_initialWorld page frag store :
  noHandlers page -> pristine (initialWorld page frag store).
Proof. intros Hpage. split; [done|]. intros i el. apply Hpage. Qed.

(** C6. The invariant of navigation puts the cursor within a non-empty
    collection. It holds once initialisation has run on a page as written,
    whatever the manifest, the fragment and the storage; every event keeps
    it, and so does every sequence of events; and so do the operations
    themselves: opening by id, opening from the fragment, and the handler
    of an enabled previous, next or latest button. *)
Theorem cursor_stays_in_range :
  (forall w, navInv w -> comics (state w) <> [] ->
             0 <= currentIndex (state w) < Z.of_nat (length (comics (state w))))
  /\ (forall lc f page frag store,
        noHandlers page ->
        navInv (exec (init lc f) (initialWorld page frag store)))
  /\ (forall ev w, navInv w -> navInv (dispatch ev w))
  /\ (forall evs w, navInv w -> navInv (foldl (fun w' ev => dispatch ev w') w evs))
  /\ (forall v w, navInv w -> navInv (exec (openComicById v) w))
  /\ (forall w, navInv w -> navInv (exec openFromHash w))
  /\ (forall i el h w,
        navInv w -> getElementById i w = Some el -> onclick el = Some h ->
        navInv (exec (runHandler h) w)).
Proof.
  split; [|split; [|split; [|split; [|split; [|split]]]]].
  - intros w [_ Hrange]. apply Hrange.
  - intros lc f page frag store Hpage.
    by apply navInv_init, pristine_initialWorld.
  - intros ev w. apply navInv_dispatch.
  - intros evs. induction evs as [|ev evs IH]; intros w Hinv; simpl; [done|].
    by apply IH, navInv_dispatch.
  - intros v w. apply navInv_openComicById.
  - apply keeps_openFromHash.
  - intros i el h w Hinv Hel Hon.
    apply (navInv_runHandler w i); [done|]. by apply (proj1 Hinv i el).
Qed.

(** ** The scenario of the two-entry manifest *)

Example sample_sorted : comics (state sampleWorld) = [entryA; entryB].
Proof. vm_compute. reflexivity. Qed.

Example sample_gate_open :
  disclaimerIsOpen sampleWorld = true /\ readerIsOpen sampleWorld = false.
Proof. vm_compute. done. Qed.

Example sample_tiles : tiles sampleWorld = [lit "001"; lit "002"].
Proof. vm_compute. reflexivity. Qed.

Example sample_open_001 :
  let w := dispatch (ClickTile 0) sampleWorld in
  currentIndex (state w) = 0
  /\ readerIsOpen w = true
  /\ btnDisabled "btnPrev" w = true
  /\ btnEnabled "btnNext" w = true
  /\ btnEnabled "btnLatest" w = true
  /\ fragment w = Some (lit "c=001")
  /\ getHashComic w = Some (lit "001").
Proof. vm_compute. done. Qed.

Example sample_next_then_escape :
  let w1 := dispatch (ClickTile 0) sampleWorld in
  let w2 := dispatch (KeyDown (lit "ArrowRight")) w1 in
  let w3 := dispatch (KeyDown (lit "Escape")) w2 in
  let w4 := dispatch (Click "discAccept") w3 in
  let w5 := dispatch (KeyDown (lit "Escape")) w4 in
  currentIndex (state w2) = 1
  /\ btnDisabled "btnNext" w2 = true
  /\ fragment w2 = Some (lit "c=002")
  /\ readerIsOpen w3 = true
  /\ hasAcceptedDisclaimer w4 = true
  /\ disclaimerIsOpen w4 = false
  /\ readerIsOpen w5 = false.
Proof. vm_compute. done. Qed.

Lemma noHandlers_samplePage : noHandlers samplePage.
Proof.
  intros i el Hel. unfold samplePage in Hel.
  apply elem_of_list_to_map_2 in Hel.
  apply list_elem_of_fmap in Hel as (j & Heq & _).
  by injection Heq as -> ->.
Qed.

Lemma navInv_sampleWorld : navInv sampleWorld.
Proof. apply navInv_init, pristine_initialWorld, noHandlers_samplePage. Qed.

(** C5 on the sample world, where the cursor is at the first of two
    entries: previous is disabled, next and latest are enabled. *)
Lemma renderReader_button_states_sample :
  0 <= currentIndex (state sampleWorld)
    < Z.of_nat (length (comics (state sampleWorld)))
  /\ is_Some (getElementById "btnPrev" sampleWorld)
  /\ is_Some (getElementById "btnNext" sampleWorld)
  /\ is_Some (getElementById "btnLatest" sampleWorld)
  /\ btnDisabled "btnPrev" (exec renderReader sampleWorld) = true
  /\ btnEnabled "btnNext" (exec renderReader sampleWorld) = true
  /\ btnEnabled "btnLatest" (exec renderReader sampleWorld) = true.
Proof.
  assert (H0 : 0 <= currentIndex (state sampleWorld)
               < Z.of_nat (length (comics (state sampleWorld))))
    by (vm_compute; split; [discriminate|reflexivity]).
  assert (H1 : is_Some (getElementById "btnPrev" sampleWorld))
    by (eexists; vm_compute; reflexivity).
  assert (H2 : is_Some (getElementById "btnNext" sampleWorld))
    by (eexists; vm_compute; reflexivity).
  assert (H3 : is_Some (getElementById "btnLatest" sampleWorld))
    by (eexists; vm_compute; reflexivity).
  destruct (renderReader_button_states sampleWorld H0 H1 H2 H3)
    as (_ & Hprev & _ & _ & Hnext & Hlatest & _).
  split; [exact H0|]. split; [exact H1|]. split; [exact H2|].
  split; [exact H3|]. split; [|split].
  - apply Hprev. reflexivity.
  - apply Hnext. vm_compute. discriminate.
  - exact Hlatest.
Defined.

(** C6 on the sample page: after initialisation and a run of events the
    cursor is a position of the collection. *)
Lemma cursor_stays_in_range_sample :
  let events := [ClickTile 1; KeyDown (lit "ArrowLeft"); Click "btnLatest";
                 TouchStart 200 10; TouchEnd 90 20; Click "btnStart"] in
  let w := foldl (fun w' ev => dispatch ev w') sampleWorld events in
  0 <= currentIndex (state w) < Z.of_nat (length (comics (state w))).
Proof.
  intros events w.
  destruct cursor_stays_in_range as (Hrange & Hinit & _ & Hrun & _).
  apply Hrange.
  - apply Hrun. apply Hinit. apply noHandlers_samplePage.
  - vm_compute. discriminate.
Defined.

(** ** The disclaimer gate *)

Lemma gateKept_refl w : gateKept w w.
Proof. by split. Qed.

Lemma gateKept_trans w1 w2 w3 : gateKept w1 w2 -> gateKept w2 w3 -> gateKept w1 w3.
Proof. intros [Hs1 Ho1] [Hs2 Ho2]. split; [congruence|auto]. Qed.

Lemma gateKept_fields w w' :
  storage w' = storage w -> document w' = document w -> gateKept w w'.
Proof.
  intros Hs Hd. split; [done|].
  unfold disclaimerIsOpen, getElementById. by rewrite Hd.
Qed.

Lemma gateKept_updateElement i f w :
  i <> "disclaimer" -> gateKept w (updateElement i f w).
Proof.
  intros Hne. split; [done|]. unfold disclaimerIsOpen.
  rewrite getElementById_update. by rewrite decide_False.
Qed.

Lemma gateKept_reports w l : gateKept w (set_reports l w).
Proof. by apply gateKept_fields. Qed.

Create HintDb gate.

Lemma gate_ret {A} (a : A) : stable gateKept (ret a).
Proof. apply stable_ret, gateKept_refl. Qed.

Lemma gate_throw {A} e : stable gateKept (@throw A e).
Proof. apply stable_throw, gateKept_refl. Qed.

Lemma gate_liftResult {A} (r : result A) : stable gateKept (liftResult r).
Proof. apply stable_liftResult, gateKept_refl. Qed.

Lemma gate_bind {A B} (m : M A) (k : A -> M B) :
  stable gateKept m -> (forall a, stable gateKept (k a)) ->
  stable gateKept (bind m k).
Proof. apply stable_bind, gateKept_trans. Qed.

Lemma gate_if {A} (b : bool) (m1 m2 : M A) :
  stable gateKept m1 -> stable gateKept m2 ->
  stable gateKept (if b then m1 else m2).
Proof. by destruct b. Qed.

Lemma gate_setCurrentTab tab : stable gateKept (setCurrentTab tab).
Proof. intros w. by apply gateKept_fields. Qed.

Lemma gate_with_element {A} i (f : Element -> Element) (g : World -> World)
    (r1 r2 : result A) :
  i <> "disclaimer" ->
  (forall w, gateKept w (g w)) ->
  stable gateKept (fun w =>
    match getElementById i w with
    | None => (w, r1)
    | Some _ => (g (updateElement i f w), r2)
    end).
Proof.
  intros Hi Hg w. unfold exec. destruct (getElementById i w); cbn [fst].
  - eapply gateKept_trans; [by apply gateKept_updateElement|apply Hg].
  - apply gateKept_refl.
Qed.

Lemma gate_openReader : stable gateKept openReader.
Proof. apply gate_with_element; [done|]. intros w. by apply gateKept_fields. Qed.

Lemma gate_closeReader : stable gateKept closeReader.
Proof. apply gate_with_element; [done|]. intros w. by apply gateKept_fields. Qed.

Lemma gate_openDisclaimer : stable gateKept openDisclaimer.
Proof.
  intros w. unfold exec, openDisclaimer.
  destruct (getElementById "disclaimer" w) as [d|] eqn:Hd; [|apply gateKept_refl].
  split; [done|]. intros _. cbn [fst]. unfold disclaimerIsOpen.
  change (getElementById "disclaimer" (set_rootOverflow ?o ?w0))
    with (getElementById "disclaimer" w0).
  rewrite getElementById_update, decide_True, Hd by done. simpl.
  unfold hasAttribute. simpl. apply bool_decide_eq_true.
  by rewrite lookup_insert_eq.
Qed.

Lemma gate_setHash v : stable gateKept (setHash v).
Proof.
  apply gate_bind; [apply gate_liftResult|]. intros enc w.
  by apply gateKept_fields.
Qed.

Lemma gate_renderReader : stable gateKept renderReader.
Proof.
  intros w. unfold exec, renderReader.
  destruct (comicAt w (currentIndex (state w))); [|apply gateKept_refl].
  unfold bind, setText, setAttr, setBtn, preload, modify. cbn [fst].
  eapply gateKept_trans; [|by apply gateKept_fields].
  repeat (eapply gateKept_trans; [|by apply gateKept_updateElement]).
  apply gateKept_refl.
Qed.

Lemma gate_openComicById v : stable gateKept (openComicById v).
Proof.
  intros w. unfold exec at 1. unfold openComicById.
  destruct (findIndex v (comics (state w))); [|apply gateKept_refl].
  revert w. apply gate_bind; [intros w; by apply gateKept_fields|intros _].
  apply gate_bind; [apply gate_renderReader|intros _].
  apply gate_bind; [apply gate_setHash|intros _; apply gate_openReader].
Qed.

Lemma gate_runHandler h : stable gateKept (runHandler h).
Proof.
  destruct h as [o|o|o|c]; simpl; try apply gate_openComicById;
    (apply gate_bind; [intros w; by apply gateKept_fields|intros _];
     apply gate_bind; [apply gate_renderReader|intros _];
     apply gate_bind; [destruct o; [apply gate_ret|apply gate_throw]|];
     intros v; apply gate_setHash).
Qed.

Lemma gate_openAt i : stable gateKept (openAt i).
Proof.
  intros w. unfold exec at 1. unfold openAt.
  destruct (comicAt w i); [apply gate_openComicById|apply gateKept_refl].
Qed.

Lemma gate_clickListener l target :
  target <> "discAccept" -> stable gateKept (clickListener l target).
Proof.
  intros Hne. destruct l; simpl; try apply gate_ret;
    case_bool_decide; try apply gate_ret; try done.
  - apply gate_openDisclaimer.
  - apply gate_openAt.
  - intros w. apply gate_openAt.
  - apply gate_closeReader.
  - apply gate_closeReader.
Qed.

Lemma gate_fireClick target w :
  target <> "discAccept" -> gateKept w (fireClick target w).
Proof.
  intros Hne. unfold fireClick.
  eapply gateKept_trans;
    [|apply (stable_foldl gateKept gateKept_refl gateKept_trans gateKept_reports);
      intros l; by apply gate_clickListener].
  destruct (getElementById target w) as [el|]; [|apply gateKept_refl].
  destruct (onclick el) as [h|]; [|apply gateKept_refl].
  apply (stable_reported gateKept gateKept_trans gateKept_reports).
  apply gate_runHandler.
Qed.

Lemma gate_clickById i : i <> "discAccept" -> stable gateKept (clickById i).
Proof. intros Hne w. by apply gate_fireClick. Qed.

Lemma gate_onKeydown key : stable gateKept (onKeydown key).
Proof.
  intros w. unfold exec at 1. unfold onKeydown.
  destruct (_ && _); [apply gateKept_refl|].
  revert w. apply gate_bind; [apply gate_if; [apply gate_closeReader|apply gate_ret]|].
  intros _ w. unfold exec at 1.
  destruct (negb (readerIsOpen w)); [apply gateKept_refl|].
  revert w. apply gate_bind; [|intros _];
    (apply gate_if; [by apply gate_clickById|apply gate_ret]).
Qed.

Lemma gate_onTouchStart x y : stable gateKept (onTouchStart x y).
Proof.
  intros w. unfold exec, onTouchStart.
  destruct (negb _); [apply gateKept_refl|by apply gateKept_fields].
Qed.

Lemma gate_onTouchEnd x y : stable gateKept (onTouchEnd x y).
Proof.
  intros w. unfold exec at 1. unfold onTouchEnd.
  destruct (touch w) as [[x0 y0] active].
  destruct (negb active); [apply gateKept_refl|].
  revert w. apply gate_bind; [intros w; by apply gateKept_fields|intros _].
  destruct (_ || _); [apply gate_ret|].
  apply gate_bind; [|intros _];
    (apply gate_if; [by apply gate_clickById|apply gate_ret]).
Qed.

Lemma gate_otherListener l ev : stable gateKept (otherListener l ev).
Proof.
  destruct l, ev; simpl; try apply gate_ret.
  - apply gate_setCurrentTab.
  - apply gate_onKeydown.
  - apply gate_onTouchStart.
  - apply gate_onTouchEnd.
Qed.

Lemma gate_dispatch ev w : ev <> Click "discAccept" -> gateKept w (dispatch ev w).
Proof.
  intros Hne. destruct ev; simpl;
    try (apply (stable_foldl gateKept gateKept_refl gateKept_trans
                  gateKept_reports); intros l; apply gate_otherListener).
  - apply gate_fireClick. congruence.
  - destruct (tiles w !! n); [|apply gateKept_refl].
    apply (stable_reported gateKept gateKept_trans gateKept_reports).
    apply gate_openComicById.
Qed.

Lemma foldl_fixed {L} (f : World -> L -> World) (ls : list L) w :
  (forall l, f w l = w) -> foldl f w ls = w.
Proof.
  intros Hf. induction ls as [|l ls IH]; simpl; [done|]. by rewrite Hf.
Qed.

Lemma escape_ignored_while_gate_open w :
  disclaimerIsOpen w = true -> dispatch (KeyDown (lit "Escape")) w = w.
Proof.
  intros Hopen. simpl. apply foldl_fixed. intros l.
  destruct l; try reflexivity.
  unfold reported, otherListener, onKeydown. by rewrite Hopen.
Qed.

Lemma clickListener_overlay l w : clickListener l "disclaimer" w = (w, Ok tt).
Proof. by destruct l. Qed.

Lemma overlay_click_ignored w :
  navInv w -> dispatch (Click "disclaimer") w = w.
Proof.
  intros [Hok _]. simpl. unfold fireClick.
  assert (Hnone : match getElementById "disclaimer" w with
                  | Some el =>
                      match onclick el with
                      | Some h => reported (runHandler h) w
                      | None => w
                      end
                  | None => w
                  end = w).
  { destruct (getElementById "disclaimer" w) as [el|] eqn:Hel; [|done].
    destruct (onclick el) as [h|] eqn:Hon; [|done].
    specialize (Hok "disclaimer" el h Hel Hon).
    destruct h; simpl in Hok; try discriminate; by destruct Hok. }
  rewrite Hnone. apply foldl_fixed. intros l.
  unfold reported. by rewrite clickListener_overlay.
Qed.

Lemma accept_step_other l w :
  l <> LDiscAccept -> reported (clickListener l "discAccept") w = w.
Proof. intros Hne. by destruct l. Qed.

Lemma accept_step w items :
  storage w = Some items ->
  let w' := reported (clickListener LDiscAccept "discAccept") w in
  storage w' = Some (<[DISCLAIMER_KEY := lit "true"]> items)
  /\ disclaimerIsOpen w' = false.
Proof.
  intros Hs. cbn zeta.
  unfold reported, clickListener. simpl.
  unfold acceptDisclaimer, bind, modify, closeDisclaimer. rewrite Hs.
  change (getElementById "disclaimer" (set_storage ?s ?w0))
    with (getElementById "disclaimer" w0).
  destruct (getElementById "disclaimer" w) as [d|] eqn:Hd.
  - split; [done|]. unfold disclaimerIsOpen.
    change (getElementById "disclaimer" (set_rootOverflow ?o ?w0))
      with (getElementById "disclaimer" w0).
    rewrite getElementById_update, decide_True by done.
    change (getElementById "disclaimer" (set_storage ?s ?w0))
      with (getElementById "disclaimer" w0).
    rewrite Hd. simpl. unfold hasAttribute. simpl.
    apply bool_decide_eq_false. rewrite lookup_delete_eq. by intros [? [=]].
  - split; [done|]. unfold disclaimerIsOpen.
    change (getElementById "disclaimer" (set_storage ?s ?w0))
      with (getElementById "disclaimer" w0).
    by rewrite Hd.
Qed.

Lemma accept_fold ls : forall w items,
  storage w = Some items ->
  (LDiscAccept ∈ ls
   \/ (items !! DISCLAIMER_KEY = Some (lit "true") /\ disclaimerIsOpen w = false)) ->
  let w' := foldl (fun w0 l => reported (clickListener l "discAccept") w0) w ls in
  hasAcceptedDisclaimer w' = true /\ disclaimerIsOpen w' = false.
Proof.
  induction ls as [|l ls IH]; intros w items Hs Hcase; simpl.
  - destruct Hcase as [Hin|[Hacc Hclosed]]; [by apply elem_of_nil in Hin|].
    split; [|done]. unfold hasAcceptedDisclaimer. rewrite Hs.
    by apply bool_decide_eq_true.
  - destruct (decide (l = LDiscAccept)) as [->|Hne].
    + destruct (accept_step w items Hs) as [Hs' Hclosed'].
      apply (IH _ _ Hs'). right. split; [apply lookup_insert_eq|done].
    + rewrite accept_step_other by done. apply (IH _ _ Hs).
      destruct Hcase as [Hin|Hdone]; [|by right].
      left. apply elem_of_cons in Hin as [Heq|Hin]; [congruence|done].
Qed.

Lemma accept_click_acknowledges w items :
  navInv w -> storage w = Some items -> LDiscAccept ∈ listeners w ->
  hasAcceptedDisclaimer (dispatch (Click "discAccept") w) = true
  /\ disclaimerIsOpen (dispatch (Click "discAccept") w) = false.
Proof.
  intros [Hok _] Hs Hin. simpl. unfold fireClick.
  assert (Hnone : match getElementById "discAccept" w with
                  | Some el =>
                      match onclick el with
                      | Some h => reported (runHandler h) w
                      | None => w
                      end
                  | None => w
                  end = w).
  { destruct (getElementById "discAccept" w) as [el|] eqn:Hel; [|done].
    destruct (onclick el) as [h|] eqn:Hon; [|done].
    specialize (Hok "discAccept" el h Hel Hon).
    destruct h; simpl in Hok; try discriminate; by destruct Hok. }
  rewrite Hnone. apply (accept_fold _ w items Hs). by left.
Qed.

(** *** The gate during initialisation *)

Lemma gate_setText i t : i <> "disclaimer" -> stable gateKept (setText i t).
Proof. intros Hi w. by apply gateKept_updateElement. Qed.

Lemma gate_setAttr i a v : i <> "disclaimer" -> stable gateKept (setAttr i a v).
Proof. intros Hi w. by apply gateKept_updateElement. Qed.

Lemma gate_addListener l : stable gateKept (addListener l).
Proof. intros w. by apply gateKept_fields. Qed.

Lemma gate_addListenerOn i l : stable gateKept (addListenerOn i l).
Proof.
  intros w. unfold exec, addListenerOn.
  destruct (getElementById i w); [apply gate_addListener|apply gateKept_refl].
Qed.

Lemma gate_disclaimerInteractions : stable gateKept disclaimerInteractions.
Proof.
  apply gate_bind; [|intros _; apply gate_bind; [|intros _]];
    try apply gate_addListenerOn.
  intros w. unfold exec, addListenerOnceOn.
  destruct (bool_decide _); [apply gateKept_refl|apply gate_addListenerOn].
Qed.

Lemma gate_renderLatest c : stable gateKept (renderLatest c).
Proof.
  unfold renderLatest.
  repeat (apply gate_bind;
          [first [by apply gate_setText | by apply gate_setAttr]|intros _]).
  intros w. by apply gateKept_updateElement.
Qed.

Lemma gate_renderGrid cs : stable gateKept (renderGrid cs).
Proof.
  intros w. unfold exec, renderGrid.
  destruct (getElementById "archiveGrid" w); [|apply gateKept_refl].
  destruct (tilesMarkup cs) as [ms|]; cbn [fst]; [|apply gateKept_refl].
  apply (gateKept_trans _
           (updateElement "archiveGrid" (set_innerHTML (concat ms)) w));
    [by apply gateKept_updateElement|by apply gateKept_fields].
Qed.

Lemma gate_openFromHash : stable gateKept openFromHash.
Proof.
  intros w. unfold exec at 1. unfold openFromHash.
  destruct (getHashComic w) as [[|c s]|]; try apply gateKept_refl.
  revert w. apply gate_bind; [apply gate_setCurrentTab|intros _].
  apply gate_bind; [apply gate_disclaimerInteractions|intros _].
  apply gate_openComicById.
Qed.

Lemma gate_renderAndWire : stable gateKept renderAndWire.
Proof.
  intros w. unfold exec at 1. unfold renderAndWire.
  destruct (last (comics (state w))) as [latest|];
    [|by apply gateKept_updateElement].
  generalize (comics (state w)). intros cs. revert w.
  apply gate_bind; [apply gate_renderLatest|intros _].
  apply gate_bind; [apply gate_renderGrid|intros _].
  apply gate_bind; [apply gate_addListener|intros _].
  apply gate_bind; [apply gate_setCurrentTab|intros _].
  apply gate_bind; [apply gate_disclaimerInteractions|intros _].
  do 4 (apply gate_bind; [apply gate_addListenerOn|intros _]).
  apply gate_bind; [apply gate_addListener|intros _].
  apply gate_bind; [|intros _; apply gate_openFromHash].
  intros w. unfold exec, addSwipeListeners.
  destruct (getElementById "readerImg" w), (getElementById "reader" w);
    first [ apply gateKept_refl
          | apply (gate_bind (addListener LTouchStart)
                     (fun _ => addListener LTouchEnd));
            [apply gate_addListener|intros _; apply gate_addListener] ].
Qed.

Lemma gate_loadAndRender lc f : stable gateKept (loadAndRender lc f).
Proof.
  unfold loadAndRender.
  apply gate_bind; [apply gate_liftResult|intros d].
  apply gate_bind; [intros w; by apply gateKept_fields|intros _].
  apply gate_bind; [destruct d; [apply gate_throw|apply gate_ret]|intros m].
  apply gate_bind; [intros w; by apply gateKept_fields|intros _].
  do 3 (apply gate_bind; [by apply gate_setText|intros _]).
  apply gate_renderAndWire.
Qed.

Lemma init_opens_gate lc f w :
  is_Some (getElementById "disclaimer" w) ->
  hasAcceptedDisclaimer w = false ->
  disclaimerIsOpen (exec (init lc f) w) = true.
Proof.
  intros [d Hd] Hno.
  assert (Hopen : disclaimerIsOpen (exec openDisclaimer w) = true).
  { unfold exec, openDisclaimer. rewrite Hd. cbn [fst]. unfold disclaimerIsOpen.
    change (getElementById "disclaimer" (set_rootOverflow ?o ?w0))
      with (getElementById "disclaimer" w0).
    rewrite getElementById_update, decide_True, Hd by done. simpl.
    unfold hasAttribute. simpl. apply bool_decide_eq_true.
    by rewrite lookup_insert_eq. }
  assert (Hinit : exec (init lc f) w
                  = exec (tryCatch (loadAndRender lc f)
                            (fun e =>
                               modify (fun w0 =>
                                 set_reports (reports w0 ++ [Logged e]) w0) ;;
                               setText "pageError" pageErrorText))
                      (exec openDisclaimer w)).
  { unfold init, initBody, exec, tryCatch. unfold bind at 1.
    unfold gateUnlessAccepted. rewrite Hno, openDisclaimer_Ok. reflexivity. }
  rewrite Hinit.
  assert (Hstable : stable gateKept
                      (tryCatch (loadAndRender lc f)
                         (fun e =>
                            modify (fun w0 =>
                              set_reports (reports w0 ++ [Logged e]) w0) ;;
                            setText "pageError" pageErrorText))).
  { apply (stable_tryCatch gateKept gateKept_trans);
      [apply gate_loadAndRender|].
    intros e. apply gate_bind; [intros w0; by apply gateKept_fields|intros _].
    by apply gate_setText. }
  by apply (Hstable (exec openDisclaimer w)).
Qed.

(** C10. On a page that has the disclaimer, initialisation leaves it open
    when it has not been accepted. While the disclaimer is open, an Escape
    key press changes nothing; a click on the overlay changes nothing
    either; no event other than the click on the accept button changes what
    is stored or closes an open disclaimer, so only that click can take the
    gate to acknowledged; and that click, once the listener is in place and
    the storage works, does acknowledge and close it. *)
Theorem disclaimer_gate_blocks_dismissal :
  (forall lc f w,
      is_Some (getElementById "disclaimer" w) ->
      hasAcceptedDisclaimer w = false ->
      disclaimerIsOpen (exec (init lc f) w) = true)
  /\ (forall w, disclaimerIsOpen w = true ->
             dispatch (KeyDown (lit "Escape")) w = w)
  /\ (forall w, navInv w -> dispatch (Click "disclaimer") w = w)
  /\ (forall ev w, ev <> Click "discAccept" ->
        storage (dispatch ev w) = storage w
        /\ (disclaimerIsOpen w = true ->
            disclaimerIsOpen (dispatch ev w) = true))
  /\ (forall ev w,
        hasAcceptedDisclaimer w = false ->
        hasAcceptedDisclaimer (dispatch ev w) = true ->
        ev = Click "discAccept")
  /\ (forall w items,
        navInv w -> storage w = Some items -> LDiscAccept ∈ listeners w ->
        hasAcceptedDisclaimer (dispatch (Click "discAccept") w) = true
        /\ disclaimerIsOpen (dispatch (Click "discAccept") w) = false).
Proof.
  split; [|split; [|split; [|split; [|split]]]].
  - apply init_opens_gate.
  - apply escape_ignored_while_gate_open.
  - apply overlay_click_ignored.
  - intros ev w Hne. by apply gate_dispatch.
  - intros ev w Hno Hyes.
    assert (Hkept : ev <> Click "discAccept" ->
                    hasAcceptedDisclaimer (dispatch ev w)
                    = hasAcceptedDisclaimer w).
    { intros Hne. destruct (gate_dispatch ev w Hne) as [Hs _].
      unfold hasAcceptedDisclaimer. by rewrite Hs. }
    destruct ev as [target| | | | |];
      try (rewrite Hkept in Hyes by discriminate; congruence).
    destruct (decide (target = "discAccept")) as [->|Hne]; [done|].
    rewrite Hkept in Hyes by congruence. congruence.
  - apply accept_click_acknowledges.
Qed.

(** C10 on the sample world, where the disclaimer is open: Escape and a
    click on the overlay leave the world as it is. *)
Lemma disclaimer_gate_sample :
  disclaimerIsOpen sampleWorld = true
  /\ dispatch (KeyDown (lit "Escape")) sampleWorld = sampleWorld
  /\ dispatch (Click "disclaimer") sampleWorld = sampleWorld
  /\ hasAcceptedDisclaimer (dispatch (Click "discAccept") sampleWorld) = true.
Proof.
  destruct disclaimer_gate_blocks_dismissal as (_ & Hesc & Hclick & _ & _ & Hacc).
  assert (Hopen : disclaimerIsOpen sampleWorld = true) by (vm_compute; reflexivity).
  pose proof navInv_sampleWorld as Hinv.
  split; [exact Hopen|]. split; [by apply Hesc|]. split; [by apply Hclick|].
  apply (Hacc sampleWorld ∅); [exact Hinv|vm_compute; reflexivity|].
  vm_compute. apply list_elem_of_further, list_elem_of_here.
Defined.

(** ** Failure to load the manifest *)

Lemma openDisclaimer_frame w :
  let w' := exec openDisclaimer w in
  state w' = state w /\ tiles w' = tiles w /\ listeners w' = listeners w
  /\ fragment w' = fragment w /\ reports w' = reports w
  /\ forall i, i <> "disclaimer" -> getElementById i w' = getElementById i w.
Proof.
  unfold exec, openDisclaimer.
  destruct (getElementById "disclaimer" w); cbn [fst]; repeat split; try done.
  intros i Hi.
  change (getElementById i (set_rootOverflow ?o ?w0)) with (getElementById i w0).
  rewrite getElementById_update. by rewrite decide_False.
Qed.



Example load_failure_sample :
  let w := exec (init Collation.collate (Response false None))
             (initialWorld samplePage None (Some ∅)) in
  textContent <$> getElementById "pageError" w = Some pageErrorText
  /\ innerHTML <$> getElementById "archiveGrid" w = Some []
  /\ readerIsOpen w = false
  /\ reports w = [Logged CouldNotLoad].
Proof. vm_compute. done. Qed.


(** ** Percent-encoding and UTF-8 *)

Module UriFacts.
Import Uri.

Ltac decide_tests :=
  repeat match goal with
    | |- context [?a <=? ?b] =>
        first [ rewrite (proj2 (Z.leb_le a b)) by (Z.div_mod_to_equations; lia)
              | rewrite (proj2 (Z.leb_gt a b)) by (Z.div_mod_to_equations; lia) ]
    | |- context [?a <? ?b] =>
        first [ rewrite (proj2 (Z.ltb_lt a b)) by (Z.div_mod_to_equations; lia)
              | rewrite (proj2 (Z.ltb_ge a b)) by (Z.div_mod_to_equations; lia) ]
    | |- context [?a =? ?b] =>
        first [ rewrite (proj2 (Z.eqb_eq a b)) by (Z.div_mod_to_equations; lia)
              | rewrite (proj2 (Z.eqb_neq a b)) by (Z.div_mod_to_equations; lia) ]
    end.

Lemma unhex_hexDigit d : 0 <= d < 16 -> unhex (hexDigit d) = Some d.
Proof.
  intros Hd. unfold hexDigit, unhex.
  destruct (Z.ltb_spec d 10).
  - decide_tests. simpl. f_equal. lia.
  - decide_tests. simpl. f_equal. lia.
Qed.

Lemma percentDecode_percent b rest :
  0 <= b < 256 ->
  percentDecode (percent b ++ rest) = b :: percentDecode rest.
Proof.
  intros Hb. unfold percent. simpl.
  rewrite !unhex_hexDigit by (Z.div_mod_to_equations; lia).
  f_equal. Z.div_mod_to_equations. lia.
Qed.

Lemma percentDecode_plain c rest :
  c <> 37 -> percentDecode (c :: rest) = c :: percentDecode rest.
Proof. intros Hc. simpl. by rewrite (proj2 (Z.eqb_neq c 37)). Qed.

Lemma percentDecode_bytes bs rest :
  Forall (fun b => 0 <= b < 256) bs ->
  percentDecode (flat_map percent bs ++ rest) = bs ++ percentDecode rest.
Proof.
  induction 1 as [|b bs Hb _ IH]; [done|].
  cbn [flat_map]. rewrite <- app_assoc, percentDecode_percent by done.
  by rewrite IH.
Qed.

Lemma utf8_bytes c : isScalarValue c -> Forall (fun b => 0 <= b < 256) (utf8 c).
Proof.
  intros [Hc _]. unfold utf8.
  destruct (Z.ltb_spec c 0x80); [repeat constructor; lia|].
  destruct (Z.ltb_spec c 0x800);
    [repeat constructor; Z.div_mod_to_equations; lia|].
  destruct (Z.ltb_spec c 0x10000);
    repeat constructor; Z.div_mod_to_equations; lia.
Qed.

Lemma decode_utf8 c rest :
  isScalarValue c ->
  decodeFrom idle (utf8 c ++ rest) = c :: decodeFrom idle rest.
Proof.
  intros [Hc Hs]. unfold utf8.
  destruct (Z.ltb_spec c 0x80).
  { cbn [app decodeFrom]. unfold decodeByte, decodeLead. cbn [needed idle].
    decide_tests. reflexivity. }
  destruct (Z.ltb_spec c 0x800).
  { cbn [app decodeFrom]. unfold decodeByte at 1. unfold decodeLead.
    cbn [needed idle]. decide_tests. cbn [andb app].
    unfold decodeByte. cbn [needed lower upper acc].
    decide_tests. cbn [andb app]. f_equal. Z.div_mod_to_equations. lia. }
  destruct (Z.ltb_spec c 0x10000).
  { cbn [app decodeFrom]. unfold decodeByte at 1. unfold decodeLead.
    cbn [needed idle]. decide_tests. cbn [andb app].
    unfold decodeByte at 1. cbn [needed lower upper acc].
    assert (Hlo : (if 224 + c / 4096 =? 224 then 160 else 128)
                  <= 128 + c / 64 mod 64).
    { destruct (Z.eqb_spec (224 + c / 4096) 224); Z.div_mod_to_equations; lia. }
    assert (Hhi : 128 + c / 64 mod 64
                  <= (if 224 + c / 4096 =? 237 then 159 else 191)).
    { destruct (Z.eqb_spec (224 + c / 4096) 237); Z.div_mod_to_equations; lia. }
    rewrite (proj2 (Z.leb_le _ _) Hlo), (proj2 (Z.leb_le _ _) Hhi).
    decide_tests. cbn [andb app].
    unfold decodeByte. cbn [needed lower upper acc].
    decide_tests. cbn [andb app]. f_equal. Z.div_mod_to_equations. lia. }
  cbn [app decodeFrom]. unfold decodeByte at 1. unfold decodeLead.
  cbn [needed idle]. decide_tests. cbn [andb app].
  unfold decodeByte at 1. cbn [needed lower upper acc].
  assert (Hlo : (if 240 + c / 262144 =? 240 then 144 else 128)
                <= 128 + c / 4096 mod 64).
  { destruct (Z.eqb_spec (240 + c / 262144) 240); Z.div_mod_to_equations; lia. }
  assert (Hhi : 128 + c / 4096 mod 64
                <= (if 240 + c / 262144 =? 244 then 143 else 191)).
  { destruct (Z.eqb_spec (240 + c / 262144) 244); Z.div_mod_to_equations; lia. }
  rewrite (proj2 (Z.leb_le _ _) Hlo), (proj2 (Z.leb_le _ _) Hhi).
  decide_tests. cbn [andb app].
  unfold decodeByte at 1. cbn [needed lower upper acc].
  decide_tests. cbn [andb app].
  unfold decodeByte. cbn [needed lower upper acc].
  decide_tests. cbn [andb app]. f_equal. Z.div_mod_to_equations. lia.
Qed.


Lemma encodePoints_scalars cs :
  encodePoints (Scalar <$> cs) = Ok (flat_map encodeScalar cs).
Proof.
  induction cs as [|c cs IH]; [done|].
  cbn [fmap list_fmap encodePoints]. fold (@fmap list _ _ _ Scalar cs).
  by rewrite IH.
Qed.


Lemma unreserved_cases c :
  unreserved c = true ->
  48 <= c <= 57 \/ 65 <= c <= 90 \/ 97 <= c <= 122
  \/ c = 45 \/ c = 95 \/ c = 46 \/ c = 33 \/ c = 126 \/ c = 42
  \/ c = 39 \/ c = 40 \/ c = 41.
Proof.
  unfold unreserved, isAlnum. rewrite !orb_true_iff, !andb_true_iff.
  rewrite bool_decide_eq_true, !Z.leb_le. elem_lia.
Qed.

Lemma hexDigit_unreserved d : 0 <= d < 16 -> unreserved (hexDigit d) = true.
Proof.
  intros Hd. unfold unreserved, isAlnum, hexDigit.
  destruct (Z.ltb_spec d 10); decide_tests; reflexivity.
Qed.

Lemma percent_inert b : 0 <= b < 256 -> Forall inertUnit (percent b).
Proof.
  intros Hb. unfold percent.
  constructor; [by right|].
  constructor; [left; apply hexDigit_unreserved; Z.div_mod_to_equations; lia|].
  constructor; [left; apply hexDigit_unreserved; Z.div_mod_to_equations; lia|].
  constructor.
Qed.

Lemma encodeScalar_inert c : isScalarValue c -> Forall inertUnit (encodeScalar c).
Proof.
  intros Hc. unfold encodeScalar. destruct (unreserved c) eqn:Hu.
  - constructor; [by left|constructor].
  - pose proof (utf8_bytes c Hc) as Hb.
    induction Hb as [|b bs Hb _ IH]; [constructor|].
    cbn [flat_map]. apply Forall_app. split; [by apply percent_inert|done].
Qed.

Lemma encoded_inert cs :
  Forall isScalarValue cs -> Forall inertUnit (flat_map encodeScalar cs).
Proof.
  induction 1 as [|c cs Hc _ IH]; [constructor|].
  cbn [flat_map]. apply Forall_app. split; [by apply encodeScalar_inert|done].
Qed.

Lemma percentDecode_encoded cs :
  Forall isScalarValue cs ->
  percentDecode (flat_map encodeScalar cs) = flat_map utf8 cs.
Proof.
  induction 1 as [|c cs Hc _ IH]; [done|].
  cbn [flat_map]. unfold encodeScalar at 1.
  destruct (unreserved c) eqn:Hu.
  - apply unreserved_cases in Hu.
    cbn [app]. rewrite percentDecode_plain, IH by lia.
    unfold utf8. by decide_tests.
  - rewrite percentDecode_bytes by (by apply utf8_bytes). by rewrite IH.
Qed.

Lemma decode_scalars cs :
  Forall isScalarValue cs -> decodeFrom idle (flat_map utf8 cs) = cs.
Proof.
  induction 1 as [|c cs Hc _ IH]; [done|].
  cbn [flat_map]. rewrite decode_utf8 by done. by rewrite IH.
Qed.

Lemma inertUnit_cases u :
  inertUnit u ->
  48 <= u <= 57 \/ 65 <= u <= 90 \/ 97 <= u <= 122
  \/ u = 45 \/ u = 95 \/ u = 46 \/ u = 33 \/ u = 126 \/ u = 42
  \/ u = 39 \/ u = 40 \/ u = 41 \/ u = 37.
Proof. intros [H%unreserved_cases| ->]; lia. Qed.

Lemma plusToSpace_inert bs : Forall inertUnit bs -> plusToSpace bs = bs.
Proof.
  unfold plusToSpace. induction 1 as [|b bs Hb%inertUnit_cases _ IH]; [done|].
  cbn [fmap list_fmap].
  fold (@fmap list _ _ _ (fun b => if b =? 43 then 32 else b) bs).
  rewrite IH. by decide_tests.
Qed.


(** *** Code points of a well-formed string *)

Lemma codePoints_wellFormed_aux n : forall s,
  (length s <= n)%nat -> wellFormed s ->
  exists cs, codePoints s = Scalar <$> cs
             /\ Forall isScalarValue cs
             /\ flat_map unitsOf cs = s.
Proof.
  induction n as [|n IH]; intros s Hlen [Hunits Hlone].
  { destruct s; [|simpl in Hlen; lia]. exists []. by repeat split. }
  destruct s as [|u rest]; [exists []; by repeat split|].
  apply Forall_cons in Hunits as [Hu Hrest]. unfold unit_ok in Hu.
  simpl in Hlen. cbn [codePoints] in Hlone |- *.
  destruct (isHigh u) eqn:Hhigh.
  - unfold isHigh in Hhigh. apply andb_true_iff in Hhigh as [H1 H2].
    apply Z.leb_le in H1, H2.
    destruct rest as [|d rest'].
    { exfalso. apply (Hlone u). constructor. }
    apply Forall_cons in Hrest as [Hd Hrest']. unfold unit_ok in Hd.
    destruct (isLow d) eqn:Hlow.
    + unfold isLow in Hlow. apply andb_true_iff in Hlow as [H3 H4].
      apply Z.leb_le in H3, H4.
      destruct (IH rest') as (cs & Hcs & Hsc & Hback).
      { simpl in Hlen. lia. }
      { split; [done|]. intros u' Hin. apply (Hlone u'). by constructor. }
      exists ((0x10000 + (u - 0xD800) * 0x400 + (d - 0xDC00)) :: cs).
      split; [by rewrite Hcs|]. split.
      * constructor; [|done]. unfold isScalarValue. lia.
      * cbn [flat_map]. rewrite Hback. unfold unitsOf. decide_tests.
        cbn [app]. f_equal; [|f_equal]; Z.div_mod_to_equations; lia.
    + exfalso. apply (Hlone u). constructor.
  - destruct (isLow u) eqn:Hlow.
    { exfalso. apply (Hlone u). constructor. }
    destruct (IH rest) as (cs & Hcs & Hsc & Hback).
    { lia. }
    { split; [done|]. intros u' Hin. apply (Hlone u'). by constructor. }
    exists (u :: cs). split; [by rewrite Hcs|]. split.
    + constructor; [|done]. unfold isScalarValue, isHigh, isLow in *.
      apply andb_false_iff in Hhigh, Hlow.
      rewrite !Z.leb_gt in Hhigh, Hlow. lia.
    + cbn [flat_map]. rewrite Hback. unfold unitsOf. by decide_tests.
Qed.

Lemma codePoints_wellFormed s :
  wellFormed s ->
  exists cs, codePoints s = Scalar <$> cs
             /\ Forall isScalarValue cs
             /\ flat_map unitsOf cs = s.
Proof. by apply (codePoints_wellFormed_aux (length s)). Qed.

(** *** Strings of printable ASCII outside the fragment set *)

Lemma inert_plain u : inertUnit u -> plainUnit u.
Proof. intros H%inertUnit_cases. unfold plainUnit. lia. Qed.

Lemma codePoints_plain s : Forall plainUnit s -> codePoints s = Scalar <$> s.
Proof.
  induction 1 as [|u s [Hu _] _ IH]; [done|].
  cbn [codePoints]. unfold isHigh, isLow. decide_tests. cbn [andb].
  by rewrite IH.
Qed.

Lemma filter_plain s :
  Forall plainUnit s -> filter (fun u => isTabOrNewline u = false) s = s.
Proof.
  induction 1 as [|u s [Hu _] _ IH]; [done|].
  rewrite filter_cons_True; [by rewrite IH|].
  unfold isTabOrNewline. apply bool_decide_eq_false. elem_lia.
Qed.

Lemma dropLeading_other u s c rest :
  s = c :: rest -> c <> u -> dropLeading u s = s.
Proof. intros -> Hne. simpl. by rewrite (proj2 (Z.eqb_neq c u)). Qed.

Lemma fragmentOf_plain s c rest :
  Forall plainUnit s -> s = c :: rest -> c <> 35 -> fragmentOf s = s.
Proof.
  intros Hs Hcons Hhash. unfold fragmentOf. cbv zeta.
  rewrite (dropLeading_other 35 s c rest), filter_plain, codePoints_plain
    by done.
  clear Hcons Hhash. induction Hs as [|u s Hu _ IH]; [done|].
  cbn [fmap list_fmap flat_map scalarOf].
  fold (@fmap list _ _ _ Scalar s). rewrite IH.
  destruct Hu as (Hr & H1 & H2 & H3 & H4).
  assert (Hset : inFragmentSet u = false).
  { unfold inFragmentSet. rewrite !orb_false_iff. repeat split.
    - apply Z.leb_gt. lia.
    - apply Z.ltb_ge. lia.
    - apply bool_decide_eq_false. elem_lia. }
  rewrite Hset. unfold unitsOf. by decide_tests.
Qed.

Lemma utf8Encode_plain s : Forall plainUnit s -> utf8Encode s = s.
Proof.
  intros Hs. unfold utf8Encode. rewrite codePoints_plain by done.
  induction Hs as [|u s [Hu _] _ IH]; [done|].
  cbn [fmap list_fmap flat_map scalarOf].
  fold (@fmap list _ _ _ Scalar s). rewrite IH.
  unfold utf8. by decide_tests.
Qed.

Lemma splitOn_absent sep bs : sep ∉ bs -> splitOn sep bs = [bs].
Proof.
  induction bs as [|b bs IH]; intros Hnot; [done|].
  cbn [splitOn]. rewrite IH by (intros ?; apply Hnot; by constructor).
  rewrite (proj2 (Z.eqb_neq b sep)); [done|].
  intros ->. apply Hnot. constructor.
Qed.


(** *** What the query parser reads back *)

Lemma decodeField_encoded cs :
  Forall isScalarValue cs ->
  decodeField (flat_map encodeScalar cs) = flat_map unitsOf cs.
Proof.
  intros Hcs. unfold decodeField, utf8Decode.
  rewrite plusToSpace_inert by (by apply encoded_inert).
  by rewrite percentDecode_encoded, decode_scalars.
Qed.

Lemma written_plain enc :
  Forall inertUnit enc -> Forall plainUnit (lit "c=" ++ enc).
Proof.
  intros Henc. apply Forall_app. split.
  - change (lit "c=") with [99; 61].
    repeat (constructor; [unfold plainUnit; lia|]). constructor.
  - eapply Forall_impl; [exact Henc|]. apply inert_plain.
Qed.

Lemma parseQuery_written cs :
  Forall isScalarValue cs ->
  parseQuery (lit "c=" ++ flat_map encodeScalar cs)
  = [(lit "c", flat_map unitsOf cs)].
Proof.
  intros Hcs. pose proof (encoded_inert cs Hcs) as Henc.
  unfold parseQuery. cbv zeta.
  rewrite (dropLeading_other 63 _ 99 (61 :: flat_map encodeScalar cs))
    by done.
  rewrite utf8Encode_plain by (by apply written_plain).
  rewrite splitOn_absent.
  - cbn [omap list_omap app lit fmap list_fmap list_ascii_of_string].
    change (splitPair (_ :: _ :: flat_map encodeScalar cs))
      with ([99], flat_map encodeScalar cs).
    cbv beta iota zeta. by rewrite decodeField_encoded.
  - intros Hin. apply elem_of_app in Hin as [Hin|Hin].
    + revert Hin. cbn. elem_lia.
    + rewrite Forall_forall in Henc. apply Henc, inertUnit_cases in Hin. lia.
Qed.

End UriFacts.

(** ** Hash sync *)

Lemma setHash_wellFormed v w :
  wellFormed (toStr v) ->
  exists cs,
    Forall isScalarValue cs
    /\ flat_map Uri.unitsOf cs = toStr v
    /\ setHash v w
       = (set_fragment (Some (lit "c=" ++ flat_map encodeScalar cs)) w,
          Ok tt).
Proof.
  intros Hwf.
  destruct (UriFacts.codePoints_wellFormed _ Hwf) as (cs & Hcps & Hcs & Hback).
  exists cs. split; [done|]. split; [done|].
  unfold setHash, bind, liftResult, modify, Uri.encodeURIComponent.
  rewrite Hcps, UriFacts.encodePoints_scalars.
  rewrite (UriFacts.fragmentOf_plain _ 99 (61 :: flat_map encodeScalar cs));
    [done| |done|done].
  by apply UriFacts.written_plain, UriFacts.encoded_inert.
Qed.

Lemma getHashComic_written cs w :
  Forall isScalarValue cs ->
  getHashComic
    (set_fragment (Some (lit "c=" ++ flat_map encodeScalar cs)) w)
  = Some (flat_map Uri.unitsOf cs).
Proof.
  intros Hcs. unfold getHashComic, locationHash. cbn [fragment set_fragment].
  change (lit "c=" ++ flat_map encodeScalar cs)
    with (99 :: 61 :: flat_map encodeScalar cs).
  cbn [Uri.dropLeading]. rewrite Z.eqb_refl.
  change (99 :: 61 :: flat_map encodeScalar cs)
    with (lit "c=" ++ flat_map encodeScalar cs).
  rewrite UriFacts.parseQuery_written by done.
  reflexivity.
Qed.




(** * Further properties *)

(** ** The sorted copy *)

(** X1. Sorting the manifest's entries loses and invents nothing: the
    sorted collection is a rearrangement of the entries given, duplicates
    included, whatever the collation does. *)
Theorem sortComics_permutation (lc : jsstring -> jsstring -> Z) (l : list Entry) :
  sortComics lc l ≡ₚ l
  /\ length (sortComics lc l) = length l
  /\ forall c, c ∈ sortComics lc l <-> c ∈ l.
Proof.
  pose proof (sort_perm (byIdAscending lc) l) as Hp.
  split; [exact Hp|]. split; [by apply Permutation_length|].
  intros c. by rewrite Hp.
Qed.

(** X1 on the sample manifest. *)
Lemma sortComics_permutation_sample :
  entryA ∈ sortComics Collation.collate [entryB; entryA].
Proof.
  apply (proj2 (proj2 (sortComics_permutation Collation.collate [entryB; entryA]))).
  apply list_elem_of_further, list_elem_of_here.
Defined.

(** ** Numeric ids *)

Lemma digitsValue_of_uint_acc d : forall acc,
  fold_left (fun a c => a * 10 + (c - 48)) (uint_units d) (Z.pos acc)
  = Z.pos (Pos.of_uint_acc d acc).
Proof.
  induction d; intros acc; simpl; try done; rewrite <- IHd; f_equal; lia.
Qed.

Lemma digitsValue_of_uint d : digitsValue (uint_units d) = Z.of_uint d.
Proof.
  unfold digitsValue, Z.of_uint.
  induction d; simpl; try done;
    first [ exact IHd | apply (digitsValue_of_uint_acc d) ].
Qed.

Lemma uint_units_digits d : Forall (fun c => isDigit c = true) (uint_units d).
Proof. induction d; simpl; by constructor. Qed.

Lemma takeDigits_all s : Forall (fun c => isDigit c = true) s -> takeDigits s = s.
Proof.
  induction 1 as [|c s Hc _ IH]; simpl; [done|]. by rewrite Hc, IH.
Qed.

Lemma firstDigitRun_all s :
  s <> [] -> Forall (fun c => isDigit c = true) s -> firstDigitRun s = Some s.
Proof.
  intros Hne Hs. destruct Hs as [|c s Hc Hs]; [done|]. simpl.
  by rewrite Hc, takeDigits_all.
Qed.

Lemma uint_units_nil d : uint_units d = [] -> d = Decimal.Nil.
Proof. by destruct d. Qed.

Lemma firstDigitRun_literal p :
  firstDigitRun (uint_units (Pos.to_uint p)) = Some (uint_units (Pos.to_uint p))
  /\ Z.of_uint (Pos.to_uint p) = Z.pos p.
Proof.
  pose proof (DecimalZ.of_to (Z.pos p)) as Hof. simpl in Hof.
  split; [|done].
  apply firstDigitRun_all; [|apply uint_units_digits].
  intros Hnil. apply uint_units_nil in Hnil. by rewrite Hnil in Hof.
Qed.

(** X2. The number of a numeric id is its absolute value, as long as that
    is below 2^53: the sign is not part of the digit run, so the ids -12
    and 12 have the same number. *)
Theorem idToNumber_numeric (z : Z) :
  Z.abs z < 2 ^ 53 -> idToNumber (VNumber z) = Fin (Z.abs z).
Proof.
  intros Hz.
  assert (Hrun : exists u,
             firstDigitRun (toStrOrEmpty (VNumber z)) = Some (uint_units u)
             /\ Z.of_uint u = Z.abs z).
  { destruct z as [|p|p].
    - by exists (Decimal.D0 Decimal.Nil).
    - exists (Pos.to_uint p). apply firstDigitRun_literal.
    - exists (Pos.to_uint p). apply (firstDigitRun_literal p). }
  destruct Hrun as (u & Hrun & Hu).
  rewrite (idToNumber_exact _ _ Hrun); rewrite digitsValue_of_uint, Hu; [done|lia].
Qed.

(** X2 on the id -12. *)
Lemma idToNumber_numeric_sample :
  Z.abs (-12) < 2 ^ 53 /\ idToNumber (VNumber (-12)) = Fin 12.
Proof. split; [reflexivity|apply (idToNumber_numeric (-12)); reflexivity]. Defined.

(** ** Display strings *)

Lemma trimStart_nil s : trimStart s = [] -> Forall (fun c => isSpace c = true) s.
Proof.
  induction s as [|c s IH]; simpl; [constructor|].
  destruct (isSpace c) eqn:Hc; [|discriminate].
  intros H. constructor; [done|by apply IH].
Qed.

Lemma trimStart_spaces s : Forall (fun c => isSpace c = true) (trimStart s) -> trimStart s = [].
Proof.
  induction s as [|c s IH]; simpl; [done|].
  destruct (isSpace c) eqn:Hc; [done|].
  intros H. apply Forall_cons in H as [H _]. congruence.
Qed.

Lemma trim_nil s : trim s = [] -> Forall (fun c => isSpace c = true) s.
Proof.
  unfold trim. intros H.
  apply (f_equal reverse) in H. rewrite reverse_involutive in H.
  change (reverse []) with (@nil Z) in H.
  apply trimStart_nil in H. rewrite Forall_reverse in H.
  by apply trimStart_nil, trimStart_spaces.
Qed.

Lemma joinWith_nil sep bits :
  Forall (fun b => b <> []) bits -> joinWith sep bits = [] -> bits = [].
Proof.
  intros Hb. destruct Hb as [|b bits Hb Hbits]; [done|]. simpl.
  destruct b as [|c b]; [done|]. by destruct bits.
Qed.

(** X3. The title shown for an entry is never blank: a missing or blank
    title gives the page label, which starts with a letter. The metadata
    line is empty exactly when the entry has neither a date nor an id. *)
Theorem display_strings (c : Entry) :
  trim (displayTitle c) <> []
  /\ (displayMeta c = [] <->
      (date c = None \/ date c = Some []) /\ (id c = VUndefined \/ id c = VNull)).
Proof.
  split.
  - assert (Hpage : forall s, trim (lit "Page #" ++ s) <> []).
    { intros s H. apply trim_nil in H. apply Forall_cons in H as [H _].
      discriminate. }
    unfold displayTitle. destruct (title c) as [t|]; [|apply Hpage].
    destruct (trim t) eqn:Ht; [apply Hpage|]. by rewrite Ht.
  - unfold displayMeta. split.
    + intros H. apply joinWith_nil in H.
      * apply app_eq_nil in H as [Hd Hi]. split.
        -- destruct (date c) as [[|]|]; [by right|done|by left].
        -- destruct (id c); try done; [by left|by right].
      * apply Forall_app. split.
        -- destruct (date c) as [[|]|]; by repeat constructor.
        -- destruct (id c); by repeat constructor.
    + intros [[-> | ->] [-> | ->]]; reflexivity.
Qed.

(** X3 on an entry that has nothing but a blank title. *)
Lemma display_strings_sample :
  let c := mkEntry VUndefined (Some (lit "  ")) None None None in
  displayTitle c = lit "Page #" /\ displayMeta c = [].
Proof.
  intros c. split; [reflexivity|].
  apply (proj2 (display_strings c)). split; by left.
Defined.

(** ** HTML escaping, continued *)

Lemma escapeUnit_head ch :
  exists r, escapeUnit ch = (if bool_decide (specialUnit ch) then 38 else ch) :: r.
Proof.
  unfold escapeUnit, specialUnit.
  repeat (match goal with
          | |- context [?a =? ?b] => destruct (Z.eqb_spec a b) as [->|]
          end; [eexists; reflexivity|]).
  exists []. rewrite bool_decide_eq_false_2; [done|elem_lia].
Qed.

Lemma escapeUnit_inj c d r1 r2 :
  escapeUnit c ++ r1 = escapeUnit d ++ r2 -> c = d /\ r1 = r2.
Proof.
  intros H.
  assert (Hcd : c = d); [|subst d; split; [done|by apply app_inv_head in H]].
  destruct (escapeUnit_cases c) as [[Hc _]|[Hc Hec]];
    destruct (escapeUnit_cases d) as [[Hd _]|[Hd Hed]].
  - unfold escapeUnit in H.
    repeat (apply elem_of_cons in Hc as [->|Hc]); try (by apply elem_of_nil in Hc);
      repeat (apply elem_of_cons in Hd as [->|Hd]); try (by apply elem_of_nil in Hd);
      try done; discriminate.
  - rewrite Hed in H. exfalso. apply Hd.
    repeat (apply elem_of_cons in Hc as [->|Hc]); try (by apply elem_of_nil in Hc);
      injection H as <- _; elem_lia.
  - rewrite Hec in H. exfalso. apply Hc.
    repeat (apply elem_of_cons in Hd as [->|Hd]); try (by apply elem_of_nil in Hd);
      injection H as -> _; elem_lia.
  - rewrite Hec, Hed in H. by injection H.
Qed.

Lemma escapeUnit_length c :
  (1 <= length (escapeUnit c))%nat
  /\ (specialUnit c -> (4 <= length (escapeUnit c))%nat).
Proof.
  destruct (escapeUnit_cases c) as [[Hc He]|[Hc ->]].
  - unfold entities in He.
    repeat (apply elem_of_cons in He as [->|He]); try (by apply elem_of_nil in He);
      simpl; lia.
  - split; [simpl; lia|done].
Qed.

Lemma escapeStr_length s : (length s <= length (escapeStr s))%nat.
Proof.
  unfold escapeStr. induction s as [|c s IH]; simpl; [lia|].
  rewrite length_app. pose proof (escapeUnit_length c) as [H _]. lia.
Qed.

(** X4. Escaping is reversible: two texts with the same escaped form are
    the same text. It changes a text exactly when the text has one of the
    five characters it replaces, and it works piece by piece. *)
Theorem escapeStr_injective :
  (forall s t, escapeStr s = escapeStr t -> s = t)
  /\ (forall s, escapeStr s = s <-> Forall (fun c => ~ specialUnit c) s)
  /\ (forall s t, escapeStr (s ++ t) = escapeStr s ++ escapeStr t).
Proof.
  split; [|split].
  - unfold escapeStr. induction s as [|c s IH]; intros [|d t]; simpl; intros H.
    + done.
    + destruct (escapeUnit_head d) as [r Hr]. by rewrite Hr in H.
    + destruct (escapeUnit_head c) as [r Hr]. by rewrite Hr in H.
    + apply escapeUnit_inj in H as [-> H]. f_equal. by apply IH.
  - induction s as [|c s IH].
    + split; [constructor|done].
    + change (escapeStr (c :: s)) with (escapeUnit c ++ escapeStr s). split.
      * intros H.
        destruct (escapeUnit_cases c) as [[Hc He]|[Hc He]].
        -- apply (f_equal length) in H. rewrite length_app in H. simpl in H.
           pose proof (proj2 (escapeUnit_length c) Hc).
           pose proof (escapeStr_length s). lia.
        -- rewrite He in H. injection H as H. constructor; [done|by apply IH].
      * intros H. apply Forall_cons in H as [Hc Hs].
        destruct (escapeUnit_cases c) as [[Hc' _]|[_ ->]]; [done|].
        simpl. f_equal. by apply IH.
  - intros s t. unfold escapeStr. apply flat_map_app.
Qed.

(** X4 on a text that has nothing to escape. *)
Lemma escapeStr_injective_sample : escapeStr (lit "a-1") = lit "a-1".
Proof.
  apply (proj1 (proj2 escapeStr_injective) (lit "a-1")).
  change (lit "a-1") with [97; 45; 49].
  repeat (constructor; [unfold specialUnit; intros H; elem_lia|]). constructor.
Defined.

(** ** Opening and closing the overlays *)

Lemma updateElement_twice i f g w :
  updateElement i f (updateElement i g w) = updateElement i (f ∘ g) w.
Proof. unfold updateElement. simpl. by rewrite alter_alter_eq. Qed.

Lemma updateElement_ext i f g w :
  (forall el, getElementById i w = Some el -> f el = g el) ->
  updateElement i f w = updateElement i g w.
Proof. intros H. unfold updateElement. by rewrite (alter_ext f g). Qed.

Lemma updateElement_id i f w :
  (forall el, getElementById i w = Some el -> f el = el) ->
  updateElement i f w = w.
Proof.
  intros H. unfold updateElement. rewrite alter_id by done. by destruct w.
Qed.

Lemma remove_after_set a v el :
  removeAttribute a (setAttribute a v el) = removeAttribute a el.
Proof. unfold removeAttribute, setAttribute. simpl. by rewrite delete_insert_eq. Qed.

Lemma remove_absent a el : hasAttribute a el = false -> removeAttribute a el = el.
Proof.
  unfold hasAttribute, removeAttribute. intros H.
  apply bool_decide_eq_false in H. rewrite delete_id; [by destruct el|].
  by apply eq_None_not_Some.
Qed.

Lemma getElementById_present i f w :
  is_Some (getElementById i (updateElement i f w)) <-> is_Some (getElementById i w).
Proof.
  rewrite getElementById_update, decide_True by done. apply fmap_is_Some.
Qed.

(** X5. On a page with the reader, opening marks it open and locks the
    scrolling of the body, closing undoes both; closing after opening
    comes to closing, and on a reader that was closed with the body
    unlocked it gives the world back as it was. On a page without the
    reader both throw a TypeError and change nothing. *)
Theorem reader_open_close (w : World) :
  (is_Some (getElementById "reader" w) ->
     openReader w = (exec openReader w, Ok tt)
     /\ readerIsOpen (exec openReader w) = true
     /\ bodyOverflow (exec openReader w) = lit "hidden"
     /\ closeReader w = (exec closeReader w, Ok tt)
     /\ readerIsOpen (exec closeReader w) = false
     /\ bodyOverflow (exec closeReader w) = [])
  /\ exec closeReader (exec openReader w) = exec closeReader w
  /\ (readerIsOpen w = false -> bodyOverflow w = [] ->
      exec closeReader (exec openReader w) = w)
  /\ (getElementById "reader" w = None ->
      openReader w = (w, Throw TypeError) /\ closeReader w = (w, Throw TypeError)).
Proof.
  assert (Hcc : exec closeReader (exec openReader w) = exec closeReader w).
  { unfold exec, openReader, closeReader.
    destruct (getElementById "reader" w) as [r|] eqn:Hr; cbn [fst]; [|by rewrite Hr].
    change (getElementById "reader" (set_bodyOverflow ?o ?w0))
      with (getElementById "reader" w0).
    rewrite getElementById_update, decide_True, Hr by done. cbn [fmap option_fmap option_map fst].
    unfold set_bodyOverflow. cbn.
    f_equal. rewrite alter_alter_eq. apply alter_ext. intros el _. apply remove_after_set. }
  split; [|split; [exact Hcc|split]].
  - intros [r Hr]. unfold exec, openReader, closeReader, readerIsOpen. rewrite Hr. cbn [fst].
    change (getElementById "reader" (set_bodyOverflow ?o ?w0))
      with (getElementById "reader" w0).
    rewrite !getElementById_update, !decide_True, Hr by done. simpl.
    unfold hasAttribute. simpl.
    repeat split; try done.
    + apply bool_decide_eq_true. by rewrite lookup_insert_eq.
    + apply bool_decide_eq_false. rewrite lookup_delete_eq. by intros [? [=]].
  - intros Hclosed Hbody. rewrite Hcc. unfold exec, closeReader, readerIsOpen in *.
    destruct (getElementById "reader" w) as [r|] eqn:Hr; cbn [fst]; [|done].
    rewrite updateElement_id.
    + destruct w. simpl in *. by subst.
    + intros el Hel. apply remove_absent. congruence.
  - intros Hr. unfold openReader, closeReader. by rewrite Hr.
Qed.

(** X5 on the sample world, whose reader is closed. *)
Lemma reader_open_close_sample :
  readerIsOpen (exec openReader sampleWorld) = true
  /\ exec closeReader (exec openReader sampleWorld) = sampleWorld.
Proof.
  destruct (reader_open_close sampleWorld) as (Hopen & _ & Hback & _).
  split.
  - apply Hopen. vm_compute. eauto.
  - apply Hback; reflexivity.
Defined.

(** ** Accepting the disclaimer *)

Lemma closeDisclaimer_closed w : disclaimerIsOpen (exec closeDisclaimer w) = false.
Proof.
  unfold exec, closeDisclaimer, disclaimerIsOpen.
  destruct (getElementById "disclaimer" w) as [d|] eqn:Hd; cbn [fst]; [|by rewrite Hd].
  change (getElementById "disclaimer" (set_rootOverflow ?o ?w0))
    with (getElementById "disclaimer" w0).
  rewrite getElementById_update, decide_True, Hd by done. simpl.
  unfold hasAttribute. simpl.
  apply bool_decide_eq_false. rewrite lookup_delete_eq. by intros [? [=]].
Qed.

Lemma closeDisclaimer_idem w :
  exec closeDisclaimer (exec closeDisclaimer w) = exec closeDisclaimer w.
Proof.
  unfold exec, closeDisclaimer.
  destruct (getElementById "disclaimer" w) as [d|] eqn:Hd; cbn [fst]; [|by rewrite Hd].
  change (getElementById "disclaimer" (set_rootOverflow ?o ?w0))
    with (getElementById "disclaimer" w0).
  rewrite getElementById_update, decide_True, Hd by done.
  cbn [fmap option_fmap option_map fst].
  unfold set_rootOverflow. cbn. f_equal.
  rewrite alter_alter_eq. apply alter_ext. intros el _.
  unfold removeAttribute. simpl. by rewrite delete_delete_eq.
Qed.

Lemma accept_when_recorded w :
  storage w = None
  \/ (exists items, storage w = Some items
                    /\ items !! DISCLAIMER_KEY = Some (lit "true")) ->
  exec acceptDisclaimer w = exec closeDisclaimer w.
Proof.
  intros H.
  change (exec acceptDisclaimer w)
    with (exec closeDisclaimer
            match storage w with
            | Some items =>
                set_storage (Some (<[DISCLAIMER_KEY := lit "true"]> items)) w
            | None => w
            end).
  f_equal. destruct H as [Hs|(items & Hs & Hk)]; rewrite Hs; [done|].
  rewrite insert_id by done. destruct w. simpl in *. by subst.
Qed.

(** X6. Accepting the disclaimer always returns and leaves the disclaimer
    closed; the acceptance is on record afterwards exactly when the storage
    works, and then the storage is the old one with the flag set, so what
    else is stored stays as it was; the reader and the script state are not
    affected; and accepting again changes nothing. *)
Theorem acceptDisclaimer_effects (w : World) :
  let w' := exec acceptDisclaimer w in
  acceptDisclaimer w = (w', Ok tt)
  /\ disclaimerIsOpen w' = false
  /\ (hasAcceptedDisclaimer w' = true <-> is_Some (storage w))
  /\ storage w' = (fun items => <[DISCLAIMER_KEY := lit "true"]> items) <$> storage w
  /\ readerIsOpen w' = readerIsOpen w
  /\ state w' = state w
  /\ exec acceptDisclaimer w' = w'.
Proof.
  cbn zeta.
  set (w1 := match storage w with
             | Some items => set_storage (Some (<[DISCLAIMER_KEY := lit "true"]> items)) w
             | None => w
             end).
  assert (Hexec : exec acceptDisclaimer w = exec closeDisclaimer w1) by reflexivity.
  assert (Hs1 : storage w1
                = (fun items => <[DISCLAIMER_KEY := lit "true"]> items) <$> storage w).
  { subst w1. by destruct (storage w) eqn:Hs; simpl; [|rewrite Hs]. }
  assert (Hclose : forall w0, closeDisclaimer w0 = (exec closeDisclaimer w0, Ok tt)
                              /\ storage (exec closeDisclaimer w0) = storage w0
                              /\ state (exec closeDisclaimer w0) = state w0
                              /\ readerIsOpen (exec closeDisclaimer w0) = readerIsOpen w0).
  { intros w0. unfold exec, closeDisclaimer, readerIsOpen.
    destruct (getElementById "disclaimer" w0); cbn [fst]; [|done].
    repeat split.
    change (getElementById "reader" (set_rootOverflow ?o ?w2))
      with (getElementById "reader" w2).
    by rewrite getElementById_update, decide_False. }
  destruct (Hclose w1) as (Hok & Hst & Hstate & Hreader).
  assert (Hs' : storage (exec acceptDisclaimer w)
                = (fun items => <[DISCLAIMER_KEY := lit "true"]> items) <$> storage w).
  { by rewrite Hexec, Hst. }
  split; [|split; [|split; [|split; [|split; [|split]]]]].
  - unfold acceptDisclaimer, bind, modify. fold w1. by rewrite Hok.
  - rewrite Hexec. apply closeDisclaimer_closed.
  - unfold hasAcceptedDisclaimer. rewrite Hs'.
    destruct (storage w) as [items|]; simpl.
    + rewrite bool_decide_eq_true_2 by apply lookup_insert_eq. split; eauto.
    + split; [done|]. by intros [? [=]].
  - exact Hs'.
  - rewrite Hexec, Hreader. subst w1. by destruct (storage w).
  - rewrite Hexec, Hstate. subst w1. by destruct (storage w).
  - rewrite Hexec.
    assert (Hagain : exec acceptDisclaimer (exec closeDisclaimer w1)
                     = exec closeDisclaimer (exec closeDisclaimer w1)).
    { apply accept_when_recorded. rewrite Hst, Hs1.
      destruct (storage w) as [items|]; simpl; [right|by left].
      eexists. split; [done|]. apply lookup_insert_eq. }
    rewrite Hagain. apply closeDisclaimer_idem.
Qed.

(** X6 on the sample world, whose storage works and holds nothing. *)
Lemma acceptDisclaimer_effects_sample :
  hasAcceptedDisclaimer sampleWorld = false
  /\ hasAcceptedDisclaimer (exec acceptDisclaimer sampleWorld) = true
  /\ disclaimerIsOpen (exec acceptDisclaimer sampleWorld) = false.
Proof.
  destruct (acceptDisclaimer_effects sampleWorld) as (_ & Hclosed & Hacc & _).
  split; [reflexivity|]. split; [|exact Hclosed].
  apply Hacc. vm_compute. eauto.
Defined.

(** ** Parts of the world a computation leaves alone *)

Ltac other_id H :=
  let E := fresh in
  intros E; apply H; rewrite <- E;
  repeat first [ apply list_elem_of_here | apply list_elem_of_further ].

Section Kept.

Context {V : Type} (x : string) (view : World -> V).

Hypothesis view_document : forall d w, view (set_document d w) = view w.
Hypothesis view_cursor : forall j w, view (set_currentIndex j w) = view w.
Hypothesis view_tiles : forall v w, view (set_tiles v w) = view w.
Hypothesis view_currentTab : forall v w, view (set_currentTab v w) = view w.
Hypothesis view_bodyOverflow : forall v w, view (set_bodyOverflow v w) = view w.
Hypothesis view_fragment : forall v w, view (set_fragment v w) = view w.
Hypothesis view_listeners : forall v w, view (set_listeners v w) = view w.
Hypothesis view_reports : forall v w, view (set_reports v w) = view w.
Hypothesis view_preloaded : forall v w, view (set_preloaded v w) = view w.

Lemma kept_refl w : (keptAt x view) w w.
Proof. by split. Qed.

Lemma kept_trans w1 w2 w3 : (keptAt x view) w1 w2 -> (keptAt x view) w2 w3 -> (keptAt x view) w1 w3.
Proof. intros [H1 H1'] [H2 H2']. split; congruence. Qed.

Lemma kept_updateElement i f w : i <> x -> (keptAt x view) w (updateElement i f w).
Proof.
  intros Hi. split; [|apply view_document].
  rewrite getElementById_update. by rewrite decide_False.
Qed.

Lemma kept_bind {A B} (m : M A) (k : A -> M B) :
  stable (keptAt x view) m -> (forall a, stable (keptAt x view) (k a)) -> stable (keptAt x view) (bind m k).
Proof. apply stable_bind, kept_trans. Qed.

Lemma kept_setText i t : i <> x -> stable (keptAt x view) (setText i t).
Proof. intros Hi w. by apply kept_updateElement. Qed.

Lemma kept_setAttr i a v : i <> x -> stable (keptAt x view) (setAttr i a v).
Proof. intros Hi w. by apply kept_updateElement. Qed.

Lemma kept_setBtn i b h : i <> x -> stable (keptAt x view) (setBtn i b h).
Proof. intros Hi w. by apply kept_updateElement. Qed.

Lemma kept_setCurrentTab tab : stable (keptAt x view) (setCurrentTab tab).
Proof. intros w. split; [done|apply view_currentTab]. Qed.

Lemma kept_addListener l : stable (keptAt x view) (addListener l).
Proof. intros w. split; [done|apply view_listeners]. Qed.

Lemma kept_addListenerOn i l : stable (keptAt x view) (addListenerOn i l).
Proof.
  intros w. unfold exec, addListenerOn.
  destruct (getElementById i w); [apply kept_addListener|apply kept_refl].
Qed.

Lemma kept_disclaimerInteractions : stable (keptAt x view) disclaimerInteractions.
Proof.
  apply kept_bind; [|intros _; apply kept_bind; [|intros _]];
    try apply kept_addListenerOn.
  intros w. unfold exec, addListenerOnceOn.
  destruct (bool_decide _); [apply kept_refl|apply kept_addListenerOn].
Qed.

Lemma kept_addSwipeListeners : stable (keptAt x view) addSwipeListeners.
Proof.
  intros w. unfold exec, addSwipeListeners.
  destruct (getElementById "readerImg" w), (getElementById "reader" w);
    first [ apply kept_refl
          | apply (kept_bind (addListener LTouchStart)
                     (fun _ => addListener LTouchEnd));
            [apply kept_addListener|intros _; apply kept_addListener] ].
Qed.

Lemma kept_setHash v : stable (keptAt x view) (setHash v).
Proof.
  apply kept_bind; [apply stable_liftResult, kept_refl|]. intros enc w.
  split; [done|apply view_fragment].
Qed.

Lemma kept_renderGrid cs : "archiveGrid" <> x -> stable (keptAt x view) (renderGrid cs).
Proof.
  intros Hx w. unfold exec, renderGrid.
  destruct (getElementById "archiveGrid" w); [|apply kept_refl].
  destruct (tilesMarkup cs) as [ms|]; cbn [fst]; [|apply kept_refl].
  apply (kept_trans _ (updateElement "archiveGrid" (set_innerHTML (concat ms)) w));
    [by apply kept_updateElement|].
  split; [done|apply view_tiles].
Qed.

Lemma kept_renderLatest c : x ∉ latestIds -> stable (keptAt x view) (renderLatest c).
Proof.
  intros Hx. unfold renderLatest.
  repeat (apply kept_bind;
          [first [apply kept_setText | apply kept_setAttr]; other_id Hx|intros _]).
  intros w. apply kept_updateElement. other_id Hx.
Qed.

Hypothesis x_reader : x ∉ readerIds.

Lemma kept_openReader : stable (keptAt x view) openReader.
Proof.
  intros w. unfold exec, openReader.
  destruct (getElementById "reader" w); cbn [fst]; [|apply kept_refl].
  apply (kept_trans _ (updateElement "reader" (setAttribute "open" []) w));
    [apply kept_updateElement; other_id x_reader|].
  split; [done|apply view_bodyOverflow].
Qed.

Lemma kept_closeReader : stable (keptAt x view) closeReader.
Proof.
  intros w. unfold exec, closeReader.
  destruct (getElementById "reader" w); cbn [fst]; [|apply kept_refl].
  apply (kept_trans _ (updateElement "reader" (removeAttribute "open") w));
    [apply kept_updateElement; other_id x_reader|].
  split; [done|apply view_bodyOverflow].
Qed.

Lemma kept_renderReader : stable (keptAt x view) renderReader.
Proof.
  intros w. unfold exec, renderReader.
  destruct (comicAt w (currentIndex (state w))); [|apply kept_refl].
  unfold bind, setText, setAttr, setBtn, preload, modify. cbn [fst].
  match goal with
  | |- keptAt _ _ _ (set_preloaded _ ?w0) =>
      apply (kept_trans _ w0); [|split; [done|apply view_preloaded]]
  end.
  repeat (match goal with
          | |- keptAt _ _ _ (updateElement _ _ ?w0) =>
              apply (kept_trans _ w0);
              [|apply kept_updateElement; other_id x_reader]
          end).
  apply kept_refl.
Qed.

Lemma kept_openComicById v : stable (keptAt x view) (openComicById v).
Proof.
  intros w. unfold exec at 1. unfold openComicById.
  destruct (findIndex v (comics (state w))); [|apply kept_refl].
  revert w. apply kept_bind; [intros w; split; [done|apply view_cursor]|intros _].
  apply kept_bind; [apply kept_renderReader|intros _].
  apply kept_bind; [apply kept_setHash|intros _; apply kept_openReader].
Qed.

Lemma kept_openFromHash : stable (keptAt x view) openFromHash.
Proof.
  intros w. unfold exec at 1. unfold openFromHash.
  destruct (getHashComic w) as [[|c s]|]; try apply kept_refl.
  revert w. apply kept_bind; [apply kept_setCurrentTab|intros _].
  apply kept_bind; [apply kept_disclaimerInteractions|intros _].
  apply kept_openComicById.
Qed.

(** What initialisation does after the latest view. *)
Lemma kept_wire cs :
  "archiveGrid" <> x ->
  stable (keptAt x view) (renderGrid cs ;;
            addListener LTab ;;
            setCurrentTab (lit "archive") ;;
            disclaimerInteractions ;;
            addListenerOn "btnStart" LBtnStart ;;
            addListenerOn "btnOpenLatest" LBtnOpenLatest ;;
            addListenerOn "btnClose" LBtnClose ;;
            addListenerOn "reader" LReaderBg ;;
            addListener LKeydown ;;
            addSwipeListeners ;;
            openFromHash).
Proof.
  intros Hx.
  apply kept_bind; [by apply kept_renderGrid|intros _].
  apply kept_bind; [apply kept_addListener|intros _].
  apply kept_bind; [apply kept_setCurrentTab|intros _].
  apply kept_bind; [apply kept_disclaimerInteractions|intros _].
  do 4 (apply kept_bind; [apply kept_addListenerOn|intros _]).
  apply kept_bind; [apply kept_addListener|intros _].
  apply kept_bind; [apply kept_addSwipeListeners|intros _; apply kept_openFromHash].
Qed.

Lemma kept_renderAndWire :
  "archiveGrid" <> x -> "emptyNote" <> x -> x ∉ latestIds ->
  stable (keptAt x view) renderAndWire.
Proof.
  intros Hgrid Hempty Hlatest w. unfold exec at 1. unfold renderAndWire.
  destruct (last (comics (state w))) as [latest|];
    [|by apply kept_updateElement].
  generalize (comics (state w)). intros cs. revert w.
  apply kept_bind; [by apply kept_renderLatest|intros _].
  by apply kept_wire.
Qed.

(** The handler of the [catch] block. *)
Lemma kept_catch e :
  "pageError" <> x ->
  stable (keptAt x view) (modify (fun w => set_reports (reports w ++ [Logged e]) w) ;;
            setText "pageError" pageErrorText).
Proof.
  intros Hx. apply kept_bind; [|intros _; by apply kept_setText].
  intros w. split; [done|apply view_reports].
Qed.

Hypothesis view_state : forall s w, view (set_state s w) = view w.

Lemma kept_loadAndRender lc f :
  "archiveGrid" <> x -> "emptyNote" <> x -> x ∉ latestIds ->
  x ∉ ["siteTitle"; "siteTitleFooter"; "siteTagline"] ->
  stable (keptAt x view) (loadAndRender lc f).
Proof.
  intros Hgrid Hempty Hlatest Hsite. unfold loadAndRender.
  apply kept_bind; [apply stable_liftResult, kept_refl|intros d].
  apply kept_bind; [intros w; split; [done|apply view_state]|intros _].
  apply kept_bind;
    [destruct d; [apply stable_throw|apply stable_ret]; apply kept_refl|intros m].
  apply kept_bind; [intros w; split; [done|apply view_state]|intros _].
  do 3 (apply kept_bind; [apply kept_setText; other_id Hsite|intros _]).
  by apply kept_renderAndWire.
Qed.

End Kept.

(** ** Initialisation, step by step *)

Ltac not_in_ids :=
  repeat (apply not_elem_of_cons; split; [done|]); apply not_elem_of_nil.

Lemma gateUnlessAccepted_Ok w :
  gateUnlessAccepted w = (exec gateUnlessAccepted w, Ok tt).
Proof.
  unfold exec, gateUnlessAccepted.
  destruct (hasAcceptedDisclaimer w); [done|]. by rewrite openDisclaimer_Ok.
Qed.

Lemma gateUnlessAccepted_frame w :
  let w' := exec gateUnlessAccepted w in
  state w' = state w /\ tiles w' = tiles w /\ listeners w' = listeners w
  /\ fragment w' = fragment w /\ reports w' = reports w
  /\ forall i, i <> "disclaimer" -> getElementById i w' = getElementById i w.
Proof.
  unfold exec, gateUnlessAccepted.
  destruct (hasAcceptedDisclaimer w); [by repeat split|].
  apply openDisclaimer_frame.
Qed.

Lemma tryCatch_bind_Ok {A} (m : M A) (k : A -> M unit) h w w1 a :
  m w = (w1, Ok a) -> tryCatch (bind m k) h w = tryCatch (k a) h w1.
Proof. intros Hm. unfold tryCatch, bind. by rewrite Hm. Qed.


(** The handler of the [catch] block of [init]. *)
Lemma init_unfold lc f w :
  init lc f w
  = tryCatch (loadAndRender lc f)
      (fun e =>
         modify (fun w0 => set_reports (reports w0 ++ [Logged e]) w0) ;;
         setText "pageError" pageErrorText)
      (exec gateUnlessAccepted w).
Proof.
  unfold init, initBody.
  by rewrite (tryCatch_bind_Ok _ _ _ _ _ _ (gateUnlessAccepted_Ok w)).
Qed.

(** The world once the manifest has been stored, sorted and its header
    written. *)
Lemma init_loaded lc m w :
  let t := orElse (siteTitle m) (lit "Webcomic") in
  let tag := match siteAuthor m with
             | Some (c :: s) => lit "by " ++ c :: s
             | _ => []
             end in
  init lc (Response true (Some (JManifest m))) w
  = tryCatch renderAndWire
      (fun e =>
         modify (fun w0 => set_reports (reports w0 ++ [Logged e]) w0) ;;
         setText "pageError" pageErrorText)
      (updateElement "siteTagline" (set_textContent tag)
         (updateElement "siteTitleFooter" (set_textContent t)
            (updateElement "siteTitle" (set_textContent t)
               (set_comics (sortComics lc (default [] (siteComics m)))
                  (set_data (Some (JManifest m))
                     (exec gateUnlessAccepted w)))))).
Proof. intros t tag. by rewrite init_unfold. Qed.

Lemma getElementById_loaded i d cs w :
  getElementById i (set_comics cs (set_data d w)) = getElementById i w.
Proof. reflexivity. Qed.

Lemma getElementById_same i f w :
  getElementById i (updateElement i f w) = f <$> getElementById i w.
Proof. by rewrite getElementById_update, decide_True. Qed.

Lemma getElementById_other i j f w :
  i <> j -> getElementById i (updateElement j f w) = getElementById i w.
Proof. intros H. by rewrite getElementById_update, decide_False. Qed.

Ltac lookup_chain :=
  repeat first
    [ rewrite getElementById_same
    | rewrite getElementById_other by done
    | rewrite getElementById_loaded
    | progress change (getElementById ?i (set_reports ?l ?w0))
        with (getElementById i w0)
    | progress change (getElementById ?i (set_preloaded ?l ?w0))
        with (getElementById i w0)
    | progress change (getElementById ?i (set_fragment ?l ?w0))
        with (getElementById i w0)
    | progress change (getElementById ?i (set_bodyOverflow ?l ?w0))
        with (getElementById i w0)
    | progress change (getElementById ?i (set_currentIndex ?l ?w0))
        with (getElementById i w0)
    | progress change (getElementById ?i (set_touch ?l ?w0))
        with (getElementById i w0)
    | progress change (getElementById ?i (set_rootOverflow ?l ?w0))
        with (getElementById i w0)
    | progress change (getElementById ?i (set_storage ?l ?w0))
        with (getElementById i w0) ].

(** Looking an element up in the world [renderReader] leaves. *)
Ltac reader_lookup Hc :=
  unfold exec, renderReader; rewrite Hc;
  unfold bind, setText, setAttr, setBtn, preload, modify; cbn [fst];
  lookup_chain.

Lemma renderAndWire_nonempty w latest :
  last (comics (state w)) = Some latest ->
  renderAndWire w
  = (renderLatest latest ;;
     renderGrid (comics (state w)) ;;
     addListener LTab ;;
     setCurrentTab (lit "archive") ;;
     disclaimerInteractions ;;
     addListenerOn "btnStart" LBtnStart ;;
     addListenerOn "btnOpenLatest" LBtnOpenLatest ;;
     addListenerOn "btnClose" LBtnClose ;;
     addListenerOn "reader" LReaderBg ;;
     addListener LKeydown ;;
     addSwipeListeners ;;
     openFromHash) w.
Proof. intros H. unfold renderAndWire. by rewrite H. Qed.


Lemma exec_tryCatch_kept {V} x (view : World -> V) m h w :
  stable (keptAt x view) m -> (forall e, stable (keptAt x view) (h e)) ->
  keptAt x view w (exec (tryCatch m h) w).
Proof.
  intros Hm Hh. apply (stable_tryCatch (keptAt x view)); [|done|done].
  intros w1 w2 w3 [H1 H1'] [H2 H2']. split; congruence.
Qed.

(** ** Reloading after the disclaimer was accepted *)

Lemma acceptDisclaimer_storage w :
  storage (exec acceptDisclaimer w)
  = (fun items => <[DISCLAIMER_KEY := lit "true"]> items) <$> storage w.
Proof.
  unfold exec, acceptDisclaimer, bind, modify, closeDisclaimer.
  destruct (storage w) as [items|] eqn:Hs.
  - change (getElementById "disclaimer" (set_storage ?s ?w0))
      with (getElementById "disclaimer" w0).
    by destruct (getElementById "disclaimer" w).
  - destruct (getElementById "disclaimer" w); simpl; by rewrite Hs.
Qed.

Lemma init_gate_untouched lc f w :
  hasAcceptedDisclaimer w = true ->
  keptAt "disclaimer" gateView w (exec (init lc f) w).
Proof.
  intros Hacc. unfold exec. rewrite init_unfold.
  assert (Hw : exec gateUnlessAccepted w = w).
  { unfold exec, gateUnlessAccepted. by rewrite Hacc. }
  rewrite Hw. apply exec_tryCatch_kept.
  - apply kept_loadAndRender; try done; not_in_ids.
  - intros e. by apply kept_catch.
Qed.

(** X7. Once the acceptance is on record, initialisation leaves the
    disclaimer alone: its element, the storage and the scroll lock of the
    page are what they were, whatever the fetch brings. So after an
    acceptance that the storage took, loading the page again shows the
    disclaimer as the page has it, not opened. *)
Theorem accepted_gate_stays_shut :
  (forall lc f w,
      hasAcceptedDisclaimer w = true ->
      let w' := exec (init lc f) w in
      getElementById "disclaimer" w' = getElementById "disclaimer" w
      /\ storage w' = storage w
      /\ rootOverflow w' = rootOverflow w
      /\ disclaimerIsOpen w' = disclaimerIsOpen w)
  /\ (forall lc f page frag w,
        is_Some (storage w) ->
        let w' := exec (init lc f)
                    (initialWorld page frag (storage (exec acceptDisclaimer w))) in
        getElementById "disclaimer" w' = page !! "disclaimer"
        /\ hasAcceptedDisclaimer w' = true).
Proof.
  split.
  - intros lc f w Hacc. cbn zeta.
    destruct (init_gate_untouched lc f w Hacc) as [Hel Hview].
    injection Hview as Hs Hr.
    repeat split; try done. unfold disclaimerIsOpen. by rewrite Hel.
  - intros lc f page frag w [items Hs]. cbn zeta.
    set (w0 := initialWorld page frag (storage (exec acceptDisclaimer w))).
    assert (Hacc : hasAcceptedDisclaimer w0 = true).
    { unfold hasAcceptedDisclaimer, w0. simpl.
      rewrite acceptDisclaimer_storage, Hs. simpl.
      apply bool_decide_eq_true, lookup_insert_eq. }
    destruct (init_gate_untouched lc f w0 Hacc) as [Hel Hview].
    injection Hview as Hst _.
    split; [by rewrite Hel|].
    unfold hasAcceptedDisclaimer in *. by rewrite Hst.
Qed.

(** X7 on the sample page: the disclaimer accepted in the sample world is
    not shown when the page is loaded again. *)
Lemma accepted_gate_stays_shut_sample :
  disclaimerIsOpen sampleWorld = true
  /\ disclaimerIsOpen
       (exec (init Collation.collate (Response true (Some (JManifest sampleManifest))))
          (initialWorld samplePage None (storage (exec acceptDisclaimer sampleWorld))))
     = false.
Proof.
  split; [reflexivity|].
  destruct (proj2 accepted_gate_stays_shut Collation.collate
              (Response true (Some (JManifest sampleManifest))) samplePage None
              sampleWorld) as [Hel _].
  - vm_compute. eauto.
  - unfold disclaimerIsOpen. by rewrite Hel.
Defined.

(** ** What a successful load leaves *)



(** ** Pages on which nothing was wired *)

Lemma inert_dispatch ev w : inert w -> dispatch ev w = w.
Proof.
  intros (Hl & Ht & Hh). destruct ev; simpl; rewrite ?Hl, ?Ht; try done.
  unfold fireClick.
  destruct (getElementById target w) as [el|] eqn:Hel.
  - rewrite (Hh target el Hel). by rewrite Hl.
  - by rewrite Hl.
Qed.

Lemma inert_events evs w :
  inert w -> foldl (fun w0 ev => dispatch ev w0) w evs = w.
Proof.
  intros Hw. induction evs as [|ev evs IH]; simpl; [done|].
  by rewrite inert_dispatch.
Qed.

Lemma pristine_updateElement i f w :
  (forall el, onclick (f el) = onclick el) ->
  pristine w -> pristine (updateElement i f w).
Proof.
  intros Hf. apply pristine_same; [done|].
  intros j. apply onclick_update_other. by right.
Qed.

Lemma pristine_gated page frag store :
  noHandlers page ->
  let w1 := exec gateUnlessAccepted (initialWorld page frag store) in
  pristine w1 /\ listeners w1 = [] /\ tiles w1 = [] /\ reports w1 = []
  /\ fragment w1 = frag /\ state w1 = mkState None [] 0
  /\ forall i, i <> "disclaimer" -> getElementById i w1 = page !! i.
Proof.
  intros Hpage. cbn zeta.
  destruct (gateUnlessAccepted_frame (initialWorld page frag store))
    as (Hst & Hti & Hli & Hfr & Hre & Hel).
  split; [|by repeat split].
  apply pristine_stable; [apply nav_gateUnlessAccepted|].
  by apply pristine_initialWorld.
Qed.

Lemma renderAndWire_empty w :
  comics (state w) = [] ->
  renderAndWire w
  = (updateElement "emptyNote" (set_styleDisplay (lit "block")) w, Ok tt).
Proof. intros H. unfold renderAndWire. by rewrite H. Qed.

(** X9. With a manifest that has no entries, initialisation on a page as
    written returns without a report, shows the empty note and wires
    nothing: no listener is added, not even the one that accepts the
    disclaimer, so no event changes anything afterwards. *)
Theorem init_empty_collection lc m page frag store :
  noHandlers page ->
  default [] (siteComics m) = [] ->
  let w0 := initialWorld page frag store in
  let w' := exec (init lc (Response true (Some (JManifest m)))) w0 in
  init lc (Response true (Some (JManifest m))) w0 = (w', Ok tt)
  /\ styleDisplay <$> getElementById "emptyNote" w'
     = (fun _ => lit "block") <$> page !! "emptyNote"
  /\ comics (state w') = []
  /\ reports w' = []
  /\ fragment w' = frag
  /\ inert w'
  /\ forall evs, foldl (fun w1 ev => dispatch ev w1) w' evs = w'.
Proof.
  intros Hpage Hempty. cbn zeta. unfold exec. rewrite init_loaded, Hempty.
  destruct (pristine_gated page frag store Hpage)
    as (Hpr & Hli & Hti & Hre & Hfr & Hst & Hel).
  cbn zeta in *. revert Hpr Hli Hti Hre Hfr Hst Hel.
  generalize (exec gateUnlessAccepted (initialWorld page frag store)).
  intros w1 Hpr Hli Hti Hre Hfr Hst Hel.
  change (sortComics lc []) with (@nil Entry).
  set (w4 := updateElement "siteTagline" _ _).
  unfold tryCatch. rewrite renderAndWire_empty by done. cbn [fst].
  assert (Hinert : inert (updateElement "emptyNote"
                            (set_styleDisplay (lit "block")) w4)).
  { split; [exact Hli|]. split; [exact Hti|].
    assert (Hp : pristine (updateElement "emptyNote"
                             (set_styleDisplay (lit "block")) w4)).
    { subst w4. do 4 (apply pristine_updateElement; [done|]).
      destruct Hpr as [Hc Hh]. split; [exact Hc|exact Hh]. }
    apply Hp. }
  split; [done|]. split; [|split; [done|split; [done|split; [done|split]]]].
  - subst w4. lookup_chain. rewrite Hel by done.
    by destruct (page !! "emptyNote").
  - exact Hinert.
  - intros evs. by apply inert_events.
Qed.

(** X9 on the sample page with a manifest without a [comics] field: a
    click on the accept button does nothing. *)
Lemma init_empty_collection_sample :
  let w := exec (init Collation.collate
                   (Response true (Some (JManifest (mkManifest None None None)))))
             (initialWorld samplePage None (Some ∅)) in
  disclaimerIsOpen w = true
  /\ foldl (fun w1 ev => dispatch ev w1) w [Click "discAccept"] = w.
Proof.
  intros w. split; [reflexivity|].
  apply (init_empty_collection Collation.collate (mkManifest None None None)
           samplePage None (Some ∅)); [apply noHandlers_samplePage|reflexivity].
Defined.

Lemma init_not_loaded lc f e w :
  loadData f = Throw e ->
  init lc f w
  = (updateElement "pageError" (set_textContent pageErrorText)
       (set_reports (reports (exec gateUnlessAccepted w) ++ [Logged e])
          (exec gateUnlessAccepted w)), Ok tt).
Proof.
  intros Hload. rewrite init_unfold.
  unfold tryCatch, loadAndRender. unfold bind at 1. unfold liftResult at 1.
  by rewrite Hload.
Qed.

Lemma init_null lc w :
  init lc (Response true (Some JNull)) w
  = (updateElement "pageError" (set_textContent pageErrorText)
       (set_reports (reports (exec gateUnlessAccepted w) ++ [Logged TypeError])
          (set_data (Some JNull) (exec gateUnlessAccepted w))), Ok tt).
Proof. by rewrite init_unfold. Qed.

(** X10. When the manifest cannot be loaded, or its body is the document
    [null], initialisation on a page as written writes the fixed message
    and one report, holds no entries and wires nothing: no event changes
    anything afterwards, so only loading the page again can recover. *)
Theorem init_failure_is_terminal lc f page frag store :
  noHandlers page ->
  (exists e, loadData f = Throw e) \/ f = Response true (Some JNull) ->
  let w' := exec (init lc f) (initialWorld page frag store) in
  textContent <$> getElementById "pageError" w'
  = (fun _ => pageErrorText) <$> page !! "pageError"
  /\ comics (state w') = []
  /\ (exists e, reports w' = [Logged e])
  /\ fragment w' = frag
  /\ inert w'
  /\ forall evs, foldl (fun w1 ev => dispatch ev w1) w' evs = w'.
Proof.
  intros Hpage Hcase. cbn zeta.
  destruct (pristine_gated page frag store Hpage)
    as (Hpr & Hli & Hti & Hre & Hfr & Hst & Hel).
  cbn zeta in *.
  assert (Hform : exists e d,
             exec (init lc f) (initialWorld page frag store)
             = updateElement "pageError" (set_textContent pageErrorText)
                 (set_reports [Logged e]
                    (set_data d
                       (exec gateUnlessAccepted (initialWorld page frag store))))).
  { destruct Hcase as [[e Hload]| ->].
    - exists e, None. unfold exec at 1. rewrite (init_not_loaded _ _ _ _ Hload).
      cbn [fst]. rewrite Hre. f_equal. unfold set_data. rewrite Hst.
      revert Hst. generalize (exec gateUnlessAccepted (initialWorld page frag store)).
      intros w1 Hst. destruct w1. simpl in *. by subst.
    - exists TypeError, (Some JNull). unfold exec at 1. rewrite init_null.
      cbn [fst]. by rewrite Hre. }
  destruct Hform as (e & d & ->).
  revert Hpr Hli Hti Hre Hfr Hst Hel.
  generalize (exec gateUnlessAccepted (initialWorld page frag store)).
  intros w1 Hpr Hli Hti Hre Hfr Hst Hel.
  assert (Hinert : inert (updateElement "pageError" (set_textContent pageErrorText)
                            (set_reports [Logged e] (set_data d w1)))).
  { split; [exact Hli|]. split; [exact Hti|].
    assert (Hp : pristine (updateElement "pageError"
                             (set_textContent pageErrorText)
                             (set_reports [Logged e] (set_data d w1)))).
    { apply pristine_updateElement; [done|].
      destruct Hpr as [Hc Hh]. split; [exact Hc|exact Hh]. }
    apply Hp. }
  split; [|split; [|split; [|split; [|split]]]].
  - rewrite getElementById_update, decide_True by done.
    change (getElementById "pageError" (set_reports _ (set_data d w1)))
      with (getElementById "pageError" w1).
    rewrite Hel by done. by destruct (page !! "pageError").
  - simpl. by rewrite Hst.
  - by exists e.
  - exact Hfr.
  - exact Hinert.
  - intros evs. by apply inert_events.
Qed.

(** X10 on the sample page with a response that is not ok. *)
Lemma init_failure_is_terminal_sample :
  let w := exec (init Collation.collate (Response false None))
             (initialWorld samplePage None (Some ∅)) in
  foldl (fun w1 ev => dispatch ev w1) w
    [Click "btnStart"; KeyDown (lit "ArrowRight"); Click "discAccept"] = w.
Proof.
  intros w.
  apply (init_failure_is_terminal Collation.collate (Response false None)
           samplePage None (Some ∅)); [apply noHandlers_samplePage|].
  left. by exists CouldNotLoad.
Defined.

(** ** A manifest the grid cannot render *)



(** ** Opening an entry *)

Lemma getHashComic_fragment w w' :
  fragment w' = fragment w -> getHashComic w' = getHashComic w.
Proof. intros H. unfold getHashComic, locationHash. by rewrite H. Qed.

Lemma comicAt_cursor w idx c :
  comics (state w) !! idx = Some c ->
  comicAt (set_currentIndex (Z.of_nat idx) w)
    (currentIndex (state (set_currentIndex (Z.of_nat idx) w))) = Some c.
Proof.
  intros Hc. apply comicAt_Some. simpl. rewrite Nat2Z.id. split; [lia|done].
Qed.

(** The world [openComicById] leaves when everything goes well. *)
Lemma openComicById_form v w idx c :
  findIndex v (comics (state w)) = Some idx ->
  comics (state w) !! idx = Some c ->
  wellFormed (toStr v) ->
  is_Some (getElementById "reader" w) ->
  exists cs,
    Forall isScalarValue cs
    /\ flat_map Uri.unitsOf cs = toStr v
    /\ openComicById v w
       = (set_bodyOverflow (lit "hidden")
            (updateElement "reader" (setAttribute "open" [])
               (set_fragment (Some (lit "c=" ++ flat_map encodeScalar cs))
                  (exec renderReader (set_currentIndex (Z.of_nat idx) w)))),
          Ok tt)
    /\ getElementById "reader"
         (exec renderReader (set_currentIndex (Z.of_nat idx) w))
       = getElementById "reader" w.
Proof.
  intros Hf Hc Hwf [r Hr].
  set (w1 := set_currentIndex (Z.of_nat idx) w).
  pose proof (comicAt_cursor w idx c Hc) as Hc1. fold w1 in Hc1.
  destruct (setHash_wellFormed v (exec renderReader w1) Hwf)
    as (cs & Hcs & Hback & Hset).
  assert (Hreader : getElementById "reader" (exec renderReader w1)
                    = getElementById "reader" w).
  { by reader_lookup Hc1. }
  exists cs. split; [done|]. split; [done|]. split; [|done].
  unfold openComicById. rewrite Hf, bind_modify. fold w1.
  unfold bind at 1. rewrite (renderReader_Ok w1) by eauto.
  unfold bind at 1. rewrite Hset. unfold openReader.
  change (getElementById "reader" (set_fragment ?l ?w0))
    with (getElementById "reader" w0).
  by rewrite Hreader, Hr.
Qed.

(** The reader in that world. *)
Lemma opened_reader cs w :
  is_Some (getElementById "reader" w) -> Forall isScalarValue cs ->
  let w' := set_bodyOverflow (lit "hidden")
              (updateElement "reader" (setAttribute "open" [])
                 (set_fragment (Some (lit "c=" ++ flat_map encodeScalar cs)) w)) in
  readerIsOpen w' = true
  /\ getHashComic w' = Some (flat_map Uri.unitsOf cs)
  /\ state w' = state w
  /\ reports w' = reports w.
Proof.
  intros [r Hr] Hcs. cbn zeta. split; [|split; [|done]].
  - unfold readerIsOpen. lookup_chain. rewrite Hr. simpl.
    unfold hasAttribute. simpl. apply bool_decide_eq_true.
    by rewrite lookup_insert_eq.
  - etrans;
      [apply (getHashComic_fragment
                (set_fragment (Some (lit "c=" ++ flat_map encodeScalar cs)) w));
       reflexivity|].
    by rewrite getHashComic_written.
Qed.

(** X12. Opening an entry that is in the collection, by an id whose
    string is well formed, on a page with the reader: the call returns, the
    cursor is on the first entry with that id, the reader is open with the
    body locked, it shows that entry's title, metadata and image, and the
    fragment reads back as the id. *)
Theorem openComicById_opens v w idx c :
  findIndex v (comics (state w)) = Some idx ->
  comics (state w) !! idx = Some c ->
  wellFormed (toStr v) ->
  is_Some (getElementById "reader" w) ->
  let w' := exec (openComicById v) w in
  openComicById v w = (w', Ok tt)
  /\ currentIndex (state w') = Z.of_nat idx
  /\ readerIsOpen w' = true
  /\ bodyOverflow w' = lit "hidden"
  /\ getHashComic w' = Some (toStr v)
  /\ textContent <$> getElementById "readerTitle" w'
     = (fun _ => displayTitle c) <$> getElementById "readerTitle" w
  /\ textContent <$> getElementById "readerMeta" w'
     = (fun _ => displayMeta c) <$> getElementById "readerMeta" w
  /\ (fun el => attributes el !! "src") <$> getElementById "readerImg" w'
     = (fun _ => Some (toStr (fieldVal (image c))))
         <$> getElementById "readerImg" w.
Proof.
  intros Hf Hc Hwf Hr. cbn zeta.
  destruct (openComicById_form v w idx c Hf Hc Hwf Hr)
    as (cs & Hcs & Hback & Hform & Hreader).
  set (w1 := set_currentIndex (Z.of_nat idx) w) in *.
  pose proof (comicAt_cursor w idx c Hc) as Hc1. fold w1 in Hc1.
  assert (Hw1 : forall i, getElementById i w1 = getElementById i w) by done.
  destruct (opened_reader cs (exec renderReader w1)) as (Hopen & Hhash & Hst & _);
    [by rewrite Hreader|done|].
  unfold exec at 1 2 3 4 5 6 7 8. rewrite Hform. cbn [fst].
  split; [done|]. split; [|split; [done|split; [done|split; [|split; [|split]]]]].
  - rewrite Hst. by rewrite renderReader_state.
  - by rewrite Hhash, Hback.
  - lookup_chain. reader_lookup Hc1. rewrite Hw1.
    by destruct (getElementById "readerTitle" w).
  - lookup_chain. reader_lookup Hc1. rewrite Hw1.
    by destruct (getElementById "readerMeta" w).
  - lookup_chain. reader_lookup Hc1. rewrite Hw1.
    destruct (getElementById "readerImg" w); [|done]. simpl.
    by rewrite lookup_insert_ne, lookup_insert_eq.
Qed.

(** X12 on the sample world: opening the entry 002. *)
Lemma openComicById_opens_sample :
  let w := exec (openComicById (VString (lit "002"))) sampleWorld in
  currentIndex (state w) = 1
  /\ readerIsOpen w = true
  /\ getHashComic w = Some (lit "002").
Proof.
  intros w.
  destruct (openComicById_opens (VString (lit "002")) sampleWorld 1 entryB)
    as (_ & Hi & Hopen & _ & Hhash & _).
  - reflexivity.
  - reflexivity.
  - split; [by repeat constructor|]. intros u Hu. vm_compute in Hu.
    repeat (apply elem_of_cons in Hu as [Hu|Hu]; [discriminate|]).
    by apply elem_of_nil in Hu.
  - vm_compute. eauto.
  - split; [exact Hi|]. split; [exact Hopen|exact Hhash].
Defined.

(** ** The buttons of the reader, clicked *)

Lemma clickListener_elsewhere l b w :
  b ∉ listenedIds -> clickListener l b w = (w, Ok tt).
Proof.
  intros Hb. unfold listenedIds in Hb.
  destruct l; simpl; try done;
    (rewrite bool_decide_eq_false_2; [done|]); intros ->; apply Hb;
    repeat first [ apply list_elem_of_here | apply list_elem_of_further ].
Qed.

Lemma fireClick_elsewhere b w :
  b ∉ listenedIds ->
  fireClick b w
  = match getElementById b w with
    | Some el =>
        match onclick el with
        | Some h => reported (runHandler h) w
        | None => w
        end
    | None => w
    end.
Proof.
  intros Hb. unfold fireClick. apply foldl_fixed. intros l.
  unfold reported. by rewrite clickListener_elsewhere.
Qed.

Lemma reported_fields m w :
  state (reported m w) = state (exec m w)
  /\ document (reported m w) = document (exec m w)
  /\ fragment (reported m w) = fragment (exec m w)
  /\ listeners (reported m w) = listeners (exec m w).
Proof. unfold reported, exec. by destruct (m w) as [w1 [[]|e]]. Qed.

Lemma captured_hash_fields o w :
  let w' := exec (v <- idOfCaptured o ;; setHash v) w in
  state w' = state w /\ document w' = document w /\ listeners w' = listeners w.
Proof.
  unfold exec, bind, idOfCaptured, setHash.
  destruct o as [c|]; simpl; [|done]. unfold ret, liftResult, bind. simpl.
  by destruct (Uri.encodeURIComponent (toStr (id c))).
Qed.

Lemma exec_modify {B} f (k : M B) w : exec (modify f ;; k) w = exec k (f w).
Proof. reflexivity. Qed.

Lemma exec_renderReader_then {B} (k : M B) w :
  is_Some (comicAt w (currentIndex (state w))) ->
  exec (renderReader ;; k) w = exec k (exec renderReader w).
Proof. intros Hc. by rewrite exec_bind, renderReader_Ok. Qed.

(** A handler of the reader moves the cursor and renders; the document it
    leaves is the one rendering leaves. *)
Lemma moved_fields (f : World -> World) o w :
  is_Some (comicAt (f w) (currentIndex (state (f w)))) ->
  let w' := reported (modify f ;; renderReader ;;
                      v <- idOfCaptured o ;; setHash v) w in
  state w' = state (f w)
  /\ document w' = document (exec renderReader (f w))
  /\ listeners w' = listeners (exec renderReader (f w)).
Proof.
  intros Hc. cbn zeta.
  destruct (reported_fields (modify f ;; renderReader ;;
                             v <- idOfCaptured o ;; setHash v) w)
    as (-> & -> & _ & ->).
  rewrite exec_modify, exec_renderReader_then by done.
  destruct (captured_hash_fields o (exec renderReader (f w))) as (Hs & Hd & Hl).
  split; [|done]. rewrite Hs. apply renderReader_state.
Qed.

Lemma present_update b j f w :
  is_Some (getElementById b (updateElement j f w))
  <-> is_Some (getElementById b w).
Proof.
  rewrite getElementById_update. case_decide; [apply fmap_is_Some|done].
Qed.

Lemma renderReader_present b w :
  is_Some (getElementById b (exec renderReader w))
  <-> is_Some (getElementById b w).
Proof.
  unfold exec, renderReader.
  destruct (comicAt w (currentIndex (state w))); [|done].
  unfold bind, setText, setAttr, setBtn, preload, modify. cbn [fst].
  change (getElementById b (set_preloaded ?l ?w0)) with (getElementById b w0).
  by rewrite !present_update.
Qed.

(** What a click on one of the three buttons does after rendering. *)
Lemma click_after_render b (mk : option Entry -> Handler) (j : Z) w c :
  b ∉ listenedIds ->
  comicAt w (currentIndex (state w)) = Some c ->
  is_Some (getElementById b w) ->
  getElementById b (exec renderReader w)
  = getElementById b
      (exec (setBtn b (bool_decide (is_Some (comicAt w j))) (mk (comicAt w j))) w) ->
  dispatch (Click b) (exec renderReader w)
  = if bool_decide (is_Some (comicAt w j))
    then reported (runHandler (mk (comicAt w j))) (exec renderReader w)
    else exec renderReader w.
Proof.
  intros Hb Hc [el Hel] Hbtn. simpl. rewrite fireClick_elsewhere by done.
  rewrite Hbtn, setBtn_target, Hel. simpl.
  by destruct (bool_decide (is_Some (comicAt w j))).
Qed.

Lemma comicAt_state w w' i : state w' = state w -> comicAt w' i = comicAt w i.
Proof. intros H. unfold comicAt. by rewrite H. Qed.

Lemma not_listened b : b ∈ ["btnPrev"; "btnNext"; "btnLatest"] -> b ∉ listenedIds.
Proof.
  intros Hb Hl. unfold listenedIds in Hl.
  repeat (apply elem_of_cons in Hb as [->|Hb]);
    try (by apply elem_of_nil in Hb);
    repeat (apply elem_of_cons in Hl as [Hl|Hl]; [discriminate|]);
    by apply elem_of_nil in Hl.
Qed.

Lemma handler_moves h w :
  (exists o, h = OnPrev o \/ h = OnNext o \/ h = OnLatest o) ->
  0 <= movedTo h w < Z.of_nat (length (comics (state w))) ->
  let w2 := reported (runHandler h) w in
  state w2 = mkState (data (state w)) (comics (state w)) (movedTo h w)
  /\ document w2
     = document (exec renderReader (set_currentIndex (movedTo h w) w)).
Proof.
  intros (o & Hh) Hrange. cbn zeta.
  assert (Hin : is_Some (comicAt (set_currentIndex (movedTo h w) w)
                           (movedTo h w))).
  { by apply comicAt_is_Some. }
  destruct Hh as [-> | [-> | ->]]; simpl in *;
    match goal with
    | |- context [reported (bind (modify ?f) ?k) w] =>
        destruct (moved_fields f o w Hin) as (Hs & Hd & _)
    end; by rewrite Hs, Hd.
Qed.

(** X13. Once the reader is rendered with the cursor at a position [i]
    of a collection of [n] entries, on a page with the three buttons: a
    click on next moves the cursor to [i + 1], and does nothing at all at
    the last position; a click on previous moves it to [i - 1], and does
    nothing at the first; a click on latest moves it to [n - 1]; the
    collection stays the same; and next followed by previous comes back to
    [i]. *)
Theorem reader_buttons_step (w : World) :
  let i := currentIndex (state w) in
  let n := Z.of_nat (length (comics (state w))) in
  0 <= i < n ->
  is_Some (getElementById "btnPrev" w) ->
  is_Some (getElementById "btnNext" w) ->
  is_Some (getElementById "btnLatest" w) ->
  let w1 := exec renderReader w in
  let next := dispatch (Click "btnNext") w1 in
  let prev := dispatch (Click "btnPrev") w1 in
  let latest := dispatch (Click "btnLatest") w1 in
  currentIndex (state next) = Z.min (i + 1) (n - 1)
  /\ currentIndex (state prev) = Z.max (i - 1) 0
  /\ currentIndex (state latest) = n - 1
  /\ (i = n - 1 -> next = w1)
  /\ (i = 0 -> prev = w1)
  /\ comics (state next) = comics (state w)
  /\ comics (state prev) = comics (state w)
  /\ comics (state latest) = comics (state w)
  /\ (i + 1 < n ->
      currentIndex (state (dispatch (Click "btnPrev") next)) = i).
Proof.
  intros i n Hi Hprev Hnext Hlatest w1 next prev latest.
  assert (Hsome : is_Some (comicAt w i)) by (by apply comicAt_is_Some).
  destruct Hsome as [c Hc].
  pose proof (renderReader_state w) as Hst1. fold w1 in Hst1.
  assert (Hnext' : next = if bool_decide (is_Some (comicAt w (i + 1)))
                          then reported (runHandler (OnNext (comicAt w (i + 1)))) w1
                          else w1).
  { apply (click_after_render "btnNext" OnNext (i + 1) w c);
      [apply not_listened; repeat constructor|done|done|].
    by apply (renderReader_btnNext w c). }
  assert (Hprev' : prev = if bool_decide (is_Some (comicAt w (i - 1)))
                          then reported (runHandler (OnPrev (comicAt w (i - 1)))) w1
                          else w1).
  { apply (click_after_render "btnPrev" OnPrev (i - 1) w c);
      [apply not_listened; repeat constructor|done|done|].
    by apply (renderReader_btnPrev w c). }
  assert (Hlatest' : latest = if bool_decide (is_Some (comicAt w (n - 1)))
                              then reported (runHandler (OnLatest (comicAt w (n - 1)))) w1
                              else w1).
  { apply (click_after_render "btnLatest" OnLatest (n - 1) w c);
      [apply not_listened; repeat constructor|done|done|].
    by apply (renderReader_btnLatest w c). }
  assert (Hrun : forall h,
             (exists o, h = OnPrev o \/ h = OnNext o \/ h = OnLatest o) ->
             0 <= movedTo h w1 < n ->
             state (reported (runHandler h) w1)
             = mkState (data (state w)) (comics (state w)) (movedTo h w1)).
  { intros h Hh Hrange.
    destruct (handler_moves h w1 Hh) as [Hs _]; [by rewrite Hst1|].
    by rewrite Hs, Hst1. }
  assert (Hcur : currentIndex (state w1) = i) by (by rewrite Hst1).
  assert (Hlen : Z.of_nat (length (comics (state w1))) = n) by (by rewrite Hst1).
  assert (Hn : currentIndex (state next) = Z.min (i + 1) (n - 1)
               /\ comics (state next) = comics (state w)
               /\ (i = n - 1 -> next = w1)).
  { rewrite Hnext'.
    destruct (decide (is_Some (comicAt w (i + 1)))) as [Hb|Hb];
      [rewrite bool_decide_eq_true_2 by done
      |rewrite bool_decide_eq_false_2 by done].
    - apply comicAt_is_Some in Hb. fold n in Hb.
      rewrite (Hrun (OnNext (comicAt w (i + 1)))); [|eauto|simpl; lia].
      simpl. split; [lia|]. split; [done|lia].
    - rewrite comicAt_is_Some in Hb. fold n in Hb.
      split; [lia|]. split; [by rewrite Hst1|done]. }
  assert (Hp : currentIndex (state prev) = Z.max (i - 1) 0
               /\ comics (state prev) = comics (state w)
               /\ (i = 0 -> prev = w1)).
  { rewrite Hprev'.
    destruct (decide (is_Some (comicAt w (i - 1)))) as [Hb|Hb];
      [rewrite bool_decide_eq_true_2 by done
      |rewrite bool_decide_eq_false_2 by done].
    - apply comicAt_is_Some in Hb. fold n in Hb.
      rewrite (Hrun (OnPrev (comicAt w (i - 1)))); [|eauto|simpl; lia].
      simpl. split; [lia|]. split; [done|lia].
    - rewrite comicAt_is_Some in Hb. fold n in Hb.
      split; [lia|]. split; [by rewrite Hst1|done]. }
  assert (Hl : currentIndex (state latest) = n - 1
               /\ comics (state latest) = comics (state w)).
  { rewrite Hlatest'.
    destruct (decide (is_Some (comicAt w (n - 1)))) as [Hb|Hb];
      [rewrite bool_decide_eq_true_2 by done
      |rewrite bool_decide_eq_false_2 by done].
    - rewrite (Hrun (OnLatest (comicAt w (n - 1)))); [|eauto 6|simpl; lia].
      simpl. split; [lia|done].
    - rewrite comicAt_is_Some in Hb. fold n in Hb. lia. }
  destruct Hn as (Hn1 & Hn2 & Hn3), Hp as (Hp1 & Hp2 & Hp3), Hl as (Hl1 & Hl2).
  repeat split; try done.
  intros Hlt.
  (* next, then previous *)
  assert (Hb : is_Some (comicAt w (i + 1))) by (apply comicAt_is_Some; fold n; lia).
  rewrite bool_decide_eq_true_2 in Hnext' by done.
  destruct (handler_moves (OnNext (comicAt w (i + 1))) w1) as [Hs Hd];
    [eauto|simpl; lia|].
  rewrite <- Hnext' in Hs, Hd. simpl in Hs, Hd. rewrite Hcur, Hst1 in Hs.
  rewrite Hcur in Hd.
  set (w1' := set_currentIndex (i + 1) w1) in *.
  assert (Hc' : is_Some (comicAt w1' (currentIndex (state w1')))).
  { apply comicAt_is_Some. simpl. rewrite Hst1. fold n. lia. }
  destruct Hc' as [c' Hc'].
  assert (Hpresent : is_Some (getElementById "btnPrev" w1')).
  { change (getElementById "btnPrev" w1') with (getElementById "btnPrev" w1).
    by apply renderReader_present. }
  assert (Hon : exists el,
             getElementById "btnPrev" next = Some el
             /\ onclick el = Some (OnPrev (comicAt w1' (i + 1 - 1)))).
  { unfold getElementById at 1. rewrite Hd.
    fold (getElementById "btnPrev" (exec renderReader w1')).
    rewrite (renderReader_btnPrev w1' c' Hc'), setBtn_target.
    destruct Hpresent as [el Hel]. rewrite Hel. eexists. split; [done|].
    cbn [currentIndex state w1' set_currentIndex set_state].
    rewrite bool_decide_eq_true_2; [done|].
    apply comicAt_is_Some. simpl. rewrite Hst1. fold n. lia. }
  destruct Hon as (el & Hel & Hon).
  simpl. rewrite fireClick_elsewhere by (apply not_listened; repeat constructor).
  rewrite Hel, Hon.
  destruct (handler_moves (OnPrev (comicAt w1' (i + 1 - 1))) next) as [Hs' _];
    [eauto|simpl; rewrite Hs; simpl; fold n; lia|].
  rewrite Hs'. simpl. rewrite Hs. simpl. lia.
Qed.

(** X13 on the sample world, whose cursor is at the first of two entries. *)
Lemma reader_buttons_step_sample :
  let w1 := exec renderReader sampleWorld in
  currentIndex (state (dispatch (Click "btnNext") w1)) = 1
  /\ dispatch (Click "btnPrev") w1 = w1
  /\ currentIndex
       (state (dispatch (Click "btnPrev") (dispatch (Click "btnNext") w1))) = 0.
Proof.
  intros w1.
  destruct (reader_buttons_step sampleWorld)
    as (Hn & _ & _ & _ & Hp & _ & _ & _ & Hnp);
    [vm_compute; split; [discriminate|reflexivity]
    |vm_compute; eauto|vm_compute; eauto|vm_compute; eauto|].
  split; [exact Hn|]. split; [by apply Hp|]. apply Hnp. reflexivity.
Defined.

(** ** The keyboard *)

Ltac other_key :=
  let H := fresh in intros H; vm_compute in H; discriminate.

Lemma otherListener_elsewhere l key w :
  l <> LKeydown -> otherListener l (KeyDown key) w = (w, Ok tt).
Proof. intros Hl. by destruct l. Qed.

Lemma foldl_not_keydown ls key : forall w,
  LKeydown ∉ ls ->
  foldl (fun w' l => reported (otherListener l (KeyDown key)) w') w ls = w.
Proof.
  induction ls as [|l ls IH]; intros w Hls; simpl; [done|].
  apply not_elem_of_cons in Hls as [Hl Hls].
  unfold reported at 2. rewrite otherListener_elsewhere by done. by apply IH.
Qed.

Lemma dispatch_keydown_once key w l1 l2 :
  listeners w = l1 ++ LKeydown :: l2 -> LKeydown ∉ l1 -> LKeydown ∉ l2 ->
  dispatch (KeyDown key) w = reported (onKeydown key) w.
Proof.
  intros Hl H1 H2. simpl. rewrite Hl, foldl_app. simpl.
  rewrite foldl_not_keydown by done. by rewrite foldl_not_keydown.
Qed.

Lemma onKeydown_closed key w :
  readerIsOpen w = false -> key <> lit "Escape" -> onKeydown key w = (w, Ok tt).
Proof.
  intros Hclosed Hkey. unfold onKeydown.
  rewrite bool_decide_eq_false_2 by done. simpl.
  unfold bind, ret. by rewrite Hclosed.
Qed.

(** X14. While the reader is closed, no key other than Escape does
    anything. While it is open, with the keydown listener in place once,
    the right arrow is a click on next and the left arrow a click on
    previous, whether or not the disclaimer is open, and a key other than
    the arrows and Escape does nothing. *)
Theorem arrow_keys (w : World) :
  (forall key,
      readerIsOpen w = false -> key <> lit "Escape" ->
      dispatch (KeyDown key) w = w)
  /\ (forall l1 l2,
        listeners w = l1 ++ LKeydown :: l2 -> LKeydown ∉ l1 -> LKeydown ∉ l2 ->
        readerIsOpen w = true ->
        dispatch (KeyDown (lit "ArrowRight")) w = dispatch (Click "btnNext") w
        /\ dispatch (KeyDown (lit "ArrowLeft")) w = dispatch (Click "btnPrev") w
        /\ forall key,
             key <> lit "Escape" -> key <> lit "ArrowLeft" ->
             key <> lit "ArrowRight" -> dispatch (KeyDown key) w = w).
Proof.
  split.
  - intros key Hclosed Hkey. simpl. apply foldl_fixed. intros l.
    destruct l; try reflexivity.
    unfold reported, otherListener. by rewrite onKeydown_closed.
  - intros l1 l2 Hl H1 H2 Hopen.
    assert (Hrun : forall key, key <> lit "Escape" ->
               dispatch (KeyDown key) w
               = exec ((if bool_decide (key = lit "ArrowLeft")
                        then clickById "btnPrev" else ret tt) ;;
                       (if bool_decide (key = lit "ArrowRight")
                        then clickById "btnNext" else ret tt)) w).
    { intros key Hkey. rewrite (dispatch_keydown_once key w l1 l2) by done.
      unfold reported, onKeydown. rewrite bool_decide_eq_false_2 by done.
      simpl. unfold bind at 1. unfold ret at 1. rewrite Hopen. simpl.
      unfold exec.
      by destruct (bool_decide (key = lit "ArrowLeft")),
                  (bool_decide (key = lit "ArrowRight")). }
    split; [|split].
    + rewrite Hrun by other_key.
      rewrite (bool_decide_eq_false_2 (lit "ArrowRight" = lit "ArrowLeft")) by other_key.
      by rewrite bool_decide_eq_true_2.
    + rewrite Hrun by other_key.
      rewrite (bool_decide_eq_false_2 (lit "ArrowLeft" = lit "ArrowRight")) by other_key.
      by rewrite bool_decide_eq_true_2.
    + intros key He Hl' Hr. rewrite Hrun by done.
      by rewrite !bool_decide_eq_false_2.
Qed.

(** X14 on the sample world with the first entry open: the right arrow
    moves to the second entry although the disclaimer is still open. *)
Lemma arrow_keys_sample :
  let w := dispatch (Click "btnStart") sampleWorld in
  disclaimerIsOpen w = true
  /\ dispatch (KeyDown (lit "ArrowRight")) w = dispatch (Click "btnNext") w
  /\ currentIndex (state (dispatch (KeyDown (lit "ArrowRight")) w)) = 1
  /\ dispatch (KeyDown (lit "ArrowRight")) sampleWorld = sampleWorld.
Proof.
  intros w. split; [reflexivity|].
  destruct (arrow_keys w) as [_ Hopen].
  destruct (Hopen [LTab; LDiscAccept; LOpenDisc; LDiscOverlay; LBtnStart;
                   LBtnOpenLatest; LBtnClose; LReaderBg]
              [LTouchStart; LTouchEnd]) as (Hr & _).
  - reflexivity.
  - intros H. vm_compute in H.
    repeat (apply elem_of_cons in H as [H|H]; [discriminate|]).
    by apply elem_of_nil in H.
  - intros H.
    repeat (apply elem_of_cons in H as [H|H]; [discriminate|]).
    by apply elem_of_nil in H.
  - reflexivity.
  - split; [exact Hr|]. split; [reflexivity|].
    apply (proj1 (arrow_keys sampleWorld)); [reflexivity|other_key].
Defined.

(** ** Closing the reader *)

Lemma closeReader_idem w :
  exec closeReader (exec closeReader w) = exec closeReader w.
Proof.
  unfold exec, closeReader.
  destruct (getElementById "reader" w) as [r|] eqn:Hr; cbn [fst]; [|by rewrite Hr].
  change (getElementById "reader" (set_bodyOverflow ?o ?w0))
    with (getElementById "reader" w0).
  rewrite getElementById_update, decide_True, Hr by done.
  cbn [fmap option_fmap option_map fst].
  unfold set_bodyOverflow. cbn. f_equal.
  rewrite alter_alter_eq. apply alter_ext. intros el _.
  unfold removeAttribute. simpl. by rewrite delete_delete_eq.
Qed.

(** Listeners each of which either does nothing or applies one and the
    same idempotent operation. *)
Section Repeated.

Context {L : Type} (step : World -> L -> World) (I : World -> Prop).
Context (op : World -> World).

Hypothesis op_idem : forall w, op (op w) = op w.
Hypothesis step_cases : forall w l, I w -> step w l = w \/ step w l = op w.
Hypothesis I_op : forall w, I w -> I (op w).

Lemma foldl_op_or_not ls : forall w,
  I w -> foldl step w ls = w \/ foldl step w ls = op w.
Proof.
  induction ls as [|l ls IH]; intros w Hw; simpl; [by left|].
  destruct (step_cases w l Hw) as [-> | ->]; [by apply IH|].
  right. destruct (IH (op w) (I_op w Hw)) as [-> | ->]; [done|apply op_idem].
Qed.

Lemma foldl_op ls l0 : forall w,
  I w -> l0 ∈ ls ->
  (forall w0, I w0 -> step w0 l0 = op w0) ->
  foldl step w ls = op w.
Proof.
  intros w Hw Hin Hl0. revert w Hw.
  induction ls as [|l ls IH]; intros w Hw; [by apply elem_of_nil in Hin|].
  simpl. apply elem_of_cons in Hin as [<- | Hin].
  - rewrite Hl0 by done.
    destruct (foldl_op_or_not ls (op w) (I_op w Hw)) as [-> | ->];
      [done|apply op_idem].
  - destruct (step_cases w l Hw) as [-> | ->]; [by apply IH|].
    rewrite IH by auto. apply op_idem.
Qed.

End Repeated.

Lemma closeReader_frame w :
  let w' := exec closeReader w in
  state w' = state w /\ fragment w' = fragment w /\ listeners w' = listeners w
  /\ forall i, i <> "reader" -> getElementById i w' = getElementById i w.
Proof.
  unfold exec, closeReader.
  destruct (getElementById "reader" w); cbn [fst]; repeat split; try done.
  intros i Hi. by lookup_chain.
Qed.

Lemma closeReader_Ok w :
  is_Some (getElementById "reader" w) ->
  closeReader w = (exec closeReader w, Ok tt)
  /\ readerIsOpen (exec closeReader w) = false
  /\ is_Some (getElementById "reader" (exec closeReader w)).
Proof.
  intros [r Hr]. unfold exec, closeReader, readerIsOpen. rewrite Hr. cbn [fst].
  lookup_chain. rewrite Hr. simpl. split; [done|]. split; [|eauto].
  unfold hasAttribute. simpl.
  apply bool_decide_eq_false. rewrite lookup_delete_eq. by intros [? [=]].
Qed.

(** X15. On a page with the reader, each way of closing comes to
    [closeReader]: Escape while the disclaimer is not open, a click on the
    close button, and a click on the backdrop of the reader itself. The
    reader is then closed, and the cursor and the fragment are kept, so the
    fragment still names the entry that was open. *)
Theorem reader_close_paths (w : World) :
  navInv w ->
  is_Some (getElementById "reader" w) ->
  (disclaimerIsOpen w = false -> LKeydown ∈ listeners w ->
   dispatch (KeyDown (lit "Escape")) w = exec closeReader w)
  /\ (LBtnClose ∈ listeners w ->
      dispatch (Click "btnClose") w = exec closeReader w)
  /\ (LReaderBg ∈ listeners w ->
      dispatch (Click "reader") w = exec closeReader w)
  /\ readerIsOpen (exec closeReader w) = false
  /\ state (exec closeReader w) = state w
  /\ fragment (exec closeReader w) = fragment w.
Proof.
  intros Hinv Hreader.
  destruct (closeReader_frame w) as (Hst & Hfr & _).
  destruct (closeReader_Ok w Hreader) as (_ & Hclosed & _).
  assert (Hpresent : forall w0, is_Some (getElementById "reader" w0) ->
                                is_Some (getElementById "reader" (exec closeReader w0))).
  { intros w0 H0. by apply closeReader_Ok. }
  assert (Hclick : forall target l0,
             target ∈ ["btnClose"; "reader"] ->
             clickListener l0 target = closeReader ->
             (forall l, clickListener l target = closeReader
                        \/ clickListener l target = ret tt) ->
             l0 ∈ listeners w ->
             dispatch (Click target) w = exec closeReader w).
  { intros target l0 Htarget Hl0 Hcases Hin. simpl. unfold fireClick.
    assert (Hnone : match getElementById target w with
                    | Some el =>
                        match onclick el with
                        | Some h => reported (runHandler h) w
                        | None => w
                        end
                    | None => w
                    end = w).
    { destruct (getElementById target w) as [el|] eqn:Hel; [|done].
      destruct (onclick el) as [h|] eqn:Hon; [|done].
      pose proof (proj1 Hinv target el h Hel Hon) as Hok.
      repeat (apply elem_of_cons in Htarget as [->|Htarget]);
        try (by apply elem_of_nil in Htarget);
        destruct h; simpl in Hok; try discriminate; by destruct Hok. }
    rewrite Hnone.
    eapply (foldl_op _ (fun w0 => is_Some (getElementById "reader" w0))
              (exec closeReader) closeReader_idem);
      [|exact Hpresent|exact Hreader|exact Hin|].
    - intros w0 l H0. destruct (Hcases l) as [-> | ->]; [right|by left].
      unfold reported. by rewrite (proj1 (closeReader_Ok w0 H0)).
    - intros w0 H0. cbn beta. rewrite Hl0. unfold reported.
      by rewrite (proj1 (closeReader_Ok w0 H0)). }
  split; [|split; [|split; [|done]]].
  - intros Hdisc Hin. simpl.
    eapply (foldl_op _ (fun w0 => is_Some (getElementById "reader" w0)
                                  /\ disclaimerIsOpen w0 = false)
              (exec closeReader) closeReader_idem);
      [| |split; [exact Hreader|exact Hdisc]|exact Hin|].
    + intros w0 l [H0 Hd0].
      destruct (decide (l = LKeydown)) as [->|Hl];
        [right|left; unfold reported; by rewrite otherListener_elsewhere].
      unfold reported, otherListener, onKeydown.
      rewrite Hd0, andb_false_r, bool_decide_eq_true_2 by done.
      destruct (closeReader_Ok w0 H0) as (Hok & Hcl & _).
      unfold bind. rewrite Hok, Hcl. done.
    + intros w0 [H0 Hd0]. split; [by apply Hpresent|].
      unfold disclaimerIsOpen in *.
      by rewrite (proj2 (proj2 (proj2 (closeReader_frame w0)))).
    + intros w0 [H0 Hd0].
      unfold reported, otherListener, onKeydown.
      rewrite Hd0, andb_false_r, bool_decide_eq_true_2 by done.
      destruct (closeReader_Ok w0 H0) as (Hok & Hcl & _).
      unfold bind. rewrite Hok, Hcl. done.
  - apply (Hclick "btnClose" LBtnClose); [repeat constructor|done|].
    intros l. destruct l; simpl; auto.
  - apply (Hclick "reader" LReaderBg); [repeat constructor|done|].
    intros l. destruct l; simpl; auto.
Qed.

Ltac in_listeners :=
  match goal with
  | |- ?l ∈ ?ls =>
      let ls' := eval vm_compute in ls in
      change (l ∈ ls');
      repeat first [ apply list_elem_of_here | apply list_elem_of_further ]
  end.

(** X15 on the sample world with the disclaimer accepted and the first
    entry open. *)
Lemma reader_close_paths_sample :
  let w := dispatch (Click "btnStart")
             (dispatch (Click "discAccept") sampleWorld) in
  readerIsOpen w = true
  /\ readerIsOpen (dispatch (KeyDown (lit "Escape")) w) = false
  /\ dispatch (Click "btnClose") w = dispatch (KeyDown (lit "Escape")) w
  /\ fragment (dispatch (Click "reader") w) = Some (lit "c=001").
Proof.
  intros w. split; [reflexivity|].
  destruct (reader_close_paths w) as (He & Hb & Hr & Hclosed & _ & Hfr).
  - do 2 apply navInv_dispatch. apply navInv_sampleWorld.
  - vm_compute. eauto.
  - assert (Hk : LKeydown ∈ listeners w) by in_listeners.
    assert (Hc : LBtnClose ∈ listeners w) by in_listeners.
    assert (Hg : LReaderBg ∈ listeners w) by in_listeners.
    rewrite (He eq_refl Hk), (Hb Hc), (Hr Hg).
    split; [exact Hclosed|]. split; [reflexivity|]. by rewrite Hfr.
Defined.

(** ** Swipes *)



(** ** Tiles *)

Lemma openComicById_cursor v w idx :
  findIndex v (comics (state w)) = Some idx ->
  currentIndex (state (exec (openComicById v) w)) = Z.of_nat idx.
Proof.
  intros Hf. unfold exec, openComicById. rewrite Hf.
  set (w1 := set_currentIndex (Z.of_nat idx) w).
  assert (Hst : state (exec (renderReader ;; setHash v ;; openReader) w1)
                = state w1).
  { apply exec_bind_state; [apply renderReader_state|]. intros _ w'.
    apply exec_bind_state; [apply setHash_state|]. intros _ w''.
    apply openReader_state. }
  unfold exec in Hst. rewrite !bind_modify. fold w1. by rewrite Hst.
Qed.

(** X17. In a grid rendered from the collection, the tile of an entry
    whose id is a non-empty string that the markup carries verbatim opens
    by that id: the cursor goes to the first entry with that id, which is
    the entry itself when no earlier one shares it. The tile of an entry
    without an id, or with the id 0, carries an empty value, and a click on
    it changes nothing as long as every entry's id has a non-empty
    string. *)
Theorem tile_click (w : World) (n : nat) (c : Entry) :
  tiles w = dataOpen <$> comics (state w) ->
  comics (state w) !! n = Some c ->
  (forall s, id c = VString s -> s <> [] -> parsedVerbatim s ->
     dispatch (ClickTile n) w = reported (openComicById (id c)) w
     /\ ((forall j c', comics (state w) !! j = Some c' -> (j < n)%nat ->
                       toStr (id c') <> s) ->
         currentIndex (state (dispatch (ClickTile n) w)) = Z.of_nat n))
  /\ (truthy (id c) = false ->
      (forall c', c' ∈ comics (state w) -> toStr (id c') <> []) ->
      dispatch (ClickTile n) w = w).
Proof.
  intros Htiles Hc.
  assert (Htile : tiles w !! n = Some (dataOpen c)).
  { by rewrite Htiles, list_lookup_fmap, Hc. }
  split.
  - intros s Hid Hs _.
    assert (Hopen : dataOpen c = s).
    { unfold dataOpen. rewrite Hid. simpl.
      by rewrite bool_decide_eq_false_2. }
    simpl. rewrite Htile, Hopen, Hid. split; [done|].
    intros Hfirst.
    assert (Hf : findIndex (VString s) (comics (state w)) = Some n).
    { apply findIndex_Some. exists c. by rewrite Hid. }
    destruct (reported_fields (openComicById (VString s)) w) as (-> & _).
    by apply openComicById_cursor.
  - intros Hfalsy Hids. simpl. rewrite Htile.
    assert (Hopen : dataOpen c = []).
    { unfold dataOpen. by rewrite Hfalsy. }
    rewrite Hopen. unfold reported, openComicById.
    by rewrite (proj2 (findIndex_None (VString []) (comics (state w)))).
Qed.

(** X17 on the sample world: the second tile opens the second entry. *)
Lemma tile_click_sample :
  currentIndex (state (dispatch (ClickTile 1) sampleWorld)) = 1.
Proof.
  destruct (tile_click sampleWorld 1 entryB) as [Hopen _];
    [reflexivity|reflexivity|].
  destruct (Hopen (lit "002") eq_refl) as [_ Hcur];
    [done|by repeat constructor|].
  apply Hcur. intros j c' Hj Hlt.
  destruct j as [|j]; [|lia]. vm_compute in Hj. injection Hj as <-. done.
Defined.

(** ** The fragment as written *)

(** X18. For an id made of letters, digits and the marks the encoding
    leaves alone, the fragment is the id itself after [c=], as in
    [#c=001]. *)
Theorem setHash_plain_format (v : JsVal) (w : World) :
  Forall (fun u => Uri.unreserved u = true) (toStr v) ->
  setHash v w = (set_fragment (Some (lit "c=" ++ toStr v)) w, Ok tt)
  /\ locationHash (exec (setHash v) w) = lit "#c=" ++ toStr v.
Proof.
  intros Hs.
  assert (Hinert : Forall inertUnit (toStr v)).
  { eapply Forall_impl; [exact Hs|]. intros u Hu. by left. }
  assert (Hplain : Forall plainUnit (toStr v)).
  { eapply Forall_impl; [exact Hinert|]. apply UriFacts.inert_plain. }
  assert (Henc : Uri.encodeURIComponent (toStr v) = Ok (toStr v)).
  { unfold Uri.encodeURIComponent.
    rewrite UriFacts.codePoints_plain, UriFacts.encodePoints_scalars by done.
    f_equal. clear Hinert Hplain.
    induction Hs as [|u s Hu _ IH]; [done|]. simpl.
    unfold encodeScalar at 1. by rewrite Hu, IH. }
  assert (Hset : setHash v w
                 = (set_fragment (Some (lit "c=" ++ toStr v)) w, Ok tt)).
  { unfold setHash, bind, liftResult, modify. rewrite Henc.
    rewrite (UriFacts.fragmentOf_plain _ 99 (61 :: toStr v));
      [done| |done|done].
    by apply UriFacts.written_plain. }
  split; [exact Hset|]. unfold exec. by rewrite Hset.
Qed.

(** X18 on the id 001. *)
Lemma setHash_plain_format_sample :
  fragment (exec (setHash (VString (lit "001"))) sampleWorld) = Some (lit "c=001").
Proof.
  destruct (setHash_plain_format (VString (lit "001")) sampleWorld) as [Hset _].
  - repeat constructor.
  - unfold exec. by rewrite Hset.
Defined.

(** ** Initialisation never throws *)

(** X19. Whatever the fetch brings and whatever the page and the
    manifest are, initialisation returns: an exception in its body is
    caught. Either nothing is reported and the error region is as it was,
    or exactly one error is reported and the error region holds the fixed
    message. *)
Theorem init_never_throws lc f w :
  let w' := exec (init lc f) w in
  init lc f w = (w', Ok tt)
  /\ ((reports w' = reports w
       /\ getElementById "pageError" w' = getElementById "pageError" w)
      \/ exists e,
           reports w' = reports w ++ [Logged e]
           /\ textContent <$> getElementById "pageError" w'
              = (fun _ => pageErrorText) <$> getElementById "pageError" w).
Proof.
  cbn zeta. unfold exec. rewrite init_unfold.
  destruct (gateUnlessAccepted_frame w) as (_ & _ & _ & _ & Hre & Hel).
  cbn zeta in Hre, Hel. specialize (Hel "pageError").
  revert Hre Hel. generalize (exec gateUnlessAccepted w). intros w0 Hre Hel.
  assert (Hk : keptAt "pageError" reports w0 (exec (loadAndRender lc f) w0)).
  { apply kept_loadAndRender; try done; not_in_ids. }
  destruct Hk as [Hpe Hrep]. unfold exec in Hpe, Hrep.
  unfold tryCatch.
  destruct (loadAndRender lc f w0) as [w1 [[]|e]]; cbn [fst] in *.
  - split; [done|]. left. split; [congruence|]. rewrite Hpe. by apply Hel.
  - split; [done|]. right. exists e. split.
    + simpl. congruence.
    + unfold bind, setText, modify. cbn [fst]. lookup_chain.
      rewrite Hpe, Hel by done. by destruct (getElementById "pageError" w).
Qed.

(** ** Loading without a deep link *)

Lemma unasked_refl w : readerKeptUnasked w w.
Proof. intros _. by split. Qed.

Lemma unasked_trans w1 w2 w3 :
  readerKeptUnasked w1 w2 -> readerKeptUnasked w2 w3 -> readerKeptUnasked w1 w3.
Proof.
  intros H12 H23 Hno. destruct (H12 Hno) as [He1 Hv1].
  assert (Hno2 : noEntryAsked w2).
  { unfold noEntryAsked in *. injection Hv1 as Hfr _ _.
    by rewrite (getHashComic_fragment w1 w2). }
  destruct (H23 Hno2) as [He2 Hv2]. split; congruence.
Qed.

Lemma unasked_of_kept {A} (m : M A) :
  stable (keptAt "reader" readerView) m -> stable readerKeptUnasked m.
Proof. intros Hm w _. apply Hm. Qed.

Lemma unasked_bind {A B} (m : M A) (k : A -> M B) :
  stable readerKeptUnasked m -> (forall a, stable readerKeptUnasked (k a)) ->
  stable readerKeptUnasked (bind m k).
Proof. apply stable_bind, unasked_trans. Qed.

Lemma unasked_openFromHash : stable readerKeptUnasked openFromHash.
Proof.
  intros w Hno. unfold exec, openFromHash.
  destruct Hno as [-> | ->]; by split.
Qed.

Lemma unasked_renderAndWire : stable readerKeptUnasked renderAndWire.
Proof.
  intros w. unfold exec at 1. unfold renderAndWire.
  destruct (last (comics (state w))) as [latest|].
  - generalize (comics (state w)). intros cs. revert w.
    apply unasked_bind;
      [apply unasked_of_kept, kept_renderLatest; try done; not_in_ids|intros _].
    apply unasked_bind; [by apply unasked_of_kept, kept_renderGrid|intros _].
    apply unasked_bind; [by apply unasked_of_kept, kept_addListener|intros _].
    apply unasked_bind; [by apply unasked_of_kept, kept_setCurrentTab|intros _].
    apply unasked_bind;
      [by apply unasked_of_kept, kept_disclaimerInteractions|intros _].
    do 4 (apply unasked_bind;
          [by apply unasked_of_kept, kept_addListenerOn|intros _]).
    apply unasked_bind; [by apply unasked_of_kept, kept_addListener|intros _].
    apply unasked_bind;
      [by apply unasked_of_kept, kept_addSwipeListeners|intros _].
    apply unasked_openFromHash.
  - intros _. by apply kept_updateElement.
Qed.

Lemma unasked_loadAndRender lc f : stable readerKeptUnasked (loadAndRender lc f).
Proof.
  unfold loadAndRender.
  apply unasked_bind; [intros w _; by split|intros d].
  apply unasked_bind; [intros w _; by split|intros _].
  apply unasked_bind; [destruct d; intros w _; by split|intros m].
  apply unasked_bind; [intros w _; by split|intros _].
  do 3 (apply unasked_bind;
        [by apply unasked_of_kept, kept_setText|intros _]).
  apply unasked_renderAndWire.
Qed.

(** X20. When the fragment asks for no entry, because there is none or it
    has no [c] or an empty one, initialisation leaves the reader alone
    whatever the fetch brings: the element, the scroll lock of the body,
    the fragment and the cursor are what they were, so a reader that was
    closed stays closed. *)
Theorem init_opens_nothing_unasked lc f w :
  noEntryAsked w ->
  let w' := exec (init lc f) w in
  getElementById "reader" w' = getElementById "reader" w
  /\ readerIsOpen w' = readerIsOpen w
  /\ fragment w' = fragment w
  /\ bodyOverflow w' = bodyOverflow w
  /\ currentIndex (state w') = currentIndex (state w).
Proof.
  intros Hno. cbn zeta.
  assert (Hk : keptAt "reader" readerView w (exec (init lc f) w)).
  { unfold exec. rewrite init_unfold.
    assert (Hgate : keptAt "reader" readerView w (exec gateUnlessAccepted w)).
    { unfold exec, gateUnlessAccepted.
      destruct (hasAcceptedDisclaimer w); [by split|].
      unfold openDisclaimer.
      destruct (getElementById "disclaimer" w); cbn [fst]; [|by split].
      split; [by lookup_chain|done]. }
    assert (Hno1 : noEntryAsked (exec gateUnlessAccepted w)).
    { destruct Hgate as [_ Hv]. injection Hv as Hfr _ _.
      unfold noEntryAsked in *.
      by rewrite (getHashComic_fragment w (exec gateUnlessAccepted w)). }
    revert Hgate Hno1. generalize (exec gateUnlessAccepted w).
    intros w0 Hgate Hno0.
    assert (Hbody : keptAt "reader" readerView w0
                      (exec (tryCatch (loadAndRender lc f)
                               (fun e =>
                                  modify (fun w1 =>
                                    set_reports (reports w1 ++ [Logged e]) w1) ;;
                                  setText "pageError" pageErrorText)) w0)).
    { pose proof (unasked_loadAndRender lc f w0 Hno0) as Hl.
      unfold exec, tryCatch in *.
      destruct (loadAndRender lc f w0) as [w1 [[]|e]]; cbn [fst] in *; [done|].
      destruct Hl as [Hel Hv]. split; [|done].
      unfold bind, setText, modify. cbn [fst]. by lookup_chain. }
    destruct Hgate as [Hg1 Hg2], Hbody as [Hb1 Hb2]. unfold exec in Hb1, Hb2.
    split; [by rewrite Hb1|by rewrite Hb2]. }
  destruct Hk as [Hel Hv]. injection Hv as Hfr Hbo Hcur.
  repeat split; try done. unfold readerIsOpen. by rewrite Hel.
Qed.

(** X20 on the sample page loaded without a fragment. *)
Lemma init_opens_nothing_unasked_sample :
  readerIsOpen sampleWorld = false /\ fragment sampleWorld = None.
Proof.
  destruct (init_opens_nothing_unasked Collation.collate
              (Response true (Some (JManifest sampleManifest)))
              (initialWorld samplePage None (Some ∅)))
    as (_ & Hopen & Hfr & _).
  - by left.
  - split; [exact Hopen|exact Hfr].
Defined.

(** ** When the grid renders *)

Lemma escapeHtml_renderable v :
  (exists e, escapeHtml v = Ok e) <-> renderableId v.
Proof.
  unfold renderableId, escapeHtml. split.
  - intros [e He]. destruct (truthy v) eqn:Ht; [|by left].
    destruct v; try discriminate. right. eauto.
  - intros [Ht | [s ->]]; [rewrite Ht; eauto|].
    destruct (truthy (VString s)); eauto.
Qed.

Lemma tileMarkup_renderable c :
  (exists m, tileMarkup c = Ok m) <-> renderableId (id c).
Proof.
  rewrite <- escapeHtml_renderable. unfold tileMarkup.
  destruct (escapeHtml (id c)) as [eId|e]; [|split; intros [? [=]]].
  rewrite !escapeHtml_string, escapeHtml_field. cbn [mbind result_bind].
  split; [eauto|intros _].
  destruct (displayMeta c); cbn [mbind result_bind]; eauto.
Qed.

Lemma tilesMarkup_renderable cs :
  (exists ms, tilesMarkup cs = Ok ms) <-> Forall (fun c => renderableId (id c)) cs.
Proof.
  induction cs as [|c cs IH]; simpl.
  - split; [constructor|eauto].
  - rewrite Forall_cons, <- IH, <- tileMarkup_renderable.
    destruct (tileMarkup c) as [m|e]; cbn [mbind result_bind].
    + destruct (tilesMarkup cs) as [ms|e]; cbn [mbind result_bind].
      * split; eauto.
      * split; [intros [? [=]]|intros [_ [? [=]]]].
    + split; [intros [? [=]]|intros [[? [=]] _]].
Qed.

(** X21. On a page with the grid, [renderGrid] returns exactly when every
    entry's id is a string or falsy; it then leaves one tile per entry, in
    order, touches no other element and not the script state; when it
    throws, it is a TypeError and nothing has changed. On a page without
    the grid it does nothing, whatever the ids are. *)
Theorem renderGrid_succeeds (cs : list Entry) (w : World) :
  (is_Some (getElementById "archiveGrid" w) ->
   ((exists w', renderGrid cs w = (w', Ok tt))
    <-> Forall (fun c => renderableId (id c)) cs)
   /\ (forall w', renderGrid cs w = (w', Ok tt) ->
         tiles w' = dataOpen <$> cs
         /\ length (tiles w') = length cs
         /\ state w' = state w
         /\ listeners w' = listeners w
         /\ forall i, i <> "archiveGrid" ->
                      getElementById i w' = getElementById i w)
   /\ (forall w' e, renderGrid cs w = (w', Throw e) ->
         w' = w /\ e = TypeError))
  /\ (getElementById "archiveGrid" w = None -> renderGrid cs w = (w, Ok tt)).
Proof.
  split.
  - intros [g Hg]. unfold renderGrid. rewrite Hg.
    rewrite <- tilesMarkup_renderable.
    destruct (tilesMarkup cs) as [ms|e0] eqn:Hms.
    + split; [split; eauto|]. split.
      * intros w' [= <-]. simpl. rewrite length_fmap.
        repeat split. intros i Hi.
        change (getElementById i (set_tiles ?t ?w0)) with (getElementById i w0).
        by apply getElementById_other.
      * intros w' e [=].
    + split; [split; [intros [? [=]]|intros [? [=]]]|]. split.
      * intros w' [=].
      * intros w' e [= <- <-]. split; [done|].
        by apply (tilesMarkup_Throw cs).
  - intros Hg. unfold renderGrid. by rewrite Hg.
Qed.

(** X21 on the sample page and the sample entries. *)
Lemma renderGrid_succeeds_sample :
  exists w', renderGrid [entryA; entryB] (initialWorld samplePage None None)
             = (w', Ok tt).
Proof.
  destruct (proj1 (renderGrid_succeeds [entryA; entryB]
                     (initialWorld samplePage None None))) as [Hiff _].
  - vm_compute. eauto.
  - apply Hiff.
    repeat (constructor; [right; eexists; reflexivity|]). constructor.
Defined.

(** ** The wiring of a page that loads *)

Lemma targetsPresent_update i f w :
  targetsPresent w -> targetsPresent (updateElement i f w).
Proof. intros H j Hj. apply present_update. by apply H. Qed.

Lemma wires_bind a b c (m k : M unit) :
  wires a b m -> wires b c k -> wires a c (m ;; k).
Proof.
  intros Hm Hk w Hw Ha. destruct (Hm w Hw Ha) as (Hok & Hw1 & Hb).
  destruct (Hk (exec m w) Hw1 Hb) as (Hok' & Hw2 & Hc).
  unfold exec, bind in *. rewrite Hok. cbn [fst] in *. by rewrite Hok'.
Qed.

Lemma wires_modify a (f : World -> World) :
  (forall w, targetsPresent w -> targetsPresent (f w)) ->
  (forall w, tracked (f w) = tracked w) ->
  wires a a (modify f).
Proof.
  intros Hp Ht w Hw Ha. split; [done|]. split; [by apply Hp|].
  unfold exec, modify. simpl. by rewrite Ht.
Qed.

Lemma wires_setText a i t : wires a a (setText i t).
Proof. apply wires_modify; [intros w; apply targetsPresent_update|done]. Qed.

Lemma wires_setAttr a i at' v : wires a a (setAttr i at' v).
Proof. apply wires_modify; [intros w; apply targetsPresent_update|done]. Qed.

Lemma wires_renderLatest a c : wires a a (renderLatest c).
Proof.
  unfold renderLatest.
  repeat (eapply wires_bind; [first [apply wires_setText | apply wires_setAttr]|]).
  apply wires_modify; [intros w; apply targetsPresent_update|done].
Qed.

Lemma wires_setCurrentTab a tab : wires a a (setCurrentTab tab).
Proof. by apply wires_modify. Qed.

Lemma wires_addListener L r l : wires (L, r) (L ++ [l], r) (addListener l).
Proof.
  intros w Hw [= HL Hr]. split; [done|]. split; [done|].
  unfold exec, addListener, modify, tracked. simpl. by rewrite HL, Hr.
Qed.

Lemma wires_addListenerOn L r i l :
  i ∈ wiringTargets -> wires (L, r) (L ++ [l], r) (addListenerOn i l).
Proof.
  intros Hi w Hw Ha. destruct (Hw i Hi) as [el Hel].
  unfold addListenerOn, exec. rewrite Hel. by apply wires_addListener.
Qed.

Ltac target := repeat first [ apply list_elem_of_here | apply list_elem_of_further ].

Lemma wires_disclaimerInteractions L r :
  wires (L, r)
    (L ++ (if bool_decide (LDiscAccept ∈ L) then [] else [LDiscAccept])
       ++ [LOpenDisc; LDiscOverlay], r)
    disclaimerInteractions.
Proof.
  set (L1 := L ++ (if bool_decide (LDiscAccept ∈ L) then [] else [LDiscAccept])).
  replace (L ++ (if bool_decide (LDiscAccept ∈ L) then [] else [LDiscAccept])
             ++ [LOpenDisc; LDiscOverlay])
    with ((L1 ++ [LOpenDisc]) ++ [LDiscOverlay])
    by (subst L1; by rewrite <- !app_assoc).
  unfold disclaimerInteractions.
  apply (wires_bind _ (L1, r));
    [|apply (wires_bind _ (L1 ++ [LOpenDisc], r));
      apply wires_addListenerOn; unfold wiringTargets; target].
  intros w Hw [= HL Hr]. unfold addListenerOnceOn, exec. rewrite HL.
  subst L1. destruct (bool_decide (LDiscAccept ∈ L)) eqn:Hin.
  - cbn [fst]. split; [done|]. split; [done|]. unfold tracked.
    by rewrite HL, Hr, app_nil_r.
  - apply wires_addListenerOn; [unfold wiringTargets; target|done|].
    unfold tracked. by rewrite HL, Hr.
Qed.

Lemma wires_addSwipeListeners L r :
  wires (L, r) ((L ++ [LTouchStart]) ++ [LTouchEnd], r) addSwipeListeners.
Proof.
  intros w Hw Ha.
  destruct (Hw "reader") as [rd Hrd]; [unfold wiringTargets; target|].
  assert (Hform : addSwipeListeners w
                  = (addListener LTouchStart ;; addListener LTouchEnd) w).
  { unfold addSwipeListeners. rewrite Hrd.
    by destruct (getElementById "readerImg" w). }
  unfold exec. rewrite Hform.
  apply (wires_bind (L, r) (L ++ [LTouchStart], r));
    [apply wires_addListener|apply wires_addListener|done|done].
Qed.

Lemma wires_renderGrid L T F S R cs :
  Forall (fun c => renderableId (id c)) cs ->
  wires (L, (T, F, S, R)) (L, (dataOpen <$> cs, F, S, R)) (renderGrid cs).
Proof.
  intros Hcs w Hw [= HL HT HF HS HR].
  destruct (Hw "archiveGrid") as [g Hg]; [unfold wiringTargets; target|].
  apply tilesMarkup_renderable in Hcs as [ms Hms].
  unfold exec, renderGrid. rewrite Hg, Hms. cbn [fst].
  split; [done|]. split.
  - intros i Hi.
    change (getElementById i (set_tiles ?t ?w0)) with (getElementById i w0).
    apply present_update. by apply Hw.
  - unfold tracked. simpl. by rewrite HL, HF, HS, HR.
Qed.

Lemma wires_then a b (m k : M unit) h (Post : World -> Prop) :
  wires a b m ->
  (forall w, targetsPresent w -> tracked w = b ->
             Post (exec (tryCatch k h) w)) ->
  forall w, targetsPresent w -> tracked w = a ->
            Post (exec (tryCatch (m ;; k) h) w).
Proof.
  intros Hm Hk w Hw Ha. destruct (Hm w Hw Ha) as (Hok & Hw1 & Hb).
  unfold exec at 1. rewrite (tryCatch_bind_Ok _ _ _ _ _ _ Hok).
  by apply Hk.
Qed.

Lemma gateUnlessAccepted_present i w :
  is_Some (getElementById i (exec gateUnlessAccepted w))
  <-> is_Some (getElementById i w).
Proof.
  unfold exec, gateUnlessAccepted.
  destruct (hasAcceptedDisclaimer w); [done|]. unfold openDisclaimer.
  destruct (getElementById "disclaimer" w); cbn [fst]; [|done].
  change (getElementById i (set_rootOverflow ?o ?w0)) with (getElementById i w0).
  apply present_update.
Qed.

(** Initialisation up to the step that opens the entry of the fragment:
    what holds of every world that step can start in holds of the world
    initialisation leaves. *)
Lemma wired_before_openFromHash lc m page frag store (Post : World -> Prop) :
  default [] (siteComics m) <> [] ->
  Forall (fun c => renderableId (id c)) (default [] (siteComics m)) ->
  (forall i, i ∈ wiringTargets -> is_Some (page !! i)) ->
  let cs := sortComics lc (default [] (siteComics m)) in
  (forall w,
      targetsPresent w ->
      tracked w = (allListeners,
                   (dataOpen <$> cs, frag, mkState (Some (JManifest m)) cs 0, [])) ->
      Post (exec (tryCatch openFromHash
                    (fun e =>
                       modify (fun w0 => set_reports (reports w0 ++ [Logged e]) w0) ;;
                       setText "pageError" pageErrorText)) w)) ->
  Post (exec (init lc (Response true (Some (JManifest m))))
          (initialWorld page frag store)).
Proof.
  intros Hne Hids Hpage cs Hlast_step.
  unfold exec at 1. rewrite init_loaded. fold cs.
  assert (Hperm : cs ≡ₚ default [] (siteComics m))
    by apply (sort_perm (byIdAscending lc)).
  assert (Hcs : Forall (fun c => renderableId (id c)) cs) by (by rewrite Hperm).
  assert (Hlast : exists latest, last cs = Some latest).
  { destruct (last cs) eqn:Hl; [eauto|]. apply last_None in Hl.
    rewrite Hl in Hperm. symmetry in Hperm. by apply Permutation_nil_r in Hperm. }
  destruct Hlast as [latest Hlast].
  destruct (gateUnlessAccepted_frame (initialWorld page frag store))
    as (Hst & Hti & Hli & Hfr & Hre & _).
  cbn zeta in Hst, Hti, Hli, Hfr, Hre.
  set (h := fun e : exn => _).
  set (w4 := updateElement "siteTagline" _ _).
  assert (Hw4 : targetsPresent w4).
  { intros i Hi. subst w4. rewrite !present_update.
    change (getElementById i (set_comics ?c (set_data ?d ?w1)))
      with (getElementById i w1).
    apply gateUnlessAccepted_present. by apply Hpage. }
  assert (Htr : tracked w4
                = ([], ([], frag, mkState (Some (JManifest m)) cs 0, []))).
  { change (tracked w4)
      with (listeners (exec gateUnlessAccepted (initialWorld page frag store)),
            (tiles (exec gateUnlessAccepted (initialWorld page frag store)),
             fragment (exec gateUnlessAccepted (initialWorld page frag store)),
             mkState (Some (JManifest m)) cs
               (currentIndex
                  (state (exec gateUnlessAccepted (initialWorld page frag store)))),
             reports (exec gateUnlessAccepted (initialWorld page frag store)))).
    by rewrite Hli, Hti, Hfr, Hre, Hst. }
  assert (Hrw : tryCatch renderAndWire h w4
                = tryCatch (renderLatest latest ;;
                            renderGrid cs ;;
                            addListener LTab ;;
                            setCurrentTab (lit "archive") ;;
                            disclaimerInteractions ;;
                            addListenerOn "btnStart" LBtnStart ;;
                            addListenerOn "btnOpenLatest" LBtnOpenLatest ;;
                            addListenerOn "btnClose" LBtnClose ;;
                            addListenerOn "reader" LReaderBg ;;
                            addListener LKeydown ;;
                            addSwipeListeners ;;
                            openFromHash) h w4).
  { unfold tryCatch. by rewrite (renderAndWire_nonempty w4 latest Hlast). }
  rewrite Hrw.
  change (Post (exec (tryCatch (renderLatest latest ;;
                                renderGrid cs ;;
                                addListener LTab ;;
                                setCurrentTab (lit "archive") ;;
                                disclaimerInteractions ;;
                                addListenerOn "btnStart" LBtnStart ;;
                                addListenerOn "btnOpenLatest" LBtnOpenLatest ;;
                                addListenerOn "btnClose" LBtnClose ;;
                                addListenerOn "reader" LReaderBg ;;
                                addListener LKeydown ;;
                                addSwipeListeners ;;
                                openFromHash) h) w4)).
  revert Hw4 Htr. generalize w4. clear w4 Hrw.
  eapply wires_then; [apply wires_renderLatest|].
  eapply wires_then; [by apply wires_renderGrid|].
  eapply wires_then; [apply wires_addListener|].
  eapply wires_then; [apply wires_setCurrentTab|].
  eapply wires_then; [apply wires_disclaimerInteractions|].
  do 4 (eapply wires_then;
        [apply wires_addListenerOn; unfold wiringTargets; target|]).
  eapply wires_then; [apply wires_addListener|].
  eapply wires_then; [apply wires_addSwipeListeners|].
  exact Hlast_step.
Qed.

(** The second run of the block of disclaimer listeners. *)
Lemma second_disclaimerInteractions r w :
  targetsPresent w -> tracked w = (allListeners, r) ->
  let w1 := exec (setCurrentTab (lit "archive") ;; disclaimerInteractions) w in
  (setCurrentTab (lit "archive") ;; disclaimerInteractions) w = (w1, Ok tt)
  /\ targetsPresent w1
  /\ tracked w1 = (allListeners ++ [LOpenDisc; LDiscOverlay], r).
Proof.
  intros Hw Htr.
  apply (wires_bind (allListeners, r) (allListeners, r)
           (allListeners ++ [LOpenDisc; LDiscOverlay], r)
           (setCurrentTab (lit "archive")) disclaimerInteractions
           (wires_setCurrentTab _ _) (wires_disclaimerInteractions _ _) w Hw Htr).
Qed.

Lemma openFromHash_asked w c s :
  getHashComic w = Some (c :: s) ->
  openFromHash w
  = match (setCurrentTab (lit "archive") ;; disclaimerInteractions) w with
    | (w', Ok _) => openComicById (VString (c :: s)) w'
    | (w', Throw e) => (w', Throw e)
    end.
Proof. intros H. unfold openFromHash. by rewrite H. Qed.

(** X22. With a manifest that has entries, all with ids the grid can
    render, on a page as written that has the grid and the elements the
    listeners go on, initialisation leaves one tile per entry of the sorted
    collection and each of the eleven listeners once, in the order of the
    script. When the fragment asks for an entry, the block of disclaimer
    listeners runs a second time: the accept listener is not added again,
    the other two are. *)
Theorem init_wires_once lc m page frag store :
  default [] (siteComics m) <> [] ->
  Forall (fun c => renderableId (id c)) (default [] (siteComics m)) ->
  (forall i, i ∈ wiringTargets -> is_Some (page !! i)) ->
  let w0 := initialWorld page frag store in
  let w' := exec (init lc (Response true (Some (JManifest m)))) w0 in
  tiles w' = dataOpen <$> sortComics lc (default [] (siteComics m))
  /\ listeners w'
     = allListeners ++ match getHashComic w0 with
                       | Some (_ :: _) => [LOpenDisc; LDiscOverlay]
                       | _ => []
                       end.
Proof.
  intros Hne Hids Hpage w0 w'. subst w'.
  apply (wired_before_openFromHash lc m page frag store
           (fun w1 => tiles w1 = dataOpen <$> sortComics lc (default [] (siteComics m))
                      /\ listeners w1
                         = allListeners ++ match getHashComic w0 with
                                           | Some (_ :: _) => [LOpenDisc; LDiscOverlay]
                                           | _ => []
                                           end)); try done.
  intros w Hw Htr. pose proof Htr as [= HL HT HF HS HR].
  assert (Hasked : getHashComic w0 = getHashComic w).
  { symmetry. by apply getHashComic_fragment. }
  rewrite Hasked.
  set (h := fun e => _).
  assert (Hh : forall e w1, tiles (fst (h e w1)) = tiles w1
                            /\ listeners (fst (h e w1)) = listeners w1)
    by done.
  unfold exec, tryCatch.
  destruct (getHashComic w) as [[|c s]|] eqn:Hget;
    [unfold openFromHash; rewrite Hget; cbn [fst]; by rewrite app_nil_r
    | |unfold openFromHash; rewrite Hget; cbn [fst]; by rewrite app_nil_r].
  rewrite (openFromHash_asked w c s Hget).
  destruct (second_disclaimerInteractions _ w Hw Htr) as (Hok & Hw1 & Htr1).
  rewrite Hok. injection Htr1 as HL1 HT1 _ _ _.
  assert (Hopen : keptAt "archiveGrid" (fun w2 => (listeners w2, tiles w2))
                    (exec (setCurrentTab (lit "archive") ;; disclaimerInteractions) w)
                    (exec (openComicById (VString (c :: s)))
                       (exec (setCurrentTab (lit "archive") ;; disclaimerInteractions) w))).
  { apply kept_openComicById; try done. unfold readerIds. not_in_ids. }
  destruct Hopen as [_ Hv]. injection Hv as HL2 HT2.
  revert HL1 HT1 HL2 HT2.
  generalize (exec (setCurrentTab (lit "archive") ;; disclaimerInteractions) w).
  intros w1 HL1 HT1 HL2 HT2. unfold exec in HL2, HT2.
  destruct (openComicById (VString (c :: s)) w1) as [w2 [[]|e]]; cbn [fst] in *.
  - split; [by rewrite HT2|by rewrite HL2, HL1].
  - destruct (Hh e w2) as [-> ->]. split; [by rewrite HT2|by rewrite HL2, HL1].
Qed.

(** X22 on the sample page: loaded plainly, and loaded with the fragment
    [c=002]. *)
Lemma init_wires_once_sample :
  listeners sampleWorld = allListeners
  /\ listeners
       (exec (init Collation.collate (Response true (Some (JManifest sampleManifest))))
          (initialWorld samplePage (Some (lit "c=002")) (Some ∅)))
     = allListeners ++ [LOpenDisc; LDiscOverlay].
Proof.
  assert (Hpage : forall i, i ∈ wiringTargets -> is_Some (samplePage !! i)).
  { intros i Hi. unfold wiringTargets in Hi.
    repeat (apply elem_of_cons in Hi as [->|Hi]; [vm_compute; eauto|]).
    by apply elem_of_nil in Hi. }
  assert (Hids : Forall (fun c => renderableId (id c))
                   (default [] (siteComics sampleManifest))).
  { repeat (constructor; [right; eexists; reflexivity|]). constructor. }
  split.
  - apply (init_wires_once Collation.collate sampleManifest samplePage None (Some ∅));
      done.
  - apply (init_wires_once Collation.collate sampleManifest samplePage
             (Some (lit "c=002")) (Some ∅)); done.
Defined.

(** ** Loading with a deep link *)

Lemma renderReader_reports w : reports (exec renderReader w) = reports w.
Proof.
  unfold exec, renderReader. by destruct (comicAt w (currentIndex (state w))).
Qed.

(** X23. With a manifest whose ids the grid can render, on a page as
    written that has the grid, the reader and the elements the listeners go
    on: when the fragment names, by a well-formed id that is not empty, an
    entry of the collection, initialisation ends with the reader open on
    the first entry with that id, the fragment still reading as that id,
    and nothing reported. *)
Theorem init_deep_link_opens lc m page frag store s idx :
  Forall (fun c => renderableId (id c)) (default [] (siteComics m)) ->
  (forall i, i ∈ wiringTargets -> is_Some (page !! i)) ->
  getHashComic (initialWorld page frag store) = Some s ->
  s <> [] ->
  wellFormed s ->
  findIndex (VString s) (sortComics lc (default [] (siteComics m))) = Some idx ->
  let w' := exec (init lc (Response true (Some (JManifest m))))
              (initialWorld page frag store) in
  currentIndex (state w') = Z.of_nat idx
  /\ comics (state w') = sortComics lc (default [] (siteComics m))
  /\ readerIsOpen w' = true
  /\ getHashComic w' = Some s
  /\ reports w' = [].
Proof.
  intros Hids Hpage Hasked Hs Hwf Hf. cbn zeta.
  pose proof Hf as Hf'. apply findIndex_Some in Hf' as (c & Hc & _).
  assert (Hne : default [] (siteComics m) <> []).
  { intros Hnil. rewrite Hnil in Hc.
    change (sortComics lc []) with (@nil Entry) in Hc.
    by rewrite lookup_nil in Hc. }
  apply (wired_before_openFromHash lc m page frag store
           (fun w1 => currentIndex (state w1) = Z.of_nat idx
                      /\ comics (state w1) = sortComics lc (default [] (siteComics m))
                      /\ readerIsOpen w1 = true
                      /\ getHashComic w1 = Some s
                      /\ reports w1 = [])); try done.
  intros w Hw Htr. pose proof Htr as [= HL HT HF HS HR].
  assert (Hget : getHashComic w = Some s).
  { rewrite <- Hasked. by apply getHashComic_fragment. }
  destruct s as [|u s]; [done|].
  unfold exec, tryCatch. rewrite (openFromHash_asked w u s Hget).
  destruct (second_disclaimerInteractions _ w Hw Htr) as (Hok & Hw1 & Htr1).
  rewrite Hok. injection Htr1 as _ _ _ HS1 HR1.
  revert Hw1 HS1 HR1.
  generalize (exec (setCurrentTab (lit "archive") ;; disclaimerInteractions) w).
  intros w1 Hw1 HS1 HR1.
  assert (Hreader : is_Some (getElementById "reader" w1)).
  { apply Hw1. unfold wiringTargets. target. }
  assert (Hcs1 : comics (state w1) = sortComics lc (default [] (siteComics m)))
    by (by rewrite HS1).
  destruct (openComicById_form (VString (u :: s)) w1 idx c)
    as (cs & Hcs & Hback & Hform & Hrd); [by rewrite Hcs1|by rewrite Hcs1|done|done|].
  rewrite Hform. cbn [fst].
  destruct (opened_reader cs (exec renderReader (set_currentIndex (Z.of_nat idx) w1)))
    as (Hopen & Hhash & Hst & Hre); [by rewrite Hrd|done|].
  cbn zeta in Hopen, Hhash, Hst, Hre.
  split; [by rewrite Hst, renderReader_state|].
  split; [by rewrite Hst, renderReader_state|].
  split; [done|]. split; [by rewrite Hhash, Hback|].
  by rewrite Hre, renderReader_reports.
Qed.

(** X23 on the sample page loaded with the fragment [c=002]. *)
Lemma init_deep_link_opens_sample :
  let w := exec (init Collation.collate (Response true (Some (JManifest sampleManifest))))
             (initialWorld samplePage (Some (lit "c=002")) (Some ∅)) in
  currentIndex (state w) = 1 /\ readerIsOpen w = true.
Proof.
  intros w.
  destruct (init_deep_link_opens Collation.collate sampleManifest samplePage
              (Some (lit "c=002")) (Some ∅) (lit "002") 1)
    as (Hi & _ & Hopen & _).
  - repeat (constructor; [right; eexists; reflexivity|]). constructor.
  - intros i Hi. unfold wiringTargets in Hi.
    repeat (apply elem_of_cons in Hi as [->|Hi]; [vm_compute; eauto|]).
    by apply elem_of_nil in Hi.
  - reflexivity.
  - done.
  - split; [by repeat constructor|]. intros u Hu. vm_compute in Hu.
    repeat (apply elem_of_cons in Hu as [Hu|Hu]; [discriminate|]).
    by apply elem_of_nil in Hu.
  - reflexivity.
  - split; [exact Hi|exact Hopen].
Defined.

(** ** The disclaimer, opened again *)

Lemma openDisclaimer_idem w :
  exec openDisclaimer (exec openDisclaimer w) = exec openDisclaimer w.
Proof.
  unfold exec, openDisclaimer.
  destruct (getElementById "disclaimer" w) as [d|] eqn:Hd; cbn [fst]; [|by rewrite Hd].
  change (getElementById "disclaimer" (set_rootOverflow ?o ?w0))
    with (getElementById "disclaimer" w0).
  rewrite getElementById_update, decide_True, Hd by done.
  cbn [fmap option_fmap option_map fst].
  unfold set_rootOverflow. cbn. f_equal.
  rewrite alter_alter_eq. apply alter_ext. intros el _.
  unfold setAttribute. simpl. by rewrite insert_insert_eq.
Qed.

Lemma no_handler_elsewhere w i :
  navInv w -> i ∉ ["btnPrev"; "btnNext"; "btnLatest"; "latestOpen"] ->
  match getElementById i w with
  | Some el =>
      match onclick el with
      | Some h => reported (runHandler h) w
      | None => w
      end
  | None => w
  end = w.
Proof.
  intros [Hok _] Hi.
  destruct (getElementById i w) as [el|] eqn:Hel; [|done].
  destruct (onclick el) as [h|] eqn:Hon; [|done].
  specialize (Hok i el h Hel Hon). exfalso. apply Hi.
  destruct h; simpl in Hok;
    [destruct Hok as [-> _]|destruct Hok as [-> _]|destruct Hok as [-> _]
    |rewrite Hok]; target.
Qed.

(** X24. A click on the link that shows the disclaimer, once its listener
    is in place, comes to [openDisclaimer]: the disclaimer is open again
    and Escape is ignored again, while the storage, and so an acceptance on
    record, the script state and the reader are as they were. *)
Theorem disclaimer_reopens (w : World) :
  navInv w ->
  is_Some (getElementById "disclaimer" w) ->
  LOpenDisc ∈ listeners w ->
  let w' := dispatch (Click "openDisclaimer") w in
  w' = exec openDisclaimer w
  /\ disclaimerIsOpen w' = true
  /\ storage w' = storage w
  /\ state w' = state w
  /\ readerIsOpen w' = readerIsOpen w
  /\ dispatch (KeyDown (lit "Escape")) w' = w'.
Proof.
  intros Hinv [d Hd] Hin. cbn zeta.
  assert (Hclick : dispatch (Click "openDisclaimer") w = exec openDisclaimer w).
  { simpl. unfold fireClick.
    rewrite no_handler_elsewhere by (done || not_in_ids).
    apply (foldl_op _ (fun _ => True) (exec openDisclaimer) openDisclaimer_idem)
      with (l0 := LOpenDisc); try done.
    - intros w0 l _. destruct l; try (by left). right.
      unfold reported, clickListener. simpl. by rewrite openDisclaimer_Ok.
    - intros w0 _. unfold reported, clickListener. simpl.
      by rewrite openDisclaimer_Ok. }
  rewrite Hclick.
  assert (Hopen : disclaimerIsOpen (exec openDisclaimer w) = true).
  { unfold exec, openDisclaimer, disclaimerIsOpen. rewrite Hd. cbn [fst].
    lookup_chain. rewrite Hd. simpl. unfold hasAttribute. simpl.
    apply bool_decide_eq_true. by rewrite lookup_insert_eq. }
  split; [done|]. split; [done|].
  repeat split.
  - unfold exec, openDisclaimer. by rewrite Hd.
  - unfold exec, openDisclaimer. by rewrite Hd.
  - unfold exec, openDisclaimer, readerIsOpen. rewrite Hd. cbn [fst].
    by lookup_chain.
  - by apply escape_ignored_while_gate_open.
Qed.

(** X24 on the sample world once the disclaimer has been accepted. *)
Lemma disclaimer_reopens_sample :
  let w := dispatch (Click "discAccept") sampleWorld in
  disclaimerIsOpen w = false
  /\ disclaimerIsOpen (dispatch (Click "openDisclaimer") w) = true
  /\ hasAcceptedDisclaimer (dispatch (Click "openDisclaimer") w) = true.
Proof.
  intros w. split; [reflexivity|].
  destruct (disclaimer_reopens w) as (_ & Hopen & Hst & _).
  - apply navInv_dispatch, navInv_sampleWorld.
  - vm_compute. eauto.
  - in_listeners.
  - split; [exact Hopen|]. unfold hasAcceptedDisclaimer. by rewrite Hst.
Defined.

(** ** The quick actions of the archive *)

Lemma foldl_click_elsewhere ls target l0 : forall w,
  l0 ∉ ls ->
  (forall l, l <> l0 -> clickListener l target = ret tt) ->
  foldl (fun w' l => reported (clickListener l target) w') w ls = w.
Proof.
  induction ls as [|l ls IH]; intros w Hls Hother; simpl; [done|].
  apply not_elem_of_cons in Hls as [Hl Hls].
  rewrite (Hother l) by done. by apply IH.
Qed.

Lemma click_once target l0 w l1 l2 :
  navInv w -> target ∉ ["btnPrev"; "btnNext"; "btnLatest"; "latestOpen"] ->
  listeners w = l1 ++ l0 :: l2 -> l0 ∉ l1 -> l0 ∉ l2 ->
  (forall l, l <> l0 -> clickListener l target = ret tt) ->
  dispatch (Click target) w = reported (clickListener l0 target) w.
Proof.
  intros Hinv Ht Hl H1 H2 Hother. simpl. unfold fireClick.
  rewrite no_handler_elsewhere by done.
  rewrite Hl, foldl_app. simpl.
  rewrite (foldl_click_elsewhere l1 target l0) by done.
  by apply (foldl_click_elsewhere l2 target l0).
Qed.

(** X25. With their listeners in place once, on a collection that is not
    empty: the start button opens by the id of the first entry, which puts
    the cursor at 0; the open-latest button opens by the id of the last
    entry, which puts the cursor on the last entry when no earlier one
    shares its id. *)
Theorem quick_actions (w : World) (c : Entry) :
  navInv w ->
  last (comics (state w)) = Some c ->
  (forall l1 l2,
      listeners w = l1 ++ LBtnStart :: l2 -> LBtnStart ∉ l1 -> LBtnStart ∉ l2 ->
      currentIndex (state (dispatch (Click "btnStart") w)) = 0)
  /\ (forall l1 l2,
        listeners w = l1 ++ LBtnOpenLatest :: l2 ->
        LBtnOpenLatest ∉ l1 -> LBtnOpenLatest ∉ l2 ->
        dispatch (Click "btnOpenLatest") w = reported (openComicById (id c)) w
        /\ ((forall j c', comics (state w) !! j = Some c' ->
                          (j < length (comics (state w)) - 1)%nat ->
                          toStr (id c') <> toStr (id c)) ->
            currentIndex (state (dispatch (Click "btnOpenLatest") w))
            = Z.of_nat (length (comics (state w))) - 1)).
Proof.
  intros Hinv Hlast.
  assert (Hn : (0 < length (comics (state w)))%nat).
  { destruct (comics (state w)); [discriminate|simpl; lia]. }
  assert (Hc : comics (state w) !! (length (comics (state w)) - 1)%nat = Some c).
  { rewrite last_lookup in Hlast. by replace (length (comics (state w)) - 1)%nat
      with (Nat.pred (length (comics (state w)))) by lia. }
  split.
  - intros l1 l2 Hl H1 H2.
    rewrite (click_once "btnStart" LBtnStart w l1 l2) by
      (done || not_in_ids || (intros l Hne; by destruct l)).
    simpl. destruct (reported_fields (openAt 0) w) as (-> & _).
    destruct (comics (state w)) as [|c0 cs] eqn:Hcs; [simpl in Hn; lia|].
    assert (Hat : comicAt w 0 = Some c0).
    { apply comicAt_Some. rewrite Hcs. by split. }
    unfold exec, openAt. rewrite Hat.
    apply (openComicById_cursor (id c0) w 0). rewrite Hcs.
    apply findIndex_Some. exists c0.
    split; [done|]. split; [done|]. intros j c' _ Hj. lia.
  - intros l1 l2 Hl H1 H2.
    rewrite (click_once "btnOpenLatest" LBtnOpenLatest w l1 l2) by
      (done || not_in_ids || (intros l Hne; by destruct l)).
    assert (Hat : comicAt w (Z.of_nat (length (comics (state w))) - 1) = Some c).
    { apply comicAt_Some. split; [lia|].
      by replace (Z.to_nat (Z.of_nat (length (comics (state w))) - 1))
        with (length (comics (state w)) - 1)%nat by lia. }
    assert (Hrun : reported (clickListener LBtnOpenLatest "btnOpenLatest") w
                   = reported (openComicById (id c)) w).
    { unfold reported, clickListener. simpl. unfold openAt. by rewrite Hat. }
    rewrite Hrun. split; [done|]. intros Hfirst.
    destruct (reported_fields (openComicById (id c)) w) as (-> & _).
    rewrite (openComicById_cursor (id c) w (length (comics (state w)) - 1)); [lia|].
    apply findIndex_Some. exists c.
    split; [done|]. split; [done|]. exact Hfirst.
Qed.

(** X25 on the sample world: the open-latest button goes to the second
    of the two entries. *)
Lemma quick_actions_sample :
  currentIndex (state (dispatch (Click "btnStart") sampleWorld)) = 0
  /\ currentIndex (state (dispatch (Click "btnOpenLatest") sampleWorld)) = 1.
Proof.
  destruct (quick_actions sampleWorld entryB navInv_sampleWorld eq_refl)
    as [Hstart Hlatest].
  split.
  - apply (Hstart [LTab; LDiscAccept; LOpenDisc; LDiscOverlay]
             [LBtnOpenLatest; LBtnClose; LReaderBg; LKeydown; LTouchStart;
              LTouchEnd]); [reflexivity| |];
      intros H; repeat (apply elem_of_cons in H as [H|H]; [discriminate|]);
      by apply elem_of_nil in H.
  - destruct (Hlatest [LTab; LDiscAccept; LOpenDisc; LDiscOverlay; LBtnStart]
                [LBtnClose; LReaderBg; LKeydown; LTouchStart; LTouchEnd])
      as [_ Hcur]; [reflexivity| | |];
      try (intros H; repeat (apply elem_of_cons in H as [H|H]; [discriminate|]);
           by apply elem_of_nil in H).
    apply Hcur. intros j c' Hj Hlt. vm_compute in Hlt.
    destruct j as [|j]; [|lia]. vm_compute in Hj. injection Hj as <-. done.
Defined.
